(** * Total-variation denoising by FISTA: a shallow embedding of
      [reconstruction/tv_denoising.py] and the properties of its operators.

    The NumPy arrays of the program are modelled as a shape together with the
    row-major (C order) list of their elements.  Basic indexing (integers,
    slices, the ellipsis) is interpreted on that representation, so that each
    statement of the source has a counterpart here.  Arithmetic on array
    elements is the arithmetic of the real numbers. *)

From Stdlib Require Import String Ascii.
From Stdlib Require Import Reals Lra Lia ZArith List Bool Arith.
Import ListNotations.

Set Implicit Arguments.

(** ** Exceptions and results *)

Inductive exn : Type :=
| IndexError
| ValueError (msg : string)
| UnboundLocalError (name : string)
| ZeroDivisionError.

Inductive result (A : Type) : Type :=
| Ok (a : A)
| Raise (e : exn).

Arguments Ok {A} a.
Arguments Raise {A} e.

Definition bind {A B : Type} (r : result A) (k : A -> result B) : result B :=
  match r with
  | Ok a => k a
  | Raise e => Raise e
  end.

Notation "x <- r ;; k" := (bind r (fun x => k))
  (at level 61, r at next level, right associativity).

(** ** Arrays *)

Record dtype : Type := mkdtype { kind : ascii; itemsize : nat }.

Definition float64 : dtype := {| kind := "f"%char; itemsize := 8 |}.

Record ndarray (A : Type) : Type := mkarray
  { dtype_of : dtype;
    shape : list nat;
    data : list A }.

Arguments mkarray {A} _ _ _.

(** [size s] is the number of elements of an array of shape [s]. *)
Definition size (s : list nat) : nat := fold_right Nat.mul 1 s.

Definition ndim {A} (a : ndarray A) : nat := length (shape a).

(** An array is well formed when its buffer has as many elements as its
    shape says. *)
Definition wf {A} (a : ndarray A) : Prop := length (data a) = size (shape a).

(** [chunks k count l] cuts [l] into [count] consecutive pieces of [k]
    elements: the sub-arrays of an array along its first axis. *)
Fixpoint chunks {A} (k count : nat) (l : list A) : list (list A) :=
  match count with
  | O => []
  | S c => firstn k l :: chunks k c (skipn k l)
  end.

Fixpoint map2 {A B C} (f : A -> B -> C) (l : list A) (l' : list B) : list C :=
  match l, l' with
  | x :: t, y :: t' => f x y :: map2 f t t'
  | _, _ => []
  end.

(** ** Basic indexing *)

Inductive index : Type :=
| Int (z : Z)
| Slice (start stop : option Z)
| Ellipsis.

(** What an index item selects on an axis of known length: one position, or
    [len] consecutive positions from [lo]. *)
Inductive sel : Type :=
| Pt (k : nat)
| Rng (lo len : nat).

(** An integer index on an axis of length [n]; negative ones count from the
    end. *)
Definition norm_int (z : Z) (n : nat) : result nat :=
  let z' := if (z <? 0)%Z then (z + Z.of_nat n)%Z else z in
  if ((0 <=? z') && (z' <? Z.of_nat n))%Z then Ok (Z.to_nat z')
  else Raise IndexError.

(** A bound of a slice (step 1) on an axis of length [n], as Python's
    [slice.indices] clamps it. *)
Definition clamp (z : Z) (n : nat) : nat :=
  if (z <? 0)%Z then Z.to_nat (Z.max (z + Z.of_nat n) 0)
  else Nat.min (Z.to_nat z) n.

Definition slice_rng (start stop : option Z) (n : nat) : sel :=
  let lo := match start with None => O | Some z => clamp z n end in
  let hi := match stop with None => n | Some z => clamp z n end in
  Rng lo (hi - lo).

Definition is_ellipsis (i : index) : bool :=
  match i with Ellipsis => true | _ => false end.

Definition count_axes (idx : list index) : nat :=
  length (filter (fun i => negb (is_ellipsis i)) idx).

(** [resolve s idx] interprets the index [idx] on an array of shape [s]:
    one selection per axis.  Missing trailing items select whole axes; an
    ellipsis stands for as many whole axes as are needed. *)
Fixpoint resolve (s : list nat) (idx : list index) : result (list sel) :=
  match idx with
  | [] => Ok (map (fun n => Rng 0 n) s)
  | Ellipsis :: idx' =>
      let m := count_axes idx' in
      if length s <? m then Raise IndexError
      else
        rest <- resolve (skipn (length s - m) s) idx' ;;
        Ok (map (fun n => Rng 0 n) (firstn (length s - m) s) ++ rest)
  | Int z :: idx' =>
      match s with
      | [] => Raise IndexError
      | n :: s' =>
          k <- norm_int z n ;;
          rest <- resolve s' idx' ;;
          Ok (Pt k :: rest)
      end
  | Slice a b :: idx' =>
      match s with
      | [] => Raise IndexError
      | n :: s' =>
          rest <- resolve s' idx' ;;
          Ok (slice_rng a b n :: rest)
      end
  end.

(** The shape of the selected sub-array: an integer index removes its axis. *)
Fixpoint sel_shape (sels : list sel) : list nat :=
  match sels with
  | [] => []
  | Pt _ :: r => sel_shape r
  | Rng _ len :: r => len :: sel_shape r
  end.

(** Reading the selected elements out of the buffer [l] of an array of shape
    [s], in the order of their indices. *)
Fixpoint take {A} (s : list nat) (sels : list sel) (l : list A) : list A :=
  match s, sels with
  | n :: s', Pt k :: r => take s' r (nth k (chunks (size s') n l) [])
  | n :: s', Rng lo len :: r =>
      concat (map (take s' r) (firstn len (skipn lo (chunks (size s') n l))))
  | _, _ => l
  end.

(** Writing the elements [src] at the selected positions of the buffer
    [dst]. *)
Fixpoint put {A} (s : list nat) (sels : list sel) (dst src : list A) : list A :=
  match s, sels with
  | n :: s', Pt k :: r =>
      let rows := chunks (size s') n dst in
      concat (firstn k rows ++ put s' r (nth k rows []) src :: skipn (S k) rows)
  | n :: s', Rng lo len :: r =>
      let rows := chunks (size s') n dst in
      let srows := chunks (size (sel_shape r)) len src in
      concat (firstn lo rows
                ++ map2 (put s' r) (firstn len (skipn lo rows)) srows
                ++ skipn (lo + len) rows)
  | _, _ => src
  end.

Definition shape_eqb (s s' : list nat) : bool :=
  if list_eq_dec Nat.eq_dec s s' then true else false.

(** [a[idx]] *)
Definition getitem {A} (a : ndarray A) (idx : list index) : result (ndarray A) :=
  sels <- resolve (shape a) idx ;;
  Ok (mkarray (dtype_of a) (sel_shape sels) (take (shape a) sels (data a))).

(** [a[idx] = v], for a value [v] of the shape of the selection (the program
    never relies on broadcasting in an assignment). *)
Definition setitem {A} (a : ndarray A) (idx : list index) (v : ndarray A)
  : result (ndarray A) :=
  sels <- resolve (shape a) idx ;;
  if shape_eqb (shape v) (sel_shape sels)
  then Ok (mkarray (dtype_of a) (shape a) (put (shape a) sels (data a) (data v)))
  else Raise (ValueError "could not broadcast input array").

(** The dtype of the sum, difference or product of two arrays of the
    dtypes [a] and [b] (NumPy's [promote_types]), for the dtypes of the
    numbers that an array holds here: booleans, integers, signed or not,
    and floats.  [float_for d] is the size of the smallest float that
    holds the integers of the dtype [d], up to float64. *)
Definition float_for (d : dtype) : nat := Nat.min 8 (2 * itemsize d).

Definition promote (a b : dtype) : dtype :=
  if Ascii.eqb (kind a) (kind b)
  then mkdtype (kind a) (Nat.max (itemsize a) (itemsize b))
  else if Ascii.eqb (kind a) "b" then b
  else if Ascii.eqb (kind b) "b" then a
  else if Ascii.eqb (kind a) "f"
  then mkdtype "f" (Nat.max (itemsize a) (float_for b))
  else if Ascii.eqb (kind b) "f"
  then mkdtype "f" (Nat.max (float_for a) (itemsize b))
  else
    let (i, u) := if Ascii.eqb (kind a) "i" then (a, b) else (b, a) in
    if itemsize u <? itemsize i then i
    else if itemsize u <? 8 then mkdtype "i" (2 * itemsize u)
    else float64.

(** Element-wise operations; binary ones are only applied to arrays of the
    same shape. *)
Definition amap {A B} (f : A -> B) (a : ndarray A) : ndarray B :=
  mkarray (dtype_of a) (shape a) (map f (data a)).

Definition amap2 {A B C} (f : A -> B -> C) (a : ndarray A) (b : ndarray B)
  : ndarray C :=
  mkarray (promote (dtype_of a) (dtype_of b)) (shape a)
    (map2 f (data a) (data b)).

(** A binary operation between two arrays; the program only combines arrays
    of one shape. *)
Definition binop {A B C} (f : A -> B -> C) (a : ndarray A) (b : ndarray B)
  : result (ndarray C) :=
  if shape_eqb (shape a) (shape b) then Ok (amap2 f a b)
  else Raise (ValueError "operands could not be broadcast together").

(** [a[idx] op= v]; with the empty index, [a op= v] on the whole array.
    The result keeps the dtype of [a]. *)
Definition iop {A} (f : A -> A -> A) (a : ndarray A) (idx : list index)
  (v : ndarray A) : result (ndarray A) :=
  cur <- getitem a idx ;;
  new <- binop f cur v ;;
  setitem a idx new.

(** [np.rollaxis(a, axis)] is a view of [a] whose first axis is the axis
    [axis] of [a]: the item [idx] of the view is the item of [a] with [axis]
    whole-axis slices put before [idx]. *)
Definition rolled (axis : nat) (idx : list index) : list index :=
  repeat (Slice None None) axis ++ idx.

Definition rollaxis_check {A} (a : ndarray A) (axis : nat) : result unit :=
  if axis <? ndim a then Ok tt
  else Raise (ValueError "rollaxis: axis out of range").

Section Numeric.

(** The element type of an array with its zero and its subtraction. *)
Variable A : Type.
Variable zero : A.
Variable sub : A -> A -> A.

(** [np.zeros(s, dtype=dt)] *)
Definition np_zeros (s : list nat) (dt : dtype) : ndarray A :=
  mkarray dt s (repeat zero (size s)).

(** [np.diff(a, axis=axis)], which NumPy computes as
    [a[slice1] - a[slice2]] with [slice1[axis] = slice(1, None)] and
    [slice2[axis] = slice(None, -1)].  It refuses an array of rank 0 with
    a [ValueError], and an axis that the array has not with an error that
    is an [IndexError]. *)
Definition np_diff (a : ndarray A) (axis : nat) : result (ndarray A) :=
  if ndim a =? 0 then
    Raise (ValueError "diff requires input that is at least one dimensional")
  else if axis <? ndim a then
    hi <- getitem a (repeat (Slice None None) axis ++ [Slice (Some 1%Z) None]) ;;
    lo <- getitem a (repeat (Slice None None) axis ++ [Slice None (Some (-1)%Z)]) ;;
    binop sub hi lo
  else Raise IndexError.

(** One turn of the loop of [gradient]: the assignment through
    [slice_all], then the update of [slice_all]. *)
Definition gradient_step (img : ndarray A)
  (st : result (ndarray A * list index)) (d : nat)
  : result (ndarray A * list index) :=
  st' <- st ;;
  let '(gradient, slice_all) := st' in
  df <- np_diff img d ;;
  gradient' <- setitem gradient slice_all df ;;
  let slice_all' :=
    match slice_all with
    | _ :: rest => Int (Z.of_nat d + 1) :: Slice None None :: rest
    | [] => []
    end in
  Ok (gradient', slice_all').

Definition gradient (img : ndarray A) : result (ndarray A) :=
  let shape := ndim img :: shape img in
  let gradient := np_zeros shape (dtype_of img) in
  let slice_all := [Int 0; Slice None (Some (-1)%Z)] in
  st <- fold_left (gradient_step img) (seq 0 (ndim img))
          (Ok (gradient, slice_all)) ;;
  Ok (fst st).

End Numeric.

Open Scope R_scope.

Definition array : Type := ndarray R.

Definition np_sum (a : array) : R := fold_right Rplus 0 (data a).

(** ** The divergence *)

(** One turn of the loop of [div] on the axis [d]; [this_grad] and
    [this_res] are the views [np.rollaxis(grad[d], d)] and
    [np.rollaxis(res, d)]. *)
Definition div_step (grad : array) (acc : result array) (d : nat)
  : result array :=
  res <- acc ;;
  grad_d <- getitem grad [Int (Z.of_nat d)] ;;
  _ <- rollaxis_check grad_d d ;;
  _ <- rollaxis_check res d ;;
  (* this_res[:-1] += this_grad[:-1] *)
  g1 <- getitem grad_d (rolled d [Slice None (Some (-1)%Z)]) ;;
  res <- iop Rplus res (rolled d [Slice None (Some (-1)%Z)]) g1 ;;
  (* this_res[1:-1] -= this_grad[:-2] *)
  g2 <- getitem grad_d (rolled d [Slice None (Some (-2)%Z)]) ;;
  res <- iop Rminus res (rolled d [Slice (Some 1%Z) (Some (-1)%Z)]) g2 ;;
  (* this_res[-1] -= this_grad[-2] *)
  g3 <- getitem grad_d (rolled d [Int (-2)]) ;;
  iop Rminus res (rolled d [Int (-1)]) g3.

Definition div (grad : array) : result array :=
  match shape grad with
  | [] => Raise IndexError
  | c :: s =>
      let res := np_zeros 0 s float64 in
      fold_left (div_step grad) (seq 0 c) (Ok res)
  end.

(** ** The projection on the dual ball *)

(** [np.sum(a, 0)]: the sum of the sub-arrays along the first axis. *)
Definition np_sum_axis0 (a : array) : result array :=
  match shape a with
  | [] => Raise (ValueError "axis out of bounds")
  | c :: s =>
      Ok (mkarray (dtype_of a) s
            (fold_left (map2 Rplus) (chunks (size s) c (data a))
               (repeat 0 (size s))))
  end.

(** [for grad_comp in grad: grad_comp /= norm], on the component [k].
    When [grad] has rank 1 its components are scalars, and [/=] only
    gives the loop variable a new value: [grad] is left as it is.  The
    division in place is that of an array of floats, which the fields of
    [tv_denoise_fista] are. *)
Definition projector_step (norm : array) (acc : result array) (k : nat)
  : result array :=
  grad <- acc ;;
  if (ndim grad =? 1)%nat then Ok grad
  else iop Rdiv grad [Int (Z.of_nat k)] norm.

Definition _projector_on_dual (grad : array) : result array :=
  sq <- np_sum_axis0 (amap (fun x => x ^ 2) grad) ;;
  let norm := amap (fun x => Rmax x 1) (amap sqrt sq) in
  fold_left (projector_step norm) (seq 0 (hd O (shape grad))) (Ok grad).

(** ** The dual gap *)

Definition zeros_like (a : array) : array :=
  np_zeros 0 (shape a) (dtype_of a).

Definition sqr (a : array) : array := amap (fun x => x ^ 2) a.

(** What a division or a product of NumPy's float64 scalars gives: a
    number, an infinity or NaN (a division by zero only warns). *)
Inductive xreal : Type :=
  | Finite (r : R)
  | PlusInf
  | MinusInf
  | NaN.

(** [x / y] for two numbers.  The divisors of the program are sums of
    squares or absolute values, so that a divisor that is zero is [+0]. *)
Definition xdiv (x y : R) : xreal :=
  if Req_dec_T y 0 then
    if Rlt_dec 0 x then PlusInf else if Rlt_dec x 0 then MinusInf else NaN
  else Finite (x / y).

(** [x * y] where [x] may be infinite or NaN. *)
Definition xmul (x : xreal) (y : R) : xreal :=
  match x with
  | Finite r => Finite (r * y)
  | PlusInf =>
      if Rlt_dec 0 y then PlusInf else if Rlt_dec y 0 then MinusInf else NaN
  | MinusInf =>
      if Rlt_dec 0 y then MinusInf else if Rlt_dec y 0 then PlusInf else NaN
  | NaN => NaN
  end.

(** [x < e], which is false when [x] is NaN. *)
Definition xlt (x : xreal) (e : R) : bool :=
  match x with
  | Finite r => if Rlt_dec r e then true else false
  | MinusInf => true
  | PlusInf | NaN => false
  end.

Definition dual_gap (im new gap : array) (weight : R) : result xreal :=
  let im_norm := np_sum (sqr im) in
  let gx := zeros_like new in
  let gy := zeros_like new in
  dx <- np_diff Rminus new 0 ;;
  gx <- setitem gx [Slice None (Some (-1)%Z)] dx ;;
  dy <- np_diff Rminus new 1 ;;
  gy <- setitem gy [Slice None None; Slice None (Some (-1)%Z)] dy ;;
  tv_new <-
    (if (ndim im =? 3)%nat then
       let gz := zeros_like new in
       dz <- np_diff Rminus new 2 ;;
       gz <- setitem gz [Ellipsis; Slice None (Some (-1)%Z)] dz ;;
       s <- binop Rplus (sqr gx) (sqr gy) ;;
       s <- binop Rplus s (sqr gz) ;;
       Ok (2 * weight * np_sum (amap sqrt s))
     else
       s <- binop Rplus (sqr gx) (sqr gy) ;;
       Ok (2 * weight * np_sum (amap sqrt s))) ;;
  let dual_gap := np_sum (sqr gap) + tv_new - im_norm + np_sum (sqr new) in
  Ok (xmul (xdiv 0.5 im_norm) dual_gap).

(** ** The solver *)

(** [a.clip(lo, hi)] on one element, which NumPy computes as
    [minimum(maximum(a, lo), hi)].  A bound that is [np.nan] in the source
    (no bound was given) is [None] here: it clips nothing. *)
Definition clip1 (lo hi : option R) (x : R) : R :=
  match lo, hi with
  | Some l, Some h => Rmin (Rmax x l) h
  | Some l, None => Rmax x l
  | None, Some h => Rmin x h
  | None, None => x
  end.

Definition clip (lo hi : option R) (a : array) : array := amap (clip1 lo hi) a.

(** [np.max(a)] *)
Definition np_max (a : array) : result R :=
  match data a with
  | [] => Raise (ValueError "zero-size array to reduction operation maximum")
  | x :: l => Ok (fold_left Rmax l x)
  end.

Definition astype_float (a : array) : array :=
  mkarray float64 (shape a) (data a).

Definition unsupported : string :=
  "Cannot compute TV for images that are not 2D or 3D".

(** The upper bound on the Lipschitz constant, chosen from the number of
    dimensions. *)
Definition lipschitz (n : nat) : result R :=
  if (n =? 2)%nat then Ok 9
  else if (n =? 3)%nat then Ok 12
  else Raise (ValueError unsupported).

(** The arguments of [tv_denoise_fista] other than the image ([verbose] only
    prints, and is left out). *)
Record params : Type := mkparams
  { weight : R;
    eps : R;
    n_iter_max : Z;
    check_gap_frequency : Z;
    val_min : option R;
    val_max : option R }.

Definition bounded (p : params) : bool :=
  match val_min p, val_max p with
  | None, None => false
  | _, _ => true
  end.

(** The variables of the loop.  [gap] and [negated_output_old] are [None]
    as long as the source has not assigned them; [iters] counts the entries
    in the loop body and is not a variable of the source. *)
Record state : Type := mkstate
  { grad_im : array;
    grad_aux : array;
    t : R;
    i : Z;
    negated_output : array;
    negated_output_old : option array;
    gap : option array;
    iters : nat }.

Definition lookup (name : string) (v : option array) : result array :=
  match v with
  | Some a => Ok a
  | None => Raise (UnboundLocalError name)
  end.

(** Everything [tv_denoise_fista] does before its loop. *)
Definition fista_init (p : params) (im : array)
  : result (array * R * state) :=
  let input_img :=
    if Ascii.eqb (kind (dtype_of im)) "f" then im else astype_float im in
  let shape := ndim input_img :: shape input_img in
  let grad_im := np_zeros 0 shape float64 in
  let grad_aux := np_zeros 0 shape float64 in
  lipschitz_constant <- lipschitz (ndim input_img) ;;
  let negated_output := amap Ropp input_img in
  let negated_output_old :=
    if bounded p then Some negated_output else None in
  Ok (input_img, lipschitz_constant,
      mkstate grad_im grad_aux 1 0 negated_output negated_output_old None 0).

(** The check of convergence, made when [i % check_gap_frequency == 0];
    the boolean tells that the loop is left by [break]. *)
Definition fista_check (p : params) (input_img gap negated_output : array)
  (old : option array) : result (option array * bool) :=
  if bounded p then
    old' <- lookup "negated_output_old" old ;;
    d <- binop Rminus old' negated_output ;;
    diff <- np_max (amap Rabs d) ;;
    m <- np_max (amap Rabs negated_output) ;;
    let diff := xdiv diff m in
    if xlt diff (eps p) then Ok (old, true)
    else Ok (Some negated_output, false)
  else
    dgap <- dual_gap input_img (amap Ropp negated_output) gap (weight p) ;;
    if xlt dgap (eps p) then Ok (old, true) else Ok (old, false).

(** The first three statements of the body of the loop: the step of the
    gradient ascent, which gives the new value of [grad_aux].  The
    division [1. / (lipschitz_constant * weight)] is one of Python's
    numbers, and raises [ZeroDivisionError] when the divisor is zero. *)
Definition fista_ascent (p : params) (lipschitz_constant : R) (st : state)
  : result array :=
  grad_tmp <- gradient 0 Rminus (negated_output st) ;;
  if Req_dec_T (lipschitz_constant * weight p) 0
  then Raise ZeroDivisionError
  else
    let grad_tmp :=
      amap (fun x => x * (1 / (lipschitz_constant * weight p))) grad_tmp in
    iop Rplus (grad_aux st) [] grad_tmp.

(** The body of the loop, up to the increment of [i]. *)
Definition fista_body (p : params) (input_img : array)
  (lipschitz_constant : R) (st : state) : result (state * bool) :=
  grad_aux <- fista_ascent p lipschitz_constant st ;;
  grad_tmp <- _projector_on_dual grad_aux ;;
  let t_new := 1 / 2 * (1 + sqrt (1 + 4 * t st ^ 2)) in
  let t_factor := (t st - 1) / t_new in
  grad_aux <- binop Rminus (amap (Rmult (1 + t_factor)) grad_tmp)
                (amap (Rmult t_factor) (grad_im st)) ;;
  let grad_im := grad_tmp in
  let t := t_new in
  dv <- div grad_im ;;
  let gap := amap (Rmult (weight p)) dv in
  negated_output <- binop Rminus gap input_img ;;
  let negated_output :=
    if bounded p
    then clip (option_map Ropp (val_max p)) (option_map Ropp (val_min p))
           negated_output
    else negated_output in
  let st' := mkstate grad_im grad_aux t (i st) negated_output
               (negated_output_old st) (Some gap) (S (iters st)) in
  if (check_gap_frequency p =? 0)%Z then Raise ZeroDivisionError
  else if (i st mod check_gap_frequency p =? 0)%Z then
    r <- fista_check p input_img gap negated_output (negated_output_old st) ;;
    let '(old, brk) := r in
    Ok (mkstate grad_im grad_aux t (i st) negated_output old (Some gap)
          (S (iters st)), brk)
  else Ok (st', false).

(** [while i < n_iter_max: ...; i += 1].  The recursion is on [fuel], which
    [tv_denoise_fista] takes large enough for the loop to end by its own
    test. *)
Fixpoint fista_while (fuel : nat) (p : params) (input_img : array)
  (lipschitz_constant : R) (st : state) : result state :=
  match fuel with
  | O => Ok st
  | S fuel' =>
      if (i st <? n_iter_max p)%Z then
        r <- fista_body p input_img lipschitz_constant st ;;
        let '(st', brk) := r in
        if brk then Ok st'
        else
          fista_while fuel' p input_img lipschitz_constant
            (mkstate (grad_im st') (grad_aux st') (t st') (i st' + 1)%Z
               (negated_output st') (negated_output_old st') (gap st')
               (iters st'))
      else Ok st
  end.

(** What follows the loop. *)
Definition fista_output (p : params) (input_img : array) (st : state)
  : result array :=
  gap <- lookup "gap" (gap st) ;;
  output <- binop Rminus input_img gap ;;
  if bounded p
  then Ok (clip (option_map Ropp (option_map Ropp (val_min p)))
             (option_map Ropp (option_map Ropp (val_max p))) output)
  else Ok output.

Definition fista_run (p : params) (im : array) : result (array * state) :=
  r <- fista_init p im ;;
  let '(input_img, lipschitz_constant, st) := r in
  st <- fista_while (Z.to_nat (n_iter_max p)) p input_img
          lipschitz_constant st ;;
  output <- fista_output p input_img st ;;
  Ok (output, st).

Definition tv_denoise_fista (p : params) (im : array) : result array :=
  r <- fista_run p im ;;
  Ok (fst r).

(** ** An axis seen from the buffer

    For an axis [d] of an array of shape [s], the buffer is [outer d s]
    blocks of [nth d s 0 * inner d s] elements; inside a block the elements
    whose index on the axis is [i] are the [inner d s] elements from
    [i * inner d s]. *)

Definition outer (d : nat) (s : list nat) : nat := size (firstn d s).
Definition inner (d : nat) (s : list nat) : nat := size (skipn (S d) s).
Definition block (d : nat) (s : list nat) : nat := (nth d s 0 * inner d s)%nat.

Definition fulls (s : list nat) : list sel := map (fun n => Rng 0 n) s.

(** The selection of [x] on the axis [d], whole axes elsewhere. *)
Definition axis_sel (d : nat) (s : list nat) (x : sel) : list sel :=
  fulls (firstn d s) ++ x :: fulls (skipn (S d) s).

Definition axis_take {A} (w lo len : nat) (b : list A) : list A :=
  firstn (len * w) (skipn (lo * w) b).

Definition axis_put {A} (w lo len : nat) (b v : list A) : list A :=
  firstn (lo * w) b ++ v ++ skipn ((lo + len) * w) b.

(** The differences along an axis inside one block of width [w]: element
    [k] is [b[k + w] - b[k]]. *)
Definition diff_block {A} (sub : A -> A -> A) (w : nat) (b : list A) : list A :=
  map2 sub (skipn w b) b.

Section GradientBlocks.

Variable A : Type.
Variable zero : A.
Variable sub : A -> A -> A.

(** One block of a component of the gradient: the differences, then
    zeros for the last index of the axis ([n] is the length of the axis,
    [w] the width of the block). *)
Definition grad_block (w n : nat) (b : list A) : list A :=
  diff_block sub w b ++ repeat zero (n * w - (n - 1) * w).

(** The component [d] of the gradient of [img], block by block. *)
Definition grad_comp (img : ndarray A) (d : nat) : list A :=
  concat (map (grad_block (inner d (shape img)) (nth d (shape img) 0%nat))
            (chunks (block d (shape img)) (outer d (shape img))
               (data img))).

(** The array and the index list of [gradient] after [j] turns of its
    loop. *)
Definition grad_state (img : ndarray A) (j : nat)
  : ndarray A * list index :=
  (mkarray (dtype_of img) (ndim img :: shape img)
     (concat (map (grad_comp img) (seq 0 j)
                ++ repeat (repeat zero (size (shape img))) (ndim img - j))),
   Int (Z.of_nat j) :: repeat (Slice None None) j
     ++ [Slice None (Some (-1)%Z)]).

End GradientBlocks.

(** What one turn of the loop of [div] does to a block [rb] of [res], given
    the block [gb] of the component of [grad] at the same place: its three
    updates, one after the other. *)
Definition div_block (w n : nat) (rb gb : list R) : list R :=
  let r1 :=
    axis_put w 0 (n - 1) rb
      (map2 Rplus (axis_take w 0 (n - 1) rb) (axis_take w 0 (n - 1) gb)) in
  let r2 :=
    axis_put w 1 (n - 2) r1
      (map2 Rminus (axis_take w 1 (n - 2) r1) (axis_take w 0 (n - 2) gb)) in
  axis_put w (n - 1) 1 r2
    (map2 Rminus (axis_take w (n - 1) 1 r2) (axis_take w (n - 2) 1 gb)).

(** The buffer of [res] after [j] turns of the loop of [div]; [comps] are
    the components of [grad]. *)
Fixpoint div_data (s : list nat) (comps : list (list R)) (j : nat) : list R :=
  match j with
  | O => repeat 0 (size s)
  | S j' =>
      concat (map2 (div_block (inner j' s) (nth j' s 0%nat))
                (chunks (block j' s) (outer j' s) (div_data s comps j'))
                (chunks (block j' s) (outer j' s) (nth j' comps [])))
  end.

(** [np.sum(a * b)] on the buffers. *)
Definition dot (l l' : list R) : R := fold_right Rplus 0 (map2 Rmult l l').

(** [np.sum(a * b)] for two arrays. *)
Definition sum_prod (a b : array) : result R :=
  p <- binop Rmult a b ;;
  Ok (np_sum p).

(** Every axis has at least two elements. *)
Definition axes_ge2 (s : list nat) : Prop := Forall (fun n => (2 <= n)%nat) s.

(** ** Elements by their indices *)

(** The position in the buffer of the element of index [idx] in an array of
    shape [s]. *)
Fixpoint ravel (s idx : list nat) : nat :=
  match s, idx with
  | _ :: s', i :: idx' => (i * size s' + ravel s' idx')%nat
  | _, _ => O
  end.

(** [idx] is the index of an element of an array of shape [s]. *)
Definition in_range (s idx : list nat) : Prop := Forall2 lt idx s.

(** [a[idx]] for a full index. *)
Definition item {A} (dflt : A) (a : ndarray A) (idx : list nat) : A :=
  nth (ravel (shape a) idx) (data a) dflt.

(** The index one step further on the axis [d]. *)
Fixpoint bump (d : nat) (idx : list nat) : list nat :=
  match d, idx with
  | O, i :: r => S i :: r
  | S d', i :: r => i :: bump d' r
  | _, [] => []
  end.

(** All the indices of an array of shape [s], in the order of the buffer. *)
Fixpoint grid (s : list nat) : list (list nat) :=
  match s with
  | [] => [[]]
  | n :: s' => flat_map (fun i => map (cons i) (grid s')) (seq 0 n)
  end.

(** The forward difference of [c] on the axis [k] at [idx], zero at the last
    index of the axis. *)
Definition fwd_diff (c : array) (k : nat) (idx : list nat) : R :=
  if (S (nth k idx O) <? nth k (shape c) O)%nat
  then item 0 c (bump k idx) - item 0 c idx
  else 0.

(** The isotropic total variation as the specification words it: the sum
    over the grid points of the Euclidean norm of the forward differences. *)
Definition TV (c : array) : R :=
  fold_right Rplus 0
    (map (fun idx =>
            sqrt (fold_right Rplus 0
                    (map (fun k => fwd_diff c k idx ^ 2) (seq 0 (ndim c)))))
       (grid (shape c))).

(** The squared norm of an array as the specification words it: the sum
    over the grid points of the square of the element there. *)
Definition sqnorm (a : array) : R :=
  fold_right Rplus 0 (map (fun idx => item 0 a idx ^ 2) (grid (shape a))).

(** The Euclidean norm across the components of the field [f] at the grid
    point [idx]. *)
Definition point_norm (f : array) (idx : list nat) : R :=
  sqrt (fold_right Rplus 0
          (map (fun k => item 0 f (k :: idx) ^ 2)
             (seq 0 (hd O (shape f))))).

(** The rows of the field after [j] turns of the loop of
    [_projector_on_dual]. *)
Definition proj_rows (nrm : list R) (rows : list (list R)) (j : nat)
  : list (list R) :=
  map (fun row => map2 Rdiv row nrm) (firstn j rows) ++ skipn j rows.

(** The sum of the squares of the [c] components, [sz] elements each, of the
    buffer [l] at the position [p] of the grid. *)
Definition sumsq_at (l : list R) (c sz p : nat) : R :=
  fold_right Rplus 0 (map (fun k => nth (k * sz + p) l 0 ^ 2) (seq 0 c)).

(** [raises_only P r]: if [r] is an exception, it satisfies [P]. *)
Definition raises_only {A} (P : exn -> Prop) (r : result A) : Prop :=
  match r with
  | Ok _ => True
  | Raise e => P e
  end.

(** The exceptions other than the one for an image that is not 2D or 3D. *)
Definition other_error (e : exn) : Prop := e <> ValueError unsupported.


(** A state of the loop and arguments at which the ascent step is looked
    at: the first turn of the loop for the image [[1, 0], [0, 0]]. *)
Definition cx_params : params := mkparams 1 (5 / 100000) 200 3 None None.

Definition cx_state : state :=
  mkstate (np_zeros 0 [2; 2; 2]%nat float64)
    (np_zeros 0 [2; 2; 2]%nat float64) 1 0
    (mkarray float64 [2; 2]%nat [-1; 0; 0; 0]) None None 0.

(** An image with a single row, and a field of its shape. *)
Definition row_image : array := mkarray float64 [1; 2]%nat [1; 2].
Definition row_field : array := mkarray float64 [2; 1; 2]%nat [0; 0; 0; 0].

(** Arguments of [dual_gap] that are not an iterate of the solver: an
    original image; a candidate and gap field that is zero; a candidate
    and a gap field that are not. *)
Definition gap_im : array := mkarray float64 [2; 2]%nat [1; 0; 0; 0].
Definition gap_zero : array := mkarray float64 [2; 2]%nat [0; 0; 0; 0].
Definition gap_cand : array := mkarray float64 [2; 2]%nat [0; 3; 4; 0].
Definition gap_field : array := mkarray float64 [2; 2]%nat [1; 1; 0; 0].

(** What holds of the variables of the loop at the head of each turn, for
    an image of shape [s]. *)
Definition loop_inv (p : params) (s : list nat) (st : state) : Prop :=
  wf (negated_output st) /\ shape (negated_output st) = s
  /\ wf (grad_aux st) /\ shape (grad_aux st) = length s :: s
  /\ wf (grad_im st) /\ shape (grad_im st) = length s :: s
  /\ (bounded p = true ->
      exists o, negated_output_old st = Some o /\ shape o = s /\ wf o)
  /\ (forall g, gap st = Some g -> shape g = s /\ wf g).

(** The sum of a list of real numbers. *)
Definition Rsum (l : list R) : R := fold_right Rplus 0 l.

(** Small inputs at which the theorems below are instantiated. *)
Definition img22 : array := mkarray float64 [2; 2]%nat [1; 2; 4; 8].
Definition vec34 : array := mkarray float64 [2; 1; 1]%nat [3; 4].
Definition no_iter_params : params :=
  mkparams 1 (5 / 100000) 0 3 None None.

(** ** The divergence by indices, and the loop in parts *)

(** The index one step back on the axis [d]. *)
Fixpoint unbump (d : nat) (idx : list nat) : list nat :=
  match d, idx with
  | O, i :: r => pred i :: r
  | S d', i :: r => i :: unbump d' r
  | _, [] => []
  end.

(** What the turn of the loop of [div] on the axis [k] leaves at [idx]:
    the component [k] of the field there, unless [idx] is at the last
    index of the axis, minus that component one step back, unless [idx]
    is at the first index of the axis. *)
Definition bwd_diff (f : array) (k : nat) (idx : list nat) : R :=
  (if (S (nth k idx O) <? nth k (tl (shape f)) O)%nat
   then item 0 f (k :: idx) else 0)
  - (if (1 <=? nth k idx O)%nat
     then item 0 f (k :: unbump k idx) else 0).

(** The body of the loop of [tv_denoise_fista] from the assignment of
    [gap] on, given the projected field [grad_tmp], the new value of
    [grad_aux] and the divergence [dv] of the projected field. *)
Definition fista_body_end (p : params) (input_img : array) (st : state)
  (grad_tmp grad_aux' dv : array) : result (state * bool) :=
  let t_new := 1 / 2 * (1 + sqrt (1 + 4 * t st ^ 2)) in
  let gap := amap (Rmult (weight p)) dv in
  negated_output <- binop Rminus gap input_img ;;
  let negated_output :=
    if bounded p
    then clip (option_map Ropp (val_max p)) (option_map Ropp (val_min p))
           negated_output
    else negated_output in
  if (check_gap_frequency p =? 0)%Z then Raise ZeroDivisionError
  else if (i st mod check_gap_frequency p =? 0)%Z then
    r <- fista_check p input_img gap negated_output (negated_output_old st) ;;
    let '(old, brk) := r in
    Ok (mkstate grad_tmp grad_aux' t_new (i st) negated_output old (Some gap)
          (S (iters st)), brk)
  else
    Ok (mkstate grad_tmp grad_aux' t_new (i st) negated_output
          (negated_output_old st) (Some gap) (S (iters st)), false).

(** The image as [tv_denoise_fista] computes with it: converted to
    floats unless it holds floats already. *)
Definition as_float (im : array) : array :=
  if Ascii.eqb (kind (dtype_of im)) "f" then im else astype_float im.

(** The variables of the loop when it is reached. *)
Definition fista_start (p : params) (im : array) : state :=
  let input_img :=
    if Ascii.eqb (kind (dtype_of im)) "f" then im else astype_float im in
  mkstate (np_zeros 0 (ndim im :: shape im) float64)
    (np_zeros 0 (ndim im :: shape im) float64)
    1 0 (amap Ropp input_img)
    (if bounded p then Some (amap Ropp input_img) else None)
    None 0.

(** [g] is [weight] times the divergence of the field [prj], which has
    the shape of the gradient of an image of shape [s] and a norm of at
    most 1 at every grid point. *)
Definition dual_form (p : params) (s : list nat) (prj g : array) : Prop :=
  exists dv,
    wf prj /\ shape prj = length s :: s
    /\ (forall idx, in_range s idx -> point_norm prj idx <= 1)
    /\ div prj = Ok dv
    /\ g = amap (Rmult (weight p)) dv.

(** ** The test of the repository *)

(** What running a test gives: it passes, an assertion fails, or another
    exception is raised. *)
Inductive outcome : Type :=
  | Passed
  | AssertionError
  | Error (e : exn).

(** [np.testing.assert_almost_equal(actual, desired)] with its default of
    7 decimals, which passes when
    [abs(desired - actual) < 1.5 * 10 ** (-7)]. *)
Definition assert_almost_equal (actual desired : R) : outcome :=
  if Rlt_dec (Rabs (desired - actual)) (1.5 * / 10 ^ 7)
  then Passed else AssertionError.

(** [test_grad_div_adjoint], as a function of the two arrays [x] and [y]
    that it draws, of shapes [(size, size, size)] and
    [(3, size, size, size)]. *)
Definition test_grad_div_adjoint (x y : array) : outcome :=
  match
    (gx <- gradient 0 Rminus x ;;
     a <- sum_prod gx y ;;
     dy <- div y ;;
     b <- sum_prod x dy ;;
     Ok (a, - b))
  with
  | Ok (actual, desired) => assert_almost_equal actual desired
  | Raise e => Error e
  end.

(** The variables of the loop as they are for a constant image: the two
    fields are zero, [negated_output] is the negated image, and [gap],
    once it is assigned, is zero. *)
Definition flat_state (input_img : array) (st : state) : Prop :=
  Forall (eq 0) (data (grad_aux st)) /\ Forall (eq 0) (data (grad_im st))
  /\ data (negated_output st) = map Ropp (data input_img)
  /\ (forall g, gap st = Some g -> Forall (eq 0) (data g)).

(** More small inputs: arrays of rank 1 and 0, fields for an image of
    shape [(2, 2)] (the first one in the dual ball) and of shape
    [(2, 2, 2)], a constant image, an image of integers, and arguments
    with a frequency of the checks of zero. *)
Definition vec2 : array := mkarray float64 [2]%nat [1; 2].
Definition scalar0 : array := mkarray float64 []%nat [7].
Definition unit_field : array :=
  mkarray float64 [2; 2; 2]%nat [1; 0; 0; 0; 0; 0; 0; 0].
Definition field22 : array :=
  mkarray float64 [2; 2; 2]%nat [1; 2; 3; 4; 5; 6; 7; 8].
Definition field3 : array :=
  mkarray float64 [3; 2; 2; 2]%nat
    [1; 0; 2; 0; 0; 3; 0; 1; 0; 1; 0; 2; 1; 0; 0; 0; 2; 0; 1; 0; 0; 0; 1; 3].
Definition ones22 : array := mkarray float64 [2; 2]%nat [1; 1; 1; 1].
Definition int_image : array :=
  mkarray {| kind := "i"%char; itemsize := 8 |} [2; 2]%nat [1; 0; 0; 0].
Definition zero_freq_params : params :=
  mkparams 1 (5 / 100000) 200 0 None None.

(** The arguments and the variables of the loop for an image multiplied
    by [c]: the weight and the bounds are multiplied by [c], and so are
    the primal variables of the loop; the dual fields are the same. *)
Definition scale_params (c : R) (p : params) : params :=
  mkparams (c * weight p) (eps p) (n_iter_max p) (check_gap_frequency p)
    (option_map (Rmult c) (val_min p)) (option_map (Rmult c) (val_max p)).

Definition scale_state (c : R) (st : state) : state :=
  mkstate (grad_im st) (grad_aux st) (t st) (i st)
    (amap (Rmult c) (negated_output st))
    (option_map (amap (Rmult c)) (negated_output_old st))
    (option_map (amap (Rmult c)) (gap st)) (iters st).

(** * Properties *)

Close Scope R_scope.

(** ** Lists cut into chunks *)

Section Chunks.

Variable A : Type.
Implicit Types l : list A.

Lemma chunks_length k c l : length (chunks k c l) = c.
Proof.
  revert l; induction c as [|c IH]; intros l; simpl; [reflexivity|].
  now rewrite IH.
Qed.

Lemma chunks_concat k c l :
  length l = (c * k)%nat -> concat (chunks k c l) = l.
Proof.
  revert l; induction c as [|c IH]; intros l H; simpl in *.
  - symmetry; now apply length_zero_iff_nil.
  - rewrite IH.
    + apply firstn_skipn.
    + rewrite length_skipn; lia.
Qed.

Lemma chunks_all_length k c l :
  length l = (c * k)%nat -> Forall (fun b => length b = k) (chunks k c l).
Proof.
  revert l; induction c as [|c IH]; intros l H; simpl in *; constructor.
  - rewrite length_firstn; lia.
  - apply IH; rewrite length_skipn; lia.
Qed.

Lemma chunks_app k c1 c2 l :
  chunks k (c1 + c2) l = chunks k c1 l ++ chunks k c2 (skipn (c1 * k) l).
Proof.
  revert l; induction c1 as [|c1 IH]; intros l; simpl; [reflexivity|].
  rewrite IH, skipn_skipn.
  now replace (c1 * k + k)%nat with (k + c1 * k)%nat by lia.
Qed.

Lemma chunks_of_concat k (bs : list (list A)) :
  Forall (fun b => length b = k) bs -> chunks k (length bs) (concat bs) = bs.
Proof.
  induction 1 as [|b bs Hb _ IH]; simpl; [reflexivity|].
  rewrite firstn_app, skipn_app, Hb, Nat.sub_diag; simpl.
  rewrite firstn_all2, skipn_all2 by lia; simpl.
  now rewrite app_nil_r, IH.
Qed.

Lemma chunks_firstn k c c' l :
  (c <= c')%nat -> firstn c (chunks k c' l) = chunks k c l.
Proof.
  revert c' l; induction c as [|c IH]; intros c' l H; [reflexivity|].
  destruct c' as [|c']; [lia|]; simpl.
  now rewrite IH by lia.
Qed.

Lemma chunks_skipn k c c' l :
  skipn c (chunks k (c + c') l) = chunks k c' (skipn (c * k) l).
Proof.
  rewrite chunks_app, skipn_app, chunks_length, Nat.sub_diag; simpl.
  rewrite skipn_all2; [reflexivity|]. rewrite chunks_length; lia.
Qed.

Lemma firstn_add (a b : nat) l :
  firstn (a + b) l = firstn a l ++ firstn b (skipn a l).
Proof.
  rewrite firstn_skipn_comm.
  rewrite <- (firstn_skipn a (firstn (a + b) l)) at 1.
  rewrite firstn_firstn. now replace (Nat.min a (a + b)) with a by lia.
Qed.

Lemma chunks_concat_firstn k c l :
  concat (chunks k c l) = firstn (c * k) l.
Proof.
  revert l; induction c as [|c IH]; intros l; simpl; [reflexivity|].
  now rewrite IH, firstn_add.
Qed.

(** The chunks [lo .. lo+len) of [l], put together, are a segment of
    [l]. *)
Lemma chunks_range k c lo len l :
  (lo + len <= c)%nat ->
  concat (firstn len (skipn lo (chunks k c l)))
  = firstn (len * k) (skipn (lo * k) l).
Proof.
  intros Hle.
  replace c with (lo + (c - lo))%nat by lia.
  rewrite chunks_skipn, chunks_firstn by lia.
  apply chunks_concat_firstn.
Qed.

Lemma chunks_of_firstn k c m l :
  (c * k <= m)%nat -> chunks k c (firstn m l) = chunks k c l.
Proof.
  revert m l; induction c as [|c IH]; intros m l H; simpl in *; [reflexivity|].
  rewrite firstn_firstn, skipn_firstn_comm, IH by lia.
  now replace (Nat.min k m) with k by lia.
Qed.

(** Cutting the chunks of [l] again gives smaller chunks of [l]. *)
Lemma chunks_chunks k a b l :
  concat (map (chunks k b) (chunks (b * k) a l)) = chunks k (a * b) l.
Proof.
  revert l; induction a as [|a IH]; intros l; simpl; [reflexivity|].
  now rewrite chunks_app, IH, chunks_of_firstn.
Qed.

End Chunks.

Lemma map2_app (A B C : Type) (f : A -> B -> C) (l1 l2 : list A)
  (l1' l2' : list B) :
  length l1 = length l1' ->
  map2 f (l1 ++ l2) (l1' ++ l2') = map2 f l1 l1' ++ map2 f l2 l2'.
Proof.
  revert l1'; induction l1 as [|x l1 IH]; intros [|y l1'] H; simpl in *;
    try discriminate; [reflexivity|].
  f_equal. apply IH. lia.
Qed.

Lemma map2_length (A B C : Type) (f : A -> B -> C) (l : list A) (l' : list B) :
  length (map2 f l l') = Nat.min (length l) (length l').
Proof.
  revert l'; induction l as [|x l IH]; intros [|y l']; simpl; auto.
Qed.

Lemma map2_map (A A' B B' C : Type) (f : A' -> B' -> C) (a : A -> A')
  (b : B -> B') (l : list A) (l' : list B) :
  map2 f (map a l) (map b l') = map2 (fun x y => f (a x) (b y)) l l'.
Proof.
  revert l'; induction l as [|x l IH]; intros [|y l']; simpl; auto.
  now rewrite IH.
Qed.

Lemma map2_firstn_r (A B C : Type) (f : A -> B -> C) (m : nat) (l : list A)
  (l' : list B) :
  (length l <= m)%nat -> map2 f l (firstn m l') = map2 f l l'.
Proof.
  revert m l'; induction l as [|x l IH]; intros m l' H; [reflexivity|].
  destruct m as [|m]; simpl in H; [lia|].
  destruct l' as [|y l']; simpl; [reflexivity|].
  f_equal. apply IH. lia.
Qed.

Lemma map2_concat (A B C : Type) (f : A -> B -> C) (k : nat)
  (X : list (list A)) (Y : list (list B)) :
  Forall (fun x => length x = k) X -> Forall (fun y => length y = k) Y ->
  map2 f (concat X) (concat Y) = concat (map2 (map2 f) X Y).
Proof.
  intros HX; revert Y; induction HX as [|x X Hx _ IH]; intros Y HY;
    [reflexivity|].
  destruct HY as [|y Y Hy HY]; simpl.
  - now destruct (x ++ concat X).
  - rewrite map2_app by congruence. f_equal. now apply IH.
Qed.

Lemma map2_diag (A B C D : Type) (f : B -> C -> D) (g : A -> B) (h : A -> C)
  (l : list A) :
  map2 f (map g l) (map h l) = map (fun x => f (g x) (h x)) l.
Proof. induction l; simpl; congruence. Qed.

Lemma Forall_map_len (A B : Type) (f : A -> list B) (P : A -> Prop) (k : nat)
  (l : list A) :
  Forall P l -> (forall x, P x -> length (f x) = k) ->
  Forall (fun y => length y = k) (map f l).
Proof.
  intros H Hf; induction H; simpl; constructor; auto.
Qed.

Lemma skipn_repeat (A : Type) (x : A) (k m : nat) :
  skipn k (repeat x m) = repeat x (m - k).
Proof.
  revert m; induction k as [|k IH]; intros [|m]; simpl; auto.
Qed.

Lemma firstn_repeat (A : Type) (x : A) (k m : nat) :
  firstn k (repeat x m) = repeat x (Nat.min k m).
Proof.
  revert m; induction k as [|k IH]; intros [|m]; simpl; auto.
  now rewrite IH.
Qed.

Lemma chunks_repeat (A : Type) (x : A) (k c : nat) :
  chunks k c (repeat x (c * k)) = repeat (repeat x k) c.
Proof.
  induction c as [|c IH]; simpl; [reflexivity|].
  rewrite firstn_repeat, skipn_repeat.
  replace (Nat.min k (k + c * k)) with k by lia.
  replace (k + c * k - k)%nat with (c * k)%nat by lia.
  now rewrite IH.
Qed.

Lemma concat_repeat (A : Type) (x : A) (k c : nat) :
  concat (repeat (repeat x k) c) = repeat x (c * k).
Proof.
  induction c as [|c IH]; simpl; [reflexivity|].
  now rewrite IH, repeat_app.
Qed.

Lemma map2_repeat_l (A B C : Type) (f : A -> B -> C) (x : A) (l : list B) :
  map2 f (repeat x (length l)) l = map (f x) l.
Proof. induction l; simpl; congruence. Qed.

Lemma length_concat_uniform (A : Type) (k : nat) (X : list (list A)) :
  Forall (fun x => length x = k) X -> length (concat X) = (length X * k)%nat.
Proof.
  induction 1 as [|x X Hx _ IH]; simpl; [reflexivity|].
  rewrite length_app, IH. lia.
Qed.

Lemma map2_map2_r (A B C D : Type) (h : A -> C -> D) (k : A -> B -> C)
  (l : list A) (l' : list B) :
  map2 h l (map2 k l l') = map2 (fun x y => h x (k x y)) l l'.
Proof.
  revert l'; induction l as [|x l IH]; intros [|y l']; simpl; auto.
  now rewrite IH.
Qed.

Lemma map2_map2_l (A B C D : Type) (h : C -> B -> D) (k : A -> B -> C)
  (l : list A) (l' : list B) :
  map2 h (map2 k l l') l' = map2 (fun x y => h (k x y) y) l l'.
Proof.
  revert l'; induction l as [|x l IH]; intros [|y l']; simpl; auto.
  now rewrite IH.
Qed.

Lemma firstn1_skipn (A : Type) (k : nat) (X : list A) (d : A) :
  k < length X -> firstn 1 (skipn k X) = [nth k X d].
Proof.
  revert X; induction k as [|k IH]; intros [|x X] H; simpl in *; try lia.
  - reflexivity.
  - apply IH. lia.
Qed.

Lemma Forall2_map2 (A B C : Type) (f : A -> B -> C) (P : A -> Prop)
  (Q : B -> Prop) (R : C -> Prop) (l : list A) (l' : list B) :
  Forall P l -> Forall Q l' -> (forall x y, P x -> Q y -> R (f x y)) ->
  Forall R (map2 f l l').
Proof.
  intros HP; revert l'; induction HP as [|x l Hx _ IH]; intros l' HQ Hf;
    [constructor|].
  destruct HQ as [|y l' Hy HQ]; simpl; constructor; auto.
Qed.

(** ** Indexing along one axis *)

Section Indexing.

Variable A : Type.
Implicit Types l dst src : list A.

Lemma Forall_firstn (P : list A -> Prop) n (bs : list (list A)) :
  Forall P bs -> Forall P (firstn n bs).
Proof.
  intros H; revert n; induction H; intros [|n]; simpl; auto.
Qed.

Lemma Forall_skipn (P : list A -> Prop) n (bs : list (list A)) :
  Forall P bs -> Forall P (skipn n bs).
Proof.
  intros H; revert n; induction H; intros [|n]; simpl; auto.
Qed.

Lemma map_fix (f : list A -> list A) (P : list A -> Prop) bs :
  Forall P bs -> (forall b, P b -> f b = b) -> map f bs = bs.
Proof.
  intros H Hf; induction H; simpl; [reflexivity|].
  now rewrite Hf, IHForall.
Qed.

Lemma size_app s s' : size (s ++ s') = (size s * size s')%nat.
Proof.
  induction s as [|n s IH]; simpl; [lia|]. rewrite IH; lia.
Qed.

Lemma outer_S d n s : outer (S d) (n :: s) = (n * outer d s)%nat.
Proof. reflexivity. Qed.

Lemma inner_S d n s : inner (S d) (n :: s) = inner d s.
Proof. reflexivity. Qed.

Lemma block_S d n s : block (S d) (n :: s) = block d s.
Proof. reflexivity. Qed.

Lemma outer_0 s : outer 0 s = 1%nat.
Proof. reflexivity. Qed.

Lemma block_0 n s : block 0 (n :: s) = (n * size s)%nat.
Proof. reflexivity. Qed.

Lemma size_split d s :
  (d < length s)%nat -> size s = (outer d s * block d s)%nat.
Proof.
  revert s; induction d as [|d IH]; intros [|n s] H; simpl in H; try lia.
  - rewrite outer_0, block_0; simpl; lia.
  - rewrite outer_S, block_S. change (size (n :: s)) with (n * size s)%nat.
    rewrite (IH s) by lia. nia.
Qed.

Lemma take_fulls s l : length l = size s -> take s (fulls s) l = l.
Proof.
  revert l; induction s as [|n s IH]; intros l H; simpl in *; [reflexivity|].
  rewrite <- (chunks_length (size s) n l) at 1. rewrite firstn_all.
  rewrite map_fix with (P := fun b => length b = size s).
  - apply chunks_concat; lia.
  - apply chunks_all_length; lia.
  - intros b Hb; now apply IH.
Qed.

Lemma sel_shape_fulls s : sel_shape (fulls s) = s.
Proof. induction s; simpl; congruence. Qed.

Lemma map2_fix (f : list A -> list A -> list A) (bs vs : list (list A)) :
  length bs = length vs -> (forall b v, In v vs -> f b v = v) ->
  map2 f bs vs = vs.
Proof.
  revert vs; induction bs as [|b bs IH]; intros [|v vs] H Hf; simpl in *;
    try discriminate; [reflexivity|].
  rewrite Hf by auto. f_equal. apply IH; auto.
Qed.

Lemma put_fulls s dst src :
  length src = size s -> put s (fulls s) dst src = src.
Proof.
  revert dst src; induction s as [|n s IH]; intros dst src H; simpl in *;
    [reflexivity|].
  rewrite sel_shape_fulls.
  rewrite firstn_all2, skipn_all2 by (rewrite chunks_length; lia).
  rewrite app_nil_r, map2_fix.
  - apply chunks_concat; lia.
  - now rewrite !chunks_length.
  - intros b v Hv. apply IH.
    pose proof (chunks_all_length (size s) n src) as HF.
    rewrite Forall_forall in HF. apply HF; [lia|assumption].
Qed.

Lemma concat_map_concat (B : Type) (f : list A -> list B)
  (X : list (list (list A))) :
  concat (map f (concat X)) = concat (map (fun c => concat (map f c)) X).
Proof.
  induction X as [|x X IH]; simpl; [reflexivity|].
  now rewrite map_app, concat_app, IH.
Qed.

Lemma take_axis_0 n s sl l :
  take (n :: s) (axis_sel 0 (n :: s) sl) l
  = take (n :: s) (sl :: fulls s) l.
Proof. reflexivity. Qed.

Lemma take_axis_S d n s sl l :
  take (n :: s) (axis_sel (S d) (n :: s) sl) l
  = concat (map (take s (axis_sel d s sl)) (chunks (size s) n l)).
Proof.
  unfold axis_sel. cbn [firstn skipn fulls map app take].
  now rewrite (firstn_all2 (chunks (size s) n l)) by (rewrite chunks_length; lia).
Qed.

(** Reading a range of an axis takes the same segment out of every
    block. *)
Lemma take_axis d s l lo len :
  (d < length s)%nat -> length l = size s -> (lo + len <= nth d s 0)%nat ->
  take s (axis_sel d s (Rng lo len)) l
  = concat (map (axis_take (inner d s) lo len)
              (chunks (block d s) (outer d s) l)).
Proof.
  revert s l; induction d as [|d IH]; intros [|n s] l Hd Hl Hle;
    simpl in Hd; try lia.
  - rewrite take_axis_0, outer_0, block_0. cbn [take chunks map concat].
    rewrite map_fix with (P := fun b => length b = size s).
    + rewrite chunks_range by exact Hle.
      rewrite app_nil_r, (firstn_all2 (n := (n * size s)%nat)); [reflexivity|].
      simpl in Hl; lia.
    + apply Forall_firstn, Forall_skipn, chunks_all_length. exact Hl.
    + intros b Hb; now apply take_fulls.
  - rewrite take_axis_S, outer_S, block_S, inner_S.
    rewrite <- chunks_chunks, concat_map_concat.
    rewrite <- size_split by lia.
    rewrite map_map. f_equal. apply map_ext_Forall.
    eapply Forall_impl; [|apply chunks_all_length; exact Hl].
    intros b Hb. apply IH; [lia|exact Hb|exact Hle].
Qed.

Lemma map2_ext_Forall (f g : list A -> list A -> list A)
  (P Q : list A -> Prop) (bs vs : list (list A)) :
  Forall P bs -> Forall Q vs ->
  (forall b v, P b -> Q v -> f b v = g b v) ->
  map2 f bs vs = map2 g bs vs.
Proof.
  intros HP; revert vs; induction HP as [|b bs Hb _ IH]; intros vs HQ Hfg;
    [reflexivity|].
  destruct HQ as [|v vs Hv HQ]; [reflexivity|]. simpl.
  rewrite Hfg by assumption. f_equal. now apply IH.
Qed.

Lemma concat_map2_concat (g : list A -> list A -> list A) (o : nat)
  (X Y : list (list (list A))) :
  Forall (fun x => length x = o) X -> Forall (fun y => length y = o) Y ->
  concat (map2 g (concat X) (concat Y))
  = concat (map2 (fun x y => concat (map2 g x y)) X Y).
Proof.
  intros HX; revert Y; induction HX as [|x X Hx _ IH]; intros Y HY;
    [reflexivity|].
  destruct HY as [|y Y Hy HY]; simpl.
  - now destruct (x ++ concat X).
  - rewrite map2_app, concat_app by congruence. f_equal. now apply IH.
Qed.

Lemma put_axis_0 n s sl dst src :
  put (n :: s) (axis_sel 0 (n :: s) sl) dst src
  = put (n :: s) (sl :: fulls s) dst src.
Proof. reflexivity. Qed.

Lemma put_axis_S d n s sl dst src :
  put (n :: s) (axis_sel (S d) (n :: s) sl) dst src
  = concat (map2 (put s (axis_sel d s sl)) (chunks (size s) n dst)
              (chunks (size (sel_shape (axis_sel d s sl))) n src)).
Proof.
  unfold axis_sel. cbn [firstn skipn fulls map app put Nat.add].
  rewrite (firstn_all2 (chunks (size s) n dst))
    by (rewrite chunks_length; lia).
  rewrite (skipn_all2 (chunks (size s) n dst))
    by (rewrite chunks_length; lia).
  now rewrite app_nil_r.
Qed.

Lemma sel_shape_axis d s lo len :
  (d < length s)%nat ->
  size (sel_shape (axis_sel d s (Rng lo len)))
  = (outer d s * (len * inner d s))%nat.
Proof.
  revert s; induction d as [|d IH]; intros [|n s] H; simpl in H; try lia.
  - unfold axis_sel; cbn [firstn skipn fulls map app sel_shape].
    fold (fulls s). rewrite sel_shape_fulls, outer_0.
    change (inner 0 (n :: s)) with (size s). simpl; lia.
  - unfold axis_sel in *; cbn [firstn skipn fulls map app sel_shape].
    rewrite outer_S, inner_S. change (size (n :: ?x)) with (n * size x)%nat.
    fold (fulls (firstn d s)). fold (fulls (skipn (S d) s)).
    rewrite IH by lia. nia.
Qed.

(** Writing a range of an axis replaces the same segment in every
    block. *)
Lemma put_axis d s dst src lo len :
  (d < length s)%nat -> length dst = size s ->
  length src = (outer d s * (len * inner d s))%nat ->
  (lo + len <= nth d s 0)%nat ->
  put s (axis_sel d s (Rng lo len)) dst src
  = concat (map2 (axis_put (inner d s) lo len)
              (chunks (block d s) (outer d s) dst)
              (chunks (len * inner d s) (outer d s) src)).
Proof.
  revert s dst src; induction d as [|d IH]; intros [|n s] dst src Hd Hl Hs Hle;
    simpl in Hd; try lia.
  - rewrite put_axis_0, outer_0, block_0. rewrite outer_0 in Hs.
    change (inner 0 (n :: s)) with (size s) in *.
    cbn [put chunks map2 concat]. rewrite sel_shape_fulls.
    simpl in Hl, Hle.
    rewrite map2_fix.
    + rewrite !concat_app, chunks_concat by lia.
      assert (E1 : concat (firstn lo (chunks (size s) n dst))
                   = firstn (lo * size s) dst).
      { rewrite chunks_firstn by lia. apply chunks_concat_firstn. }
      assert (E2 : concat (skipn (lo + len) (chunks (size s) n dst))
                   = skipn ((lo + len) * size s) dst).
      { replace n with (lo + len + (n - (lo + len)))%nat at 1 by lia.
        rewrite chunks_skipn, chunks_concat_firstn.
        apply firstn_all2. rewrite length_skipn. nia. }
      rewrite E1, E2, app_nil_r.
      replace (firstn (n * size s) dst) with dst
        by (symmetry; apply firstn_all2; lia).
      replace (firstn (len * size s) src) with src
        by (symmetry; apply firstn_all2; lia).
      reflexivity.
    + rewrite length_firstn, length_skipn, !chunks_length; lia.
    + intros b v Hv. apply put_fulls.
      pose proof (chunks_all_length (size s) len src) as HF.
      rewrite Forall_forall in HF. apply HF; [lia|assumption].
  - rewrite put_axis_S, outer_S, block_S, inner_S.
    rewrite outer_S, inner_S in Hs. simpl in Hle.
    rewrite sel_shape_axis by lia.
    rewrite <- !chunks_chunks.
    rewrite concat_map2_concat with (o := outer d s).
    + rewrite map2_map, <- size_split by lia. f_equal.
      apply map2_ext_Forall
        with (P := fun b => length b = size s)
             (Q := fun v => length v = (outer d s * (len * inner d s))%nat).
      * apply chunks_all_length. exact Hl.
      * apply chunks_all_length. rewrite Hs. nia.
      * intros b v Hb Hv. apply IH; [lia|exact Hb|exact Hv|exact Hle].
    + apply Forall_forall. intros x Hx. apply in_map_iff in Hx.
      destruct Hx as [y [<- _]]. apply chunks_length.
    + apply Forall_forall. intros x Hx. apply in_map_iff in Hx.
      destruct Hx as [y [<- _]]. apply chunks_length.
Qed.

Lemma sel_shape_around p q x :
  sel_shape (fulls p ++ x :: fulls q) = p ++ sel_shape [x] ++ q.
Proof.
  induction p as [|n p IH]; cbn [fulls map app sel_shape].
  - destruct x; cbn [sel_shape app]; fold (fulls q);
      now rewrite sel_shape_fulls.
  - fold (fulls p). fold (fulls q). now rewrite IH.
Qed.

Lemma sel_shape_axis_sel d s lo len :
  sel_shape (axis_sel d s (Rng lo len))
  = firstn d s ++ len :: skipn (S d) s.
Proof. unfold axis_sel. now rewrite sel_shape_around. Qed.

Lemma sel_shape_axis_pt d s k :
  sel_shape (axis_sel d s (Pt k)) = firstn d s ++ skipn (S d) s.
Proof. unfold axis_sel. now rewrite sel_shape_around. Qed.

Lemma resolve_axis_slice d s a b :
  (d < length s)%nat ->
  resolve s (repeat (Slice None None) d ++ [Slice a b])
  = Ok (axis_sel d s (slice_rng a b (nth d s 0%nat))).
Proof.
  revert s; induction d as [|d IH]; intros [|n s] H; simpl in H; try lia.
  - reflexivity.
  - cbn [repeat app resolve]. rewrite IH by lia. cbn [bind nth].
    unfold slice_rng. now rewrite Nat.sub_0_r.
Qed.

Lemma resolve_axis_int d s z :
  (d < length s)%nat ->
  resolve s (repeat (Slice None None) d ++ [Int z])
  = (k <- norm_int z (nth d s 0%nat) ;; Ok (axis_sel d s (Pt k))).
Proof.
  revert s; induction d as [|d IH]; intros [|n s] H; simpl in H; try lia.
  - cbn [repeat app resolve nth]. now destruct (norm_int z n).
  - cbn [repeat app resolve]. rewrite IH by lia. cbn [nth].
    destruct (norm_int z (nth d s 0%nat)); cbn [bind]; [|reflexivity].
    unfold slice_rng. now rewrite Nat.sub_0_r.
Qed.

Lemma slice_butlast n : slice_rng None (Some (-1)%Z) n = Rng 0 (n - 1).
Proof.
  unfold slice_rng, clamp. cbn [Z.ltb Z.compare]. f_equal. lia.
Qed.

Lemma slice_butlast2 n : slice_rng None (Some (-2)%Z) n = Rng 0 (n - 2).
Proof.
  unfold slice_rng, clamp. cbn [Z.ltb Z.compare]. f_equal. lia.
Qed.

Lemma slice_tail n :
  slice_rng (Some 1%Z) None n = Rng (Nat.min 1 n) (n - Nat.min 1 n).
Proof. reflexivity. Qed.

Lemma slice_middle n :
  slice_rng (Some 1%Z) (Some (-1)%Z) n
  = Rng (Nat.min 1 n) (n - 1 - Nat.min 1 n).
Proof.
  unfold slice_rng, clamp. cbn [Z.ltb Z.compare]. f_equal.
  change (Z.to_nat 1) with 1%nat. lia.
Qed.

Lemma promote_idem (d : dtype) : promote d d = d.
Proof.
  unfold promote. rewrite Ascii.eqb_refl, Nat.max_id. now destruct d.
Qed.

(** An operation with an array of floats gives an array of floats. *)
Lemma promote_float (a b : dtype) :
  kind a = "f"%char -> kind (promote a b) = "f"%char.
Proof.
  intros H. unfold promote. rewrite H.
  destruct (Ascii.eqb "f" (kind b)); [reflexivity|].
  change (Ascii.eqb "f" "b") with false. cbv iota.
  destruct (Ascii.eqb (kind b) "b"); [exact H|reflexivity].
Qed.

Lemma shape_eqb_refl s : shape_eqb s s = true.
Proof. unfold shape_eqb. now destruct (list_eq_dec Nat.eq_dec s s). Qed.

Lemma shape_eqb_eq s s' : shape_eqb s s' = true -> s = s'.
Proof.
  unfold shape_eqb. now destruct (list_eq_dec Nat.eq_dec s s').
Qed.

Lemma nth_lt_length d s : nth d s 0%nat <> 0%nat -> (d < length s)%nat.
Proof.
  intros H. destruct (Nat.lt_ge_cases d (length s)) as [|Hge]; [assumption|].
  now rewrite nth_overflow in H.
Qed.

(** [a[:, ..., :, lo:lo+len]], the slice on the axis [d]. *)
Lemma getitem_axis (a : ndarray A) d x y lo len :
  wf a -> (d < ndim a)%nat ->
  slice_rng x y (nth d (shape a) 0%nat) = Rng lo len ->
  (lo + len <= nth d (shape a) 0)%nat ->
  getitem a (repeat (Slice None None) d ++ [Slice x y])
  = Ok (mkarray (dtype_of a)
          (firstn d (shape a) ++ len :: skipn (S d) (shape a))
          (concat (map (axis_take (inner d (shape a)) lo len)
                     (chunks (block d (shape a)) (outer d (shape a))
                        (data a))))).
Proof.
  intros Hwf Hd Hsl Hle. unfold getitem.
  rewrite resolve_axis_slice by exact Hd. rewrite Hsl. cbn [bind].
  now rewrite sel_shape_axis_sel, take_axis.
Qed.

(** An integer index on an axis reads and writes the elements of a
    range of length one. *)
Lemma take_pt_rng d s k l :
  (d < length s)%nat -> length l = size s -> (k < nth d s 0)%nat ->
  take s (axis_sel d s (Pt k)) l = take s (axis_sel d s (Rng k 1)) l.
Proof.
  revert s l; induction d as [|d IH]; intros [|n s] l Hd Hl Hk;
    simpl in Hd; try lia.
  - rewrite !take_axis_0. cbn [take]. simpl in Hk.
    rewrite (firstn1_skipn (chunks (size s) n l) [])
      by (rewrite chunks_length; lia).
    cbn [map concat]. now rewrite app_nil_r.
  - rewrite !take_axis_S. f_equal. apply map_ext_Forall.
    eapply Forall_impl; [|apply chunks_all_length; exact Hl].
    intros b Hb. apply IH; [lia|exact Hb|exact Hk].
Qed.

Lemma sel_size_pt_rng d s k :
  size (sel_shape (axis_sel d s (Pt k)))
  = size (sel_shape (axis_sel d s (Rng k 1))).
Proof.
  rewrite sel_shape_axis_pt, sel_shape_axis_sel, !size_app. simpl. lia.
Qed.

Lemma put_pt_rng d s k dst src :
  (d < length s)%nat -> length dst = size s ->
  length src = (outer d s * (1 * inner d s))%nat -> (k < nth d s 0)%nat ->
  put s (axis_sel d s (Pt k)) dst src
  = put s (axis_sel d s (Rng k 1)) dst src.
Proof.
  revert s dst src; induction d as [|d IH]; intros [|n s] dst src Hd Hl Hs Hk;
    simpl in Hd; try lia.
  - rewrite !put_axis_0. cbn [put]. simpl in Hk.
    rewrite outer_0 in Hs. change (inner 0 (n :: s)) with (size s) in Hs.
    rewrite sel_shape_fulls.
    rewrite (firstn1_skipn (chunks (size s) n dst) [])
      by (rewrite chunks_length; lia).
    cbn [chunks map2]. rewrite (firstn_all2 src) by lia.
    now rewrite Nat.add_1_r.
  - rewrite !put_axis_S, sel_size_pt_rng. f_equal.
    rewrite outer_S, inner_S in Hs.
    apply map2_ext_Forall
      with (P := fun b => length b = size s)
           (Q := fun v => length v = (outer d s * (1 * inner d s))%nat).
    + apply chunks_all_length. exact Hl.
    + rewrite sel_shape_axis by lia. apply chunks_all_length.
      rewrite Hs. nia.
    + intros b v Hb Hv. apply IH; [lia|exact Hb|exact Hv|exact Hk].
Qed.

Lemma axis_put_length w lo len n (b v : list A) :
  length b = (n * w)%nat -> length v = (len * w)%nat -> (lo + len <= n)%nat ->
  length (axis_put w lo len b v) = (n * w)%nat.
Proof.
  intros Hb Hv Hle. unfold axis_put.
  rewrite !length_app, length_firstn, length_skipn, Hb, Hv. nia.
Qed.

Lemma axis_take_length w lo len n (b : list A) :
  length b = (n * w)%nat -> (lo + len <= n)%nat ->
  length (axis_take w lo len b) = (len * w)%nat.
Proof.
  intros Hb Hle. unfold axis_take.
  rewrite length_firstn, length_skipn, Hb. nia.
Qed.

(** An update [a[..., lo:lo+len] op= v] along the axis [d], block by
    block; the buffer of [a] is given by its blocks [Rb], and [v] by what
    it takes from each of the blocks [G]. *)
Lemma axis_update (f : A -> A -> A) d s (Rb G : list (list A))
  (tk : list A -> list A) lo len :
  (d < length s)%nat ->
  Forall (fun b => length b = block d s) Rb -> length Rb = outer d s ->
  Forall (fun g => length (tk g) = (len * inner d s)%nat) G ->
  length G = outer d s ->
  (lo + len <= nth d s 0)%nat ->
  put s (axis_sel d s (Rng lo len)) (concat Rb)
    (map2 f (take s (axis_sel d s (Rng lo len)) (concat Rb))
       (concat (map tk G)))
  = concat (map2 (fun rb gb =>
                    axis_put (inner d s) lo len rb
                      (map2 f (axis_take (inner d s) lo len rb) (tk gb)))
              Rb G).
Proof.
  intros Hd HR HRl HG HGl Hle.
  assert (Hlen : length (concat Rb) = size s).
  { rewrite (length_concat_uniform HR), HRl. symmetry. now apply size_split. }
  assert (HC : chunks (block d s) (outer d s) (concat Rb) = Rb).
  { rewrite <- HRl. now apply chunks_of_concat. }
  rewrite take_axis, HC by assumption.
  assert (HT : Forall (fun x => length x = (len * inner d s)%nat)
                 (map (axis_take (inner d s) lo len) Rb)).
  { eapply Forall_map_len; [exact HR|]. intros b Hb.
    now apply axis_take_length with (n := nth d s 0%nat). }
  assert (HG' : Forall (fun x => length x = (len * inner d s)%nat)
                  (map tk G)).
  { eapply Forall_map_len; [exact HG|]. auto. }
  rewrite (map2_concat f HT HG').
  assert (HM : Forall (fun x => length x = (len * inner d s)%nat)
                 (map2 (map2 f) (map (axis_take (inner d s) lo len) Rb)
                    (map tk G))).
  { eapply Forall2_map2; [exact HT|exact HG'|].
    intros x y Hx Hy. cbv beta in *. rewrite map2_length, Hx, Hy. lia. }
  rewrite put_axis, HC; [|assumption|assumption| |assumption].
  2:{ rewrite (length_concat_uniform HM), map2_length, !length_map.
      rewrite HRl, HGl. lia. }
  assert (HL : length (map2 (map2 f)
                         (map (axis_take (inner d s) lo len) Rb)
                         (map tk G)) = outer d s).
  { rewrite map2_length, !length_map, HRl, HGl. lia. }
  rewrite <- HL at 1. rewrite (chunks_of_concat HM).
  rewrite map2_map, map2_map2_r. reflexivity.
Qed.

Lemma iop_resolved (f : A -> A -> A) (a v : ndarray A) idx sels :
  resolve (shape a) idx = Ok sels -> shape v = sel_shape sels ->
  iop f a idx v
  = Ok (mkarray (dtype_of a) (shape a)
          (put (shape a) sels (data a)
             (map2 f (take (shape a) sels (data a)) (data v)))).
Proof.
  intros Hr Hs. unfold iop, getitem, binop, setitem. rewrite Hr.
  cbn [bind shape]. rewrite Hs, shape_eqb_refl. cbn [bind shape amap2].
  rewrite shape_eqb_refl. reflexivity.
Qed.

(** [a op= v] on whole arrays of one shape. *)
Lemma iop_whole (f : A -> A -> A) (a v : ndarray A) :
  wf a -> wf v -> shape a = shape v ->
  iop f a [] v
  = Ok (mkarray (dtype_of a) (shape a) (map2 f (data a) (data v))).
Proof.
  intros Ha Hv Hs.
  rewrite iop_resolved with (sels := fulls (shape a));
    [|reflexivity|now rewrite sel_shape_fulls].
  rewrite take_fulls by exact Ha.
  rewrite put_fulls; [reflexivity|].
  rewrite map2_length, Ha, Hv, Hs. apply Nat.min_id.
Qed.

(** [this_res[x:y] op= this_grad[x':y']] for the views of [res] and [gd]
    rolled on the axis [d]. *)
Lemma iop_slice (f : A -> A -> A) (res gd : ndarray A) d x y x' y'
  lo lo' len (Rb : list (list A)) :
  wf gd -> shape gd = shape res -> (d < ndim res)%nat ->
  data res = concat Rb ->
  Forall (fun b => length b = block d (shape res)) Rb ->
  length Rb = outer d (shape res) ->
  slice_rng x y (nth d (shape res) 0%nat) = Rng lo len ->
  slice_rng x' y' (nth d (shape res) 0%nat) = Rng lo' len ->
  (lo + len <= nth d (shape res) 0)%nat ->
  (lo' + len <= nth d (shape res) 0)%nat ->
  (g <- getitem gd (rolled d [Slice x' y']) ;;
   iop f res (rolled d [Slice x y]) g)
  = Ok (mkarray (dtype_of res) (shape res)
          (concat
             (map2 (fun rb gb =>
                      axis_put (inner d (shape res)) lo len rb
                        (map2 f (axis_take (inner d (shape res)) lo len rb)
                           (axis_take (inner d (shape res)) lo' len gb)))
                Rb
                (chunks (block d (shape res)) (outer d (shape res))
                   (data gd))))).
Proof.
  intros Hwf Hsh Hd HR HF HL Hx Hx' Hle Hle'. unfold rolled.
  rewrite (getitem_axis (lo := lo') (len := len)); rewrite ?Hsh; auto.
  2:{ unfold ndim. now rewrite Hsh. }
  cbn [bind].
  erewrite iop_resolved;
    [|rewrite resolve_axis_slice by exact Hd; rewrite Hx; reflexivity
     |cbn [shape]; now rewrite sel_shape_axis_sel].
  cbn [data]. rewrite HR, axis_update; auto.
  - apply Forall_forall. intros g Hg.
    apply axis_take_length with (n := nth d (shape res) 0%nat); [|exact Hle'].
    pose proof (chunks_all_length (block d (shape res))
                  (outer d (shape res)) (data gd)) as HG.
    rewrite Forall_forall in HG. apply HG; [|exact Hg].
    rewrite Hwf, Hsh. now apply size_split.
  - apply chunks_length.
Qed.

Lemma norm_int_neg j n :
  (1 <= j <= n)%nat -> norm_int (- Z.of_nat j) n = Ok (n - j)%nat.
Proof.
  intros H. unfold norm_int.
  replace (- Z.of_nat j <? 0)%Z with true by (symmetry; apply Z.ltb_lt; lia).
  replace (0 <=? - Z.of_nat j + Z.of_nat n)%Z with true
    by (symmetry; apply Z.leb_le; lia).
  replace (- Z.of_nat j + Z.of_nat n <? Z.of_nat n)%Z with true
    by (symmetry; apply Z.ltb_lt; lia).
  cbn [andb]. f_equal. lia.
Qed.

Lemma norm_int_neg_short j n :
  (n < j)%nat -> norm_int (- Z.of_nat j) n = Raise IndexError.
Proof.
  intros H. unfold norm_int.
  replace (- Z.of_nat j <? 0)%Z with true by (symmetry; apply Z.ltb_lt; lia).
  replace (0 <=? - Z.of_nat j + Z.of_nat n)%Z with false
    by (symmetry; apply Z.leb_gt; lia).
  reflexivity.
Qed.

(** [this_res[z] op= this_grad[z']] for the views of [res] and [gd] rolled
    on the axis [d]. *)
Lemma iop_point (f : A -> A -> A) (res gd : ndarray A) d z z' k k'
  (Rb : list (list A)) :
  wf gd -> shape gd = shape res -> (d < ndim res)%nat ->
  data res = concat Rb ->
  Forall (fun b => length b = block d (shape res)) Rb ->
  length Rb = outer d (shape res) ->
  norm_int z (nth d (shape res) 0%nat) = Ok k ->
  norm_int z' (nth d (shape res) 0%nat) = Ok k' ->
  (k < nth d (shape res) 0)%nat -> (k' < nth d (shape res) 0)%nat ->
  (g <- getitem gd (rolled d [Int z']) ;;
   iop f res (rolled d [Int z]) g)
  = Ok (mkarray (dtype_of res) (shape res)
          (concat
             (map2 (fun rb gb =>
                      axis_put (inner d (shape res)) k 1 rb
                        (map2 f (axis_take (inner d (shape res)) k 1 rb)
                           (axis_take (inner d (shape res)) k' 1 gb)))
                Rb
                (chunks (block d (shape res)) (outer d (shape res))
                   (data gd))))).
Proof.
  intros Hwf Hsh Hd HR HF HL Hz Hz' Hk Hk'. unfold rolled, getitem at 1.
  unfold ndim in Hd.
  rewrite resolve_axis_int, Hsh, Hz' by (rewrite Hsh; exact Hd).
  cbn [bind].
  erewrite iop_resolved;
    [|rewrite resolve_axis_int by exact Hd; rewrite Hz; reflexivity
     |cbn [shape]; now rewrite !sel_shape_axis_pt].
  cbn [data].
  assert (Hres : length (data res) = size (shape res)).
  { rewrite HR, (length_concat_uniform HF), HL. symmetry.
    now apply size_split. }
  assert (HG : Forall (fun g => length g = block d (shape res))
                 (chunks (block d (shape res)) (outer d (shape res))
                    (data gd))).
  { apply chunks_all_length. rewrite Hwf, Hsh. now apply size_split. }
  rewrite !take_pt_rng by (assumption || (rewrite Hwf; now f_equal)).
  rewrite (@take_axis d (shape res) (data gd) k' 1%nat)
    by (assumption || lia || (rewrite Hwf; now f_equal)).
  rewrite put_pt_rng; [|assumption|assumption| |assumption].
  - rewrite HR, axis_update; auto; try lia.
    + eapply Forall_impl; [|exact HG]. intros g Hg.
      apply axis_take_length with (n := nth d (shape res) 0%nat); [exact Hg|lia].
    + apply chunks_length.
  - rewrite take_axis by (assumption || lia).
    rewrite map2_concat with (k := (1 * inner d (shape res))%nat).
    + erewrite length_concat_uniform.
      * rewrite map2_length, !length_map, !chunks_length.
        rewrite Nat.min_id. reflexivity.
      * eapply Forall2_map2 with
          (P := fun x => length x = (1 * inner d (shape res))%nat)
          (Q := fun x => length x = (1 * inner d (shape res))%nat).
        -- eapply Forall_map_len;
             [apply chunks_all_length; rewrite Hres; now apply size_split|].
           intros b Hb.
           apply axis_take_length with (n := nth d (shape res) 0%nat);
             [exact Hb|lia].
        -- eapply Forall_map_len; [exact HG|]. intros b Hb.
           apply axis_take_length with (n := nth d (shape res) 0%nat);
             [exact Hb|lia].
        -- intros a b Ha Hb. cbv beta. rewrite map2_length, Ha, Hb.
           apply Nat.min_id.
    + eapply Forall_map_len;
        [apply chunks_all_length; rewrite Hres; now apply size_split|].
      intros b Hb.
      apply axis_take_length with (n := nth d (shape res) 0%nat);
        [exact Hb|lia].
    + eapply Forall_map_len; [exact HG|]. intros b Hb.
      apply axis_take_length with (n := nth d (shape res) 0%nat);
        [exact Hb|lia].
Qed.

End Indexing.

(** ** The finite differences *)

Section Gradient.

Variable A : Type.
Variable zero : A.
Variable sub : A -> A -> A.

Lemma diff_block_takes w n (b : list A) :
  length b = (n * w)%nat ->
  map2 sub (axis_take w (Nat.min 1 n) (n - 1) b) (axis_take w 0 (n - 1) b)
  = diff_block sub w b.
Proof.
  intros Hb. unfold axis_take, diff_block.
  destruct n as [|n].
  - simpl in Hb. apply length_zero_iff_nil in Hb. subst b.
    now rewrite !skipn_nil.
  - change (Nat.min 1 (S n)) with 1%nat. rewrite Nat.mul_1_l.
    cbn [Nat.mul skipn].
    rewrite firstn_all2 by (rewrite length_skipn; nia).
    apply map2_firstn_r. rewrite length_skipn. nia.
Qed.

(** [np.diff] in terms of blocks. *)
Lemma np_diff_blocks (a : ndarray A) d :
  wf a -> (d < ndim a)%nat ->
  np_diff sub a d
  = Ok (mkarray (dtype_of a)
          (firstn d (shape a) ++ (nth d (shape a) 0 - 1)%nat
             :: skipn (S d) (shape a))
          (concat (map (diff_block sub (inner d (shape a)))
                     (chunks (block d (shape a)) (outer d (shape a))
                        (data a))))).
Proof.
  intros Hwf Hd. unfold np_diff.
  replace (ndim a =? 0) with false by (symmetry; apply Nat.eqb_neq; lia).
  apply Nat.ltb_lt in Hd as Hd'. rewrite Hd'.
  set (n := nth d (shape a) 0%nat).
  rewrite (getitem_axis (lo := Nat.min 1 n) (len := (n - 1)%nat))
    ; [|assumption|assumption| |lia].
  2:{ fold n. rewrite slice_tail. f_equal. lia. }
  rewrite (getitem_axis (lo := 0%nat) (len := (n - 1)%nat))
    ; [|assumption|assumption| |lia].
  2:{ fold n. apply slice_butlast. }
  cbn [bind]. unfold binop. cbn [shape]. rewrite shape_eqb_refl.
  unfold amap2. cbn [dtype_of shape data]. rewrite promote_idem.
  f_equal. f_equal.
  pose proof (chunks_all_length (block d (shape a)) (outer d (shape a))
                (data a)) as HF.
  rewrite Hwf in HF. specialize (HF (@size_split d (shape a) Hd)).
  rewrite map2_concat with (k := ((n - 1) * inner d (shape a))%nat).
  - rewrite map2_diag. f_equal. apply map_ext_Forall.
    eapply Forall_impl; [|exact HF]. intros b Hb.
    apply diff_block_takes. exact Hb.
  - eapply Forall_map_len; [exact HF|]. intros b Hb. unfold axis_take.
    rewrite length_firstn, length_skipn, Hb. unfold block. fold n. nia.
  - eapply Forall_map_len; [exact HF|]. intros b Hb. unfold axis_take.
    rewrite length_firstn, length_skipn, Hb. unfold block. fold n. nia.
Qed.

Lemma diff_block_length w n (b : list A) :
  length b = (n * w)%nat -> length (diff_block sub w b) = ((n - 1) * w)%nat.
Proof.
  intros H. unfold diff_block. rewrite map2_length, length_skipn, H. nia.
Qed.

Lemma grad_block_length w n (b : list A) :
  length b = (n * w)%nat -> length (grad_block zero sub w n b) = (n * w)%nat.
Proof.
  intros H. unfold grad_block.
  rewrite length_app, repeat_length, (@diff_block_length w n b H). nia.
Qed.

Lemma grad_comp_length (img : ndarray A) d :
  wf img -> (d < ndim img)%nat ->
  length (grad_comp zero sub img d) = size (shape img).
Proof.
  intros Hwf Hd. unfold grad_comp.
  rewrite length_concat_uniform with (k := block d (shape img)).
  - rewrite length_map, chunks_length. symmetry. now apply size_split.
  - eapply Forall_map_len.
    + apply chunks_all_length. rewrite Hwf. now apply size_split.
    + intros b Hb. now apply grad_block_length.
Qed.

Lemma norm_int_nat d c :
  (d < c)%nat -> norm_int (Z.of_nat d) c = Ok d.
Proof.
  intros H. unfold norm_int.
  replace (Z.of_nat d <? 0)%Z with false by (symmetry; apply Z.ltb_ge; lia).
  replace (0 <=? Z.of_nat d)%Z with true by (symmetry; apply Z.leb_le; lia).
  replace (Z.of_nat d <? Z.of_nat c)%Z with true
    by (symmetry; apply Z.ltb_lt; lia).
  cbn [andb]. now rewrite Nat2Z.id.
Qed.

(** Writing the differences along the axis [d] into a sub-array of
    zeros: [g[:, ..., :-1] = np.diff(img, axis=d)]. *)
Lemma put_diff (img : ndarray A) d :
  wf img -> (d < ndim img)%nat ->
  put (shape img)
    (axis_sel d (shape img) (Rng 0 (nth d (shape img) 0 - 1)))
    (repeat zero (size (shape img)))
    (concat (map (diff_block sub (inner d (shape img)))
               (chunks (block d (shape img)) (outer d (shape img))
                  (data img))))
  = grad_comp zero sub img d.
Proof.
  intros Hwf Hd.
  set (s := shape img). set (n := nth d s 0%nat). set (w := inner d s).
  pose proof (@size_split d s Hd) as Hsz. fold n w in Hsz.
  assert (HF : Forall (fun b => length b = block d s)
                 (chunks (block d s) (outer d s) (data img))).
  { apply chunks_all_length. now rewrite Hwf. }
  assert (HD : Forall (fun b => length b = ((n - 1) * w)%nat)
                 (map (diff_block sub w)
                    (chunks (block d s) (outer d s) (data img)))).
  { eapply Forall_map_len; [exact HF|]. intros b Hb.
    now apply diff_block_length. }
  rewrite put_axis; [|exact Hd|now rewrite repeat_length| |lia].
  2:{ fold s n w. rewrite (length_concat_uniform HD).
      now rewrite length_map, chunks_length. }
  fold s n w. unfold grad_comp. fold s n w.
  pose proof (chunks_of_concat HD) as E2.
  rewrite length_map, chunks_length in E2. rewrite E2.
  rewrite Hsz, chunks_repeat.
  rewrite <- (chunks_length (block d s) (outer d s) (data img)) at 1.
  rewrite <- (length_map (diff_block sub w)
                (chunks (block d s) (outer d s) (data img))) at 1.
  rewrite map2_repeat_l, map_map. f_equal. apply map_ext. intros b.
  unfold axis_put, grad_block. cbn [Nat.mul Nat.add firstn app].
  rewrite skipn_repeat. reflexivity.
Qed.

Lemma rows_update (X : list (list A)) (z : list A) (m : nat) :
  firstn (length X) (X ++ repeat z (S m)) = X
  /\ nth (length X) (X ++ repeat z (S m)) [] = z
  /\ skipn (S (length X)) (X ++ repeat z (S m)) = repeat z m.
Proof.
  repeat split.
  - rewrite firstn_app, Nat.sub_diag, firstn_all. simpl. apply app_nil_r.
  - rewrite app_nth2, Nat.sub_diag by lia. reflexivity.
  - rewrite skipn_app, skipn_all2 by lia.
    replace (S (length X) - length X) with 1 by lia. reflexivity.
Qed.

Lemma gradient_step_ok (img : ndarray A) j :
  wf img -> j < ndim img ->
  gradient_step sub img (Ok (grad_state zero sub img j)) j
  = Ok (grad_state zero sub img (S j)).
Proof.
  intros Hwf Hj. unfold gradient_step, grad_state. cbn [bind].
  rewrite np_diff_blocks by assumption. cbn [bind].
  unfold setitem. cbn [shape resolve].
  rewrite norm_int_nat by exact Hj. cbn [bind].
  rewrite resolve_axis_slice by exact Hj. cbn [bind].
  rewrite slice_butlast. cbn [sel_shape].
  rewrite sel_shape_axis_sel, shape_eqb_refl. cbn [data dtype_of put].
  set (X := map (grad_comp zero sub img) (seq 0 j)).
  set (z := repeat zero (size (shape img))).
  assert (HX : length X = j) by (unfold X; now rewrite length_map, length_seq).
  assert (HF : Forall (fun b => length b = size (shape img))
                 (X ++ repeat z (ndim img - j))).
  { apply Forall_app; split.
    - apply Forall_forall. intros b Hb. unfold X in Hb.
      apply in_map_iff in Hb. destruct Hb as [d [<- Hd]].
      apply in_seq in Hd. apply grad_comp_length; [assumption|lia].
    - apply Forall_forall. intros b Hb. apply repeat_spec in Hb. subst b.
      apply repeat_length. }
  pose proof (chunks_of_concat HF) as E.
  rewrite length_app, HX, repeat_length in E.
  replace (j + (ndim img - j)) with (ndim img) in E by lia.
  rewrite E.
  replace (ndim img - j) with (S (ndim img - S j)) by lia.
  destruct (rows_update X z (ndim img - S j)) as [E1 [E2 E3]].
  rewrite HX in E1, E2, E3. rewrite E1, E2, E3.
  unfold z at 1. rewrite put_diff by assumption.
  cbn [bind]. rewrite seq_S, map_app, <- app_assoc.
  rewrite Nat2Z.inj_succ, <- Z.add_1_r. reflexivity.
Qed.

Lemma gradient_fold (img : ndarray A) j :
  wf img -> j <= ndim img ->
  fold_left (gradient_step sub img) (seq 0 j) (Ok (grad_state zero sub img 0))
  = Ok (grad_state zero sub img j).
Proof.
  intros Hwf. induction j as [|j IH]; intros Hj; [reflexivity|].
  rewrite seq_S, fold_left_app, IH by lia. cbn [fold_left Nat.add].
  apply gradient_step_ok; [assumption|lia].
Qed.

(** [gradient] never fails, and its buffer is the components one after
    the other. *)
Lemma gradient_blocks (img : ndarray A) :
  wf img ->
  gradient zero sub img
  = Ok (mkarray (dtype_of img) (ndim img :: shape img)
          (concat (map (grad_comp zero sub img) (seq 0 (ndim img))))).
Proof.
  intros Hwf. unfold gradient.
  assert (E0 : (np_zeros zero (ndim img :: shape img) (dtype_of img),
                [Int 0; Slice None (Some (-1)%Z)]) = grad_state zero sub img 0).
  { unfold grad_state, np_zeros. cbn [seq map app repeat].
    rewrite Nat.sub_0_r, concat_repeat. reflexivity. }
  rewrite E0, gradient_fold by (assumption || lia). cbn [bind fst].
  unfold grad_state. now rewrite Nat.sub_diag, app_nil_r.
Qed.

End Gradient.

(** ** The divergence, block by block *)

Lemma bind_bind_ok (A B C : Type) (m : result A) (f : A -> result B)
  (k : B -> result C) (v : B) :
  (x <- m ;; f x) = Ok v -> (x <- m ;; y <- f x ;; k y) = k v.
Proof.
  destruct m; simpl; intros H; [now rewrite H|discriminate].
Qed.

Section Divergence.

Open Scope R_scope.

Lemma getitem_comp (A : Type) (grad : ndarray A) d c s :
  shape grad = c :: s -> wf grad -> (d < c)%nat ->
  getitem grad [Int (Z.of_nat d)]
  = Ok (mkarray (dtype_of grad) s
          (nth d (chunks (size s) c (data grad)) [])).
Proof.
  intros Hs Hwf Hd. unfold getitem. rewrite Hs. cbn [resolve].
  rewrite norm_int_nat by exact Hd. cbn [bind sel_shape take].
  fold (fulls s). rewrite sel_shape_fulls, take_fulls; [reflexivity|].
  pose proof (chunks_all_length (size s) c (data grad)) as HF.
  rewrite Forall_forall in HF. apply HF.
  - rewrite Hwf, Hs. reflexivity.
  - apply nth_In. now rewrite chunks_length.
Qed.

Lemma block_update_length (A : Type) (f : A -> A -> A) w lo lo' len n
  (rb gb : list A) :
  length rb = (n * w)%nat -> length gb = (n * w)%nat ->
  (lo + len <= n)%nat -> (lo' + len <= n)%nat ->
  length (axis_put w lo len rb
            (map2 f (axis_take w lo len rb) (axis_take w lo' len gb)))
  = (n * w)%nat.
Proof.
  intros Hr Hg Hle Hle'. apply axis_put_length; [assumption| |assumption].
  rewrite map2_length, !(@axis_take_length A w _ _ n) by assumption.
  apply Nat.min_id.
Qed.

Lemma div_block_length w n rb gb :
  length rb = (n * w)%nat -> length gb = (n * w)%nat -> (2 <= n)%nat ->
  length (div_block w n rb gb) = (n * w)%nat.
Proof.
  intros Hr Hg Hn. unfold div_block.
  apply block_update_length; [|assumption|lia|lia].
  apply block_update_length; [|assumption|lia|lia].
  apply block_update_length; [assumption|assumption|lia|lia].
Qed.

(** One turn of the loop of [div] on an axis of length at least 2. *)
Lemma div_step_ok (grad res : array) d c :
  shape grad = c :: shape res -> wf grad -> wf res ->
  (d < c)%nat -> (d < ndim res)%nat -> (2 <= nth d (shape res) 0)%nat ->
  div_step grad (Ok res) d
  = Ok (mkarray (dtype_of res) (shape res)
          (concat
             (map2 (div_block (inner d (shape res)) (nth d (shape res) 0%nat))
                (chunks (block d (shape res)) (outer d (shape res))
                   (data res))
                (chunks (block d (shape res)) (outer d (shape res))
                   (nth d (chunks (size (shape res)) c (data grad)) []))))).
Proof.
  intros Hs Hwf Hres Hd Hd' Hn. unfold div_step. cbn [bind].
  rewrite (getitem_comp Hs Hwf Hd). cbn [bind].
  set (gd := mkarray (dtype_of grad) (shape res)
               (nth d (chunks (size (shape res)) c (data grad)) [])).
  set (s := shape res) in *. set (n := nth d s 0%nat) in *.
  set (w := inner d s). set (B := block d s). set (o := outer d s).
  assert (Hgd : wf gd).
  { unfold wf, gd. cbn [data shape].
    pose proof (chunks_all_length (size s) c (data grad)) as HF.
    rewrite Forall_forall in HF. apply HF.
    - rewrite Hwf, Hs. reflexivity.
    - apply nth_In. now rewrite chunks_length. }
  unfold rollaxis_check. unfold ndim at 1. cbn [shape gd].
  apply Nat.ltb_lt in Hd' as Hb. unfold ndim in Hb. fold s in Hb.
  rewrite Hb. cbn [bind]. unfold ndim at 1. fold s. rewrite Hb. cbn [bind].
  set (Rb := chunks B o (data res)).
  set (G := chunks B o (data gd)).
  assert (HsB : size s = (o * B)%nat) by now apply size_split.
  assert (HR : Forall (fun b => length b = B) Rb).
  { apply chunks_all_length. now rewrite Hres. }
  assert (HG : Forall (fun b => length b = B) G).
  { apply chunks_all_length. now rewrite Hgd. }
  assert (HRl : length Rb = o) by apply chunks_length.
  assert (HRc : data res = concat Rb).
  { symmetry. apply chunks_concat. now rewrite Hres. }
  (* this_res[:-1] += this_grad[:-1] *)
  erewrite bind_bind_ok;
    [|apply (@iop_slice R Rplus res gd d None (Some (-1)%Z) None
               (Some (-1)%Z) 0%nat 0%nat (n - 1)%nat Rb);
      auto; try apply slice_butlast; fold s n; lia].
  fold s n w B o G.
  set (U1 := fun rb gb : list R =>
               axis_put w 0 (n - 1) rb
                 (map2 Rplus (axis_take w 0 (n - 1) rb)
                    (axis_take w 0 (n - 1) gb))).
  set (res1 := mkarray (dtype_of res) s (concat (map2 U1 Rb G))).
  assert (HR1 : Forall (fun b => length b = B) (map2 U1 Rb G)).
  { eapply Forall2_map2; [exact HR|exact HG|]. intros x y Hx Hy.
    apply block_update_length; auto; lia. }
  assert (HR1l : length (map2 U1 Rb G) = o).
  { unfold G. rewrite map2_length, HRl, chunks_length. apply Nat.min_id. }
  (* this_res[1:-1] -= this_grad[:-2] *)
  erewrite bind_bind_ok;
    [|apply (@iop_slice R Rminus res1 gd d (Some 1%Z) (Some (-1)%Z) None
               (Some (-2)%Z) 1%nat 0%nat (n - 2)%nat (map2 U1 Rb G));
      auto; cbn [shape res1]; fold s n;
      try (rewrite slice_middle; f_equal; lia);
      try apply slice_butlast2; lia].
  cbn [shape res1 dtype_of]. fold s n w B o G.
  set (U2 := fun rb gb : list R =>
               axis_put w 1 (n - 2) rb
                 (map2 Rminus (axis_take w 1 (n - 2) rb)
                    (axis_take w 0 (n - 2) gb))).
  rewrite map2_map2_l.
  set (res2 := mkarray (dtype_of res) s
                 (concat (map2 (fun x y => U2 (U1 x y) y) Rb G))).
  assert (HR2 : Forall (fun b => length b = B)
                  (map2 (fun x y => U2 (U1 x y) y) Rb G)).
  { eapply Forall2_map2; [exact HR|exact HG|]. intros x y Hx Hy.
    apply block_update_length; auto; try lia.
    apply block_update_length; auto; lia. }
  assert (HR2l : length (map2 (fun x y => U2 (U1 x y) y) Rb G) = o).
  { unfold G. rewrite map2_length, HRl, chunks_length. apply Nat.min_id. }
  (* this_res[-1] -= this_grad[-2] *)
  pose proof (@iop_point R Rminus res2 gd d (-1)%Z (-2)%Z (n - 1)%nat
                (n - 2)%nat (map2 (fun x y => U2 (U1 x y) y) Rb G))
    as E3.
  cbn [shape res2 dtype_of] in E3. fold s n w B o G in E3.
  rewrite E3; auto; try lia.
  - rewrite map2_map2_l. reflexivity.
  - apply (norm_int_neg (j := 1)). lia.
  - apply (norm_int_neg (j := 2)). lia.
Qed.

Lemma div_data_length s comps j :
  (j <= length s)%nat ->
  (forall d, (d < j)%nat ->
             length (nth d comps []) = size s /\ (2 <= nth d s 0)%nat) ->
  length (div_data s comps j) = size s.
Proof.
  induction j as [|j IH]; intros Hj Hc; cbn [div_data].
  - apply repeat_length.
  - destruct (Hc j) as [Hl Hn]; [lia|].
    assert (Hsz : size s = (outer j s * block j s)%nat)
      by (apply size_split; lia).
    erewrite length_concat_uniform.
    + rewrite map2_length, !chunks_length, Nat.min_id. symmetry. exact Hsz.
    + eapply Forall2_map2.
      * apply chunks_all_length. rewrite IH; [exact Hsz|lia|].
        intros d Hd. apply Hc. lia.
      * apply chunks_all_length. rewrite Hl. exact Hsz.
      * intros x y Hx Hy. cbv beta in *.
        now apply div_block_length.
Qed.

Lemma div_fold (grad : array) c s j :
  shape grad = c :: s -> wf grad -> (j <= c)%nat -> (j <= length s)%nat ->
  (forall d, (d < j)%nat -> (2 <= nth d s 0)%nat) ->
  fold_left (div_step grad) (seq 0 j) (Ok (np_zeros 0 s float64))
  = Ok (mkarray float64 s
          (div_data s (chunks (size s) c (data grad)) j)).
Proof.
  intros Hs Hwf. induction j as [|j IH]; intros Hjc Hjs Hn; [reflexivity|].
  rewrite seq_S, fold_left_app, IH by (try lia; intros; apply Hn; lia).
  cbn [fold_left Nat.add].
  rewrite div_step_ok with (c := c); cbn [shape dtype_of data];
    try (assumption || lia).
  - reflexivity.
  - unfold wf. cbn [data shape]. apply div_data_length; [lia|].
    intros d Hd. split; [|apply Hn; lia].
    pose proof (chunks_all_length (size s) c (data grad)) as HF.
    rewrite Forall_forall in HF. apply HF.
    + rewrite Hwf, Hs. reflexivity.
    + apply nth_In. rewrite chunks_length. lia.
  - apply Hn. lia.
Qed.

(** [div] succeeds when the axes it works on have at least two
    elements. *)
Lemma div_blocks (grad : array) c s :
  shape grad = c :: s -> wf grad -> (c <= length s)%nat ->
  (forall d, (d < c)%nat -> (2 <= nth d s 0)%nat) ->
  div grad
  = Ok (mkarray float64 s (div_data s (chunks (size s) c (data grad)) c)).
Proof.
  intros Hs Hwf Hc Hn. unfold div. rewrite Hs.
  now apply div_fold.
Qed.

(** One turn of the loop of [div] on an axis with fewer than two elements:
  the first two updates are done, the third one raises [IndexError]. *)
Lemma div_step_short (grad res : array) d c :
  shape grad = c :: shape res -> wf grad -> wf res ->
  (d < c)%nat -> (d < ndim res)%nat -> (nth d (shape res) 0 < 2)%nat ->
  div_step grad (Ok res) d = Raise IndexError.
Proof.
  intros Hs Hwf Hres Hd Hd' Hn. unfold div_step. cbn [bind].
  rewrite (getitem_comp Hs Hwf Hd). cbn [bind].
  set (gd := mkarray (dtype_of grad) (shape res)
               (nth d (chunks (size (shape res)) c (data grad)) [])).
  set (s := shape res) in *. set (n := nth d s 0%nat) in *.
  set (w := inner d s). set (B := block d s). set (o := outer d s).
  assert (Hgd : wf gd).
  { unfold wf, gd. cbn [data shape].
    pose proof (chunks_all_length (size s) c (data grad)) as HF.
    rewrite Forall_forall in HF. apply HF.
    - rewrite Hwf, Hs. reflexivity.
    - apply nth_In. now rewrite chunks_length. }
  unfold rollaxis_check. unfold ndim at 1. cbn [shape gd].
  apply Nat.ltb_lt in Hd' as Hb. unfold ndim in Hb. fold s in Hb.
  rewrite Hb. cbn [bind]. unfold ndim at 1. fold s. rewrite Hb. cbn [bind].
  set (Rb := chunks B o (data res)).
  set (G := chunks B o (data gd)).
  assert (HsB : size s = (o * B)%nat) by now apply size_split.
  assert (HR : Forall (fun b => length b = B) Rb).
  { apply chunks_all_length. now rewrite Hres. }
  assert (HG : Forall (fun b => length b = B) G).
  { apply chunks_all_length. now rewrite Hgd. }
  assert (HRl : length Rb = o) by apply chunks_length.
  assert (HRc : data res = concat Rb).
  { symmetry. apply chunks_concat. now rewrite Hres. }
  erewrite bind_bind_ok;
    [|apply (@iop_slice R Rplus res gd d None (Some (-1)%Z) None
               (Some (-1)%Z) 0%nat 0%nat (n - 1)%nat Rb);
      auto; try apply slice_butlast; fold s n; lia].
  fold s n w B o G.
  set (U1 := fun rb gb : list R =>
               axis_put w 0 (n - 1) rb
                 (map2 Rplus (axis_take w 0 (n - 1) rb)
                    (axis_take w 0 (n - 1) gb))).
  set (res1 := mkarray (dtype_of res) s (concat (map2 U1 Rb G))).
  assert (HR1 : Forall (fun b => length b = B) (map2 U1 Rb G)).
  { eapply Forall2_map2; [exact HR|exact HG|]. intros x y Hx Hy.
    apply block_update_length; auto; lia. }
  assert (HR1l : length (map2 U1 Rb G) = o).
  { unfold G. rewrite map2_length, HRl, chunks_length. apply Nat.min_id. }
  erewrite bind_bind_ok;
    [|apply (@iop_slice R Rminus res1 gd d (Some 1%Z) (Some (-1)%Z) None
               (Some (-2)%Z) (Nat.min 1 n) 0%nat (n - 2)%nat (map2 U1 Rb G));
      auto; cbn [shape res1]; fold s n;
      try (rewrite slice_middle; f_equal; lia);
      try apply slice_butlast2; lia].
  unfold getitem, rolled. cbn [shape gd].
  rewrite resolve_axis_int by (apply Nat.ltb_lt; exact Hb).
  fold s n. rewrite (norm_int_neg_short (j := 2)) by lia.
  reflexivity.
Qed.

Lemma div_fold_raise (grad : array) (e : exn) (l : list nat) :
  fold_left (div_step grad) l (Raise e) = Raise e.
Proof. induction l as [|d l IH]; [reflexivity|exact IH]. Qed.

Lemma short_or_all (s : list nat) (j : nat) :
  (forall d, (d < j)%nat -> (2 <= nth d s 0)%nat)
  \/ (exists d, (d < j)%nat /\ (nth d s 0 < 2)%nat
                /\ forall d', (d' < d)%nat -> (2 <= nth d' s 0)%nat).
Proof.
  induction j as [|j [IH|IH]].
  - left. intros d Hd. lia.
  - destruct (Nat.lt_ge_cases (nth j s 0%nat) 2) as [H|H].
    + right. exists j. repeat split; [lia|exact H|exact IH].
    + left. intros d Hd. destruct (Nat.eq_dec d j) as [->|Hne];
        [exact H|apply IH; lia].
  - right. destruct IH as [d [Hd H]]. exists d. split; [lia|exact H].
Qed.

(** [div] raises [IndexError] as soon as one of the axes it works on has
  fewer than two elements. *)
Lemma div_short_axis (grad : array) c s d :
  shape grad = c :: s -> wf grad -> (c <= length s)%nat ->
  (d < c)%nat -> (nth d s 0 < 2)%nat ->
  div grad = Raise IndexError.
Proof.
  intros Hs Hwf Hc Hd Hn. unfold div. rewrite Hs.
  destruct (short_or_all s (S d)) as [Hall|[k [Hk [Hkn Hbefore]]]].
  { specialize (Hall d ltac:(lia)). lia. }
  replace c with (k + (S (c - S k)))%nat by lia.
  rewrite seq_app, fold_left_app.
  rewrite (div_fold (j := k) Hs Hwf) by (lia || exact Hbefore).
  cbn [seq fold_left Nat.add].
  rewrite div_step_short with (c := c); cbn [shape];
    try (assumption || lia).
  - apply div_fold_raise.
  - unfold wf. cbn [data shape]. apply div_data_length; [lia|].
    intros d' Hd'. split; [|apply Hbefore; lia].
    pose proof (chunks_all_length (size s) c (data grad)) as HF.
    rewrite Forall_forall in HF. apply HF.
    + rewrite Hwf, Hs. reflexivity.
    + apply nth_In. rewrite chunks_length. lia.
  - unfold ndim. cbn [shape]. lia.
Qed.

End Divergence.

(** ** Sums of products *)

Section Dot.

Open Scope R_scope.

Lemma fold_right_plus_init c (l : list R) :
  fold_right Rplus c l = fold_right Rplus 0 l + c.
Proof. induction l as [|a l IH]; simpl; [lra|]. rewrite IH. lra. Qed.

Lemma dot_nil_r x : dot x [] = 0.
Proof. now destruct x. Qed.

Lemma dot_cons a x b y : dot (a :: x) (b :: y) = a * b + dot x y.
Proof. reflexivity. Qed.

Lemma dot_app x1 x2 y1 y2 :
  length x1 = length y1 ->
  dot (x1 ++ x2) (y1 ++ y2) = dot x1 y1 + dot x2 y2.
Proof.
  intros H. unfold dot. rewrite map2_app by exact H.
  induction (map2 Rmult x1 y1) as [|a l IH]; simpl; [lra|].
  rewrite IH. lra.
Qed.

Lemma dot_plus_r x r g :
  length r = length g ->
  dot x (map2 Rplus r g) = dot x r + dot x g.
Proof.
  revert r g; induction x as [|a x IH]; intros [|b r] [|c g] H;
    simpl in H; try discriminate; cbn [map2]; rewrite ?dot_nil_r;
    try (unfold dot; simpl; lra).
  rewrite !dot_cons, IH by lia. lra.
Qed.

Lemma dot_minus_r x r g :
  length r = length g ->
  dot x (map2 Rminus r g) = dot x r - dot x g.
Proof.
  revert r g; induction x as [|a x IH]; intros [|b r] [|c g] H;
    simpl in H; try discriminate; cbn [map2]; rewrite ?dot_nil_r;
    try (unfold dot; simpl; lra).
  rewrite !dot_cons, IH by lia. lra.
Qed.

Lemma dot_minus_l a b y :
  length a = length b ->
  dot (map2 Rminus a b) y = dot a y - dot b y.
Proof.
  revert b y; induction a as [|u a IH]; intros [|v b] y H;
    simpl in H; try discriminate; [unfold dot; simpl; lra|].
  destruct y as [|c y]; [unfold dot; simpl; lra|].
  cbn [map2]. rewrite !dot_cons, IH by lia. lra.
Qed.

Lemma dot_zeros_l k y : dot (repeat 0 k) y = 0.
Proof.
  revert y; induction k as [|k IH]; intros [|c y]; cbn [repeat];
    try (unfold dot; simpl; lra).
  rewrite dot_cons, IH. lra.
Qed.

Lemma dot_zeros_r k x : dot x (repeat 0 k) = 0.
Proof.
  revert x; induction k as [|k IH]; intros [|c x]; cbn [repeat];
    try (unfold dot; simpl; lra).
  rewrite dot_cons, IH. lra.
Qed.

Lemma dot_firstn_r m x y :
  (length x <= m)%nat -> dot x (firstn m y) = dot x y.
Proof. intros H. unfold dot. now rewrite map2_firstn_r. Qed.

Lemma dot_concat k (X Y : list (list R)) :
  Forall (fun x => length x = k) X -> Forall (fun y => length y = k) Y ->
  dot (concat X) (concat Y) = fold_right Rplus 0 (map2 dot X Y).
Proof.
  intros HX; revert Y; induction HX as [|x X Hx _ IH]; intros Y HY.
  - reflexivity.
  - destruct HY as [|y Y Hy HY]; cbn [concat map2 fold_right].
    + apply dot_nil_r.
    + rewrite dot_app by congruence. now rewrite IH.
Qed.

(** Replacing a segment of a block changes the sum of products by what
    the segment contributes. *)
Lemma dot_axis_put w lo len n x rb v :
  length x = (n * w)%nat -> length rb = (n * w)%nat ->
  length v = (len * w)%nat -> (lo + len <= n)%nat ->
  dot x (axis_put w lo len rb v)
  = dot x rb - dot (axis_take w lo len x) (axis_take w lo len rb)
    + dot (axis_take w lo len x) v.
Proof.
  intros Hx Hr Hv Hle. unfold axis_put, axis_take.
  assert (Ex : forall l : list R, length l = (n * w)%nat ->
            l = firstn (lo * w) l
                  ++ firstn (len * w) (skipn (lo * w) l)
                  ++ skipn ((lo + len) * w) l).
  { intros l Hl.
    rewrite <- (firstn_skipn (lo * w) l) at 1. f_equal.
    rewrite <- (firstn_skipn (len * w) (skipn (lo * w) l)) at 1. f_equal.
    rewrite skipn_skipn. f_equal. lia. }
  rewrite (Ex x Hx) at 1 2. rewrite (Ex rb Hr) at 3.
  rewrite !dot_app; rewrite ?length_firstn, ?length_skipn; try nia.
  lra.
Qed.

Lemma dot_update_plus w lo lo' len n x rb gb :
  length x = (n * w)%nat -> length rb = (n * w)%nat ->
  length gb = (n * w)%nat -> (lo + len <= n)%nat -> (lo' + len <= n)%nat ->
  dot x (axis_put w lo len rb
           (map2 Rplus (axis_take w lo len rb) (axis_take w lo' len gb)))
  = dot x rb + dot (axis_take w lo len x) (axis_take w lo' len gb).
Proof.
  intros Hx Hr Hg Hle Hle'.
  assert (H1 := @axis_take_length R w lo len n rb Hr Hle).
  assert (H2 := @axis_take_length R w lo' len n gb Hg Hle').
  rewrite (@dot_axis_put w lo len n); auto.
  - rewrite dot_plus_r by congruence. lra.
  - rewrite map2_length, H1, H2. apply Nat.min_id.
Qed.

Lemma dot_update_minus w lo lo' len n x rb gb :
  length x = (n * w)%nat -> length rb = (n * w)%nat ->
  length gb = (n * w)%nat -> (lo + len <= n)%nat -> (lo' + len <= n)%nat ->
  dot x (axis_put w lo len rb
           (map2 Rminus (axis_take w lo len rb) (axis_take w lo' len gb)))
  = dot x rb - dot (axis_take w lo len x) (axis_take w lo' len gb).
Proof.
  intros Hx Hr Hg Hle Hle'.
  assert (H1 := @axis_take_length R w lo len n rb Hr Hle).
  assert (H2 := @axis_take_length R w lo' len n gb Hg Hle').
  rewrite (@dot_axis_put w lo len n); auto.
  - rewrite dot_minus_r by congruence. lra.
  - rewrite map2_length, H1, H2. apply Nat.min_id.
Qed.

(** Summation by parts inside a block: what a turn of [div] adds to the
    sum of products with [x] is the opposite of the sum of products of
    the differences of [x] with the component of [grad]. *)
Lemma div_block_dot w n x rb gb :
  length x = (n * w)%nat -> length rb = (n * w)%nat ->
  length gb = (n * w)%nat -> (2 <= n)%nat ->
  dot x (div_block w n rb gb)
  = dot x rb - dot (grad_block 0 Rminus w n x) gb.
Proof.
  intros Hx Hr Hg Hn. unfold div_block.
  rewrite (@dot_update_minus w (n - 1) (n - 2) 1 n); auto; try lia.
  2:{ apply block_update_length; auto; try lia.
      apply block_update_length; auto; lia. }
  rewrite (@dot_update_minus w 1 0 (n - 2) n); auto; try lia.
  2:{ apply block_update_length; auto; lia. }
  rewrite (@dot_update_plus w 0 0 (n - 1) n); auto; try lia.
  set (m := ((n - 1) * w)%nat).
  assert (Hm : m = ((n - 2) * w + 1 * w)%nat) by (unfold m; nia).
  (* the differences of [x] against [gb] *)
  assert (EG : dot (grad_block 0 Rminus w n x) gb
               = dot (skipn w x) (firstn m gb) - dot (firstn m x) (firstn m gb)).
  { unfold grad_block, diff_block.
    rewrite <- (firstn_skipn m gb) at 1.
    rewrite dot_app.
    - rewrite dot_zeros_l, Rplus_0_r.
      rewrite <- (map2_firstn_r Rminus (m := m) (skipn w x) x)
        by (rewrite length_skipn; unfold m; nia).
      apply dot_minus_l.
      rewrite length_skipn, length_firstn. unfold m. nia.
    - rewrite map2_length, length_skipn, length_firstn. unfold m. nia. }
  (* the two last updates together *)
  assert (ES : dot (skipn w x) (firstn m gb)
               = dot (axis_take w 1 (n - 2) x) (axis_take w 0 (n - 2) gb)
                 + dot (axis_take w (n - 1) 1 x) (axis_take w (n - 2) 1 gb)).
  { unfold axis_take. rewrite Nat.mul_1_l. cbn [Nat.mul skipn].
    rewrite <- (firstn_skipn ((n - 2) * w) (skipn w x)) at 1.
    rewrite Hm, firstn_add, Nat.mul_1_l.
    rewrite dot_app
      by (rewrite !length_firstn, length_skipn; nia).
    f_equal. f_equal.
    rewrite skipn_skipn.
    replace ((n - 2) * w + w)%nat with ((n - 1) * w)%nat by nia.
    symmetry. apply firstn_all2. rewrite length_skipn. nia. }
  rewrite EG, ES. unfold axis_take at 1 2. cbn [Nat.mul skipn]. fold m.
  lra.
Qed.

End Dot.

(** ** The gradient and the divergence are adjoint *)

Lemma map2_seq_nth (A B C : Type) (f : A -> B -> C) (g : nat -> A)
  (Y : list B) (dflt : B) (a r : nat) :
  a + r <= length Y ->
  map2 f (map g (seq a r)) (skipn a Y)
  = map (fun d => f (g d) (nth d Y dflt)) (seq a r).
Proof.
  revert a; induction r as [|r IH]; intros a H; [reflexivity|].
  cbn [seq map].
  destruct (skipn a Y) as [|y Y'] eqn:E.
  - apply (f_equal (@length B)) in E. rewrite length_skipn in E.
    simpl in E. lia.
  - cbn [map2]. f_equal.
    + f_equal. rewrite <- (Nat.add_0_r a), <- nth_skipn, E. reflexivity.
    + rewrite <- IH by lia. f_equal.
      replace (S a) with (1 + a) by lia.
      rewrite <- skipn_skipn, E. reflexivity.
Qed.

Section Adjoint.

Open Scope R_scope.

Lemma sum_blocks w n (X Rb G : list (list R)) :
  Forall (fun b => length b = (n * w)%nat) X ->
  Forall (fun b => length b = (n * w)%nat) Rb ->
  Forall (fun b => length b = (n * w)%nat) G ->
  length X = length Rb -> length Rb = length G -> (2 <= n)%nat ->
  fold_right Rplus 0 (map2 dot X (map2 (div_block w n) Rb G))
  = fold_right Rplus 0 (map2 dot X Rb)
    - fold_right Rplus 0 (map2 dot (map (grad_block 0 Rminus w n) X) G).
Proof.
  intros HX; revert Rb G.
  induction HX as [|x X Hx _ IH]; intros Rb G HR HG H1 H2 Hn.
  - simpl. lra.
  - destruct HR as [|rb Rb Hr HR]; [discriminate|].
    destruct HG as [|gb G Hg HG]; [discriminate|].
    cbn [map map2 fold_right].
    rewrite IH by (simpl in *; auto; lia).
    rewrite div_block_dot by assumption. lra.
Qed.

Lemma div_data_dot (x : array) comps j :
  wf x -> (j <= ndim x)%nat ->
  (forall d, (d < j)%nat ->
             length (nth d comps []) = size (shape x)
             /\ (2 <= nth d (shape x) 0)%nat) ->
  dot (data x) (div_data (shape x) comps j)
  = - fold_right Rplus 0
        (map (fun d => dot (grad_comp 0 Rminus x d) (nth d comps []))
           (seq 0 j)).
Proof.
  intros Hwf. induction j as [|j IH]; intros Hj Hc.
  - cbn [div_data seq map fold_right]. rewrite dot_zeros_r. lra.
  - destruct (Hc j) as [Hl Hn]; [lia|].
    set (s := shape x) in *.
    assert (Hsz : size s = (outer j s * block j s)%nat)
      by (apply size_split; unfold ndim in Hj; fold s in Hj; lia).
    rewrite seq_S, map_app, fold_right_app. cbn [map fold_right Nat.add].
    cbn [div_data].
    assert (HD : length (div_data s comps j) = size s).
    { apply div_data_length; [unfold ndim in Hj; fold s in Hj; lia|].
      intros d Hd. apply Hc. lia. }
    set (X := chunks (block j s) (outer j s) (data x)).
    set (Rb := chunks (block j s) (outer j s) (div_data s comps j)).
    set (G := chunks (block j s) (outer j s) (nth j comps [])).
    assert (HX : Forall (fun b => length b = block j s) X)
      by (apply chunks_all_length; rewrite Hwf; exact Hsz).
    assert (HR : Forall (fun b => length b = block j s) Rb)
      by (apply chunks_all_length; rewrite HD; exact Hsz).
    assert (HG : Forall (fun b => length b = block j s) G)
      by (apply chunks_all_length; rewrite Hl; exact Hsz).
    assert (Ex : data x = concat X)
      by (symmetry; apply chunks_concat; rewrite Hwf; exact Hsz).
    assert (Er : div_data s comps j = concat Rb)
      by (symmetry; apply chunks_concat; rewrite HD; exact Hsz).
    assert (Eg : nth j comps [] = concat G)
      by (symmetry; apply chunks_concat; rewrite Hl; exact Hsz).
    rewrite Ex at 1.
    rewrite dot_concat with (k := block j s); [|exact HX|].
    2:{ eapply Forall2_map2; [exact HR|exact HG|].
        intros a b Ha Hb. now apply div_block_length. }
    unfold block in HX, HR, HG.
    rewrite sum_blocks; auto;
      try (unfold X, Rb, G; now rewrite !chunks_length).
    fold (block j s) in HX, HR, HG.
    rewrite <- dot_concat with (k := block j s) by assumption.
    rewrite <- Ex, <- Er.
    rewrite IH by (try lia; intros d Hd; apply Hc; lia).
    rewrite <- dot_concat with (k := block j s).
    + rewrite <- Eg. unfold grad_comp. fold s X.
      rewrite (fold_right_plus_init (_ + 0)). lra.
    + eapply Forall_map_len; [exact HX|]. intros b Hb.
      now apply grad_block_length.
    + exact HG.
Qed.

Lemma np_sum_prod (a b : array) :
  shape a = shape b -> sum_prod a b = Ok (dot (data a) (data b)).
Proof.
  intros H. unfold sum_prod, binop. rewrite H, shape_eqb_refl.
  reflexivity.
Qed.

(** X1.  For an image whose axes all have at least two elements, and a
    field [y] of shape [(ndim, d0, d1, ...)], both operators succeed and
    [np.sum(gradient(x) * y) = - np.sum(x * div(y))]. *)
Theorem gradient_div_adjoint (x y : array) :
  wf x -> wf y -> shape y = ndim x :: shape x -> axes_ge2 (shape x) ->
  exists gx dy a b,
    gradient 0 Rminus x = Ok gx /\ div y = Ok dy
    /\ sum_prod gx y = Ok a /\ sum_prod x dy = Ok b
    /\ a = - b.
Proof.
  intros Hx Hy Hs Hge.
  assert (Hn : forall d, (d < ndim x)%nat -> (2 <= nth d (shape x) 0)%nat).
  { intros d Hd. unfold axes_ge2 in Hge.
    rewrite Forall_forall in Hge. apply Hge. now apply nth_In. }
  set (s := shape x) in *. set (r := ndim x) in *.
  set (Y := chunks (size s) r (data y)).
  assert (HY : Forall (fun b => length b = size s) Y).
  { apply chunks_all_length. rewrite Hy, Hs. reflexivity. }
  eexists _, _, _, _. split; [apply gradient_blocks; exact Hx|].
  split; [apply (div_blocks Hs Hy); [unfold r, ndim; fold s; lia|exact Hn]|].
  split; [apply np_sum_prod; cbn [shape]; now rewrite Hs|].
  split; [apply np_sum_prod; reflexivity|].
  cbn [data]. fold s r Y.
  rewrite div_data_dot; [|exact Hx|fold r; lia|].
  2:{ intros d Hd. split; [|now apply Hn].
      rewrite Forall_forall in HY. apply HY, nth_In.
      unfold Y. now rewrite chunks_length. }
  rewrite Ropp_involutive.
  assert (Ey : data y = concat Y).
  { symmetry. apply chunks_concat. rewrite Hy, Hs. reflexivity. }
  rewrite Ey, dot_concat with (k := size s); [|idtac|exact HY].
  - f_equal. change Y with (skipn 0 Y) at 1.
    apply map2_seq_nth. unfold Y. rewrite chunks_length. lia.
  - apply Forall_forall. intros g Hg. apply in_map_iff in Hg.
    destruct Hg as [d [<- Hd]]. apply in_seq in Hd.
    apply grad_comp_length; [exact Hx|fold r; lia].
Qed.

(** C1, at an input where it fails.  For an image with a single row
    [gradient] returns an array, but [div] raises [IndexError] on any
    field of its shape: [this_grad[-2]] does not exist on an axis of
    length 1. *)
Theorem div_single_row :
  (exists g, gradient 0 Rminus row_image = Ok g /\ shape g = shape row_field)
  /\ div row_field = Raise IndexError.
Proof.
  split; [|reflexivity].
  eexists. split; [apply gradient_blocks; reflexivity|reflexivity].
Qed.

End Adjoint.

(** ** Elements of the gradient *)

Section Pointwise.

Variable A : Type.
Variable zero : A.
Variable sub : A -> A -> A.

Lemma ravel_lt s idx : in_range s idx -> ravel s idx < size s.
Proof.
  induction 1 as [|i n idx s Hi _ IH]; simpl; [lia|]. nia.
Qed.

Lemma ravel_bump d s idx :
  d < length idx -> length idx = length s ->
  ravel s (bump d idx) = ravel s idx + inner d s.
Proof.
  revert s idx; induction d as [|d IH]; intros [|n s] [|i idx] Hd Hl;
    simpl in Hd, Hl; try lia.
  - cbn [bump ravel]. change (inner 0 (n :: s)) with (size s). lia.
  - cbn [bump ravel]. rewrite inner_S, IH by lia. lia.
Qed.

(** An index cut at the axis [d]: the block, the index on the axis, the
    position inside the block. *)
Lemma ravel_split d s idx :
  in_range s idx -> d < length s ->
  exists q j,
    ravel s idx = q * block d s + nth d idx 0 * inner d s + j
    /\ q < outer d s /\ j < inner d s /\ nth d idx 0 < nth d s 0.
Proof.
  intros H; revert d; induction H as [|i n idx s Hi Hr IH]; intros d Hd;
    simpl in Hd; [lia|].
  destruct d as [|d].
  - exists 0, (ravel s idx). rewrite outer_0.
    change (inner 0 (n :: s)) with (size s). cbn [ravel nth].
    repeat split; try lia. now apply ravel_lt.
  - destruct (IH d) as [q [j [E [Hq [Hj Hn]]]]]; [lia|].
    exists (i * outer d s + q), j.
    rewrite outer_S, block_S, inner_S. cbn [ravel nth].
    rewrite E, (@size_split d s) by lia.
    repeat split; try assumption; nia.
Qed.

Lemma nth_concat_uniform (X : list (list A)) k q p :
  Forall (fun x => length x = k) X -> p < k ->
  nth (q * k + p) (concat X) zero = nth p (nth q X []) zero.
Proof.
  intros H; revert q; induction H as [|x X Hx _ IH]; intros q Hp.
  - cbn [concat]. destruct (q * k + p); destruct q; destruct p; reflexivity.
  - destruct q as [|q]; cbn [concat nth].
    + rewrite app_nth1 by lia. reflexivity.
    + rewrite app_nth2 by nia.
      replace (S q * k + p - length x) with (q * k + p) by nia.
      now apply IH.
Qed.

Lemma nth_chunks k c q p (l : list A) :
  q < c -> p < k ->
  nth p (nth q (chunks k c l) []) zero = nth (q * k + p) l zero.
Proof.
  revert q l; induction c as [|c IH]; intros q l Hq Hp; [lia|].
  destruct q as [|q]; cbn [chunks nth].
  - now rewrite nth_firstn, (proj2 (Nat.ltb_lt p k) Hp).
  - rewrite IH, nth_skipn by lia. f_equal. lia.
Qed.

Lemma nth_map2 (f : A -> A -> A) (l l' : list A) p :
  p < length l -> p < length l' ->
  nth p (map2 f l l') zero = f (nth p l zero) (nth p l' zero).
Proof.
  revert l l'; induction p as [|p IH]; intros [|x l] [|y l'] H H';
    simpl in *; try lia; [reflexivity|].
  apply IH; lia.
Qed.

Lemma nth_grad_block w n (b : list A) p :
  length b = n * w -> p < n * w ->
  nth p (grad_block zero sub w n b) zero
  = if p <? (n - 1) * w
    then sub (nth (p + w) b zero) (nth p b zero)
    else zero.
Proof.
  intros Hb Hp. unfold grad_block, diff_block.
  assert (Hl : length (map2 sub (skipn w b) b) = (n - 1) * w).
  { rewrite map2_length, length_skipn, Hb. nia. }
  destruct (Nat.ltb_spec p ((n - 1) * w)) as [H|H].
  - rewrite app_nth1 by lia.
    rewrite nth_map2 by (rewrite ?length_skipn; nia).
    rewrite nth_skipn. f_equal. f_equal. lia.
  - rewrite app_nth2 by lia. apply nth_repeat.
Qed.

(** The element of the component [k] of the gradient at an index. *)
Lemma nth_grad_comp (img : ndarray A) k idx :
  wf img -> k < ndim img -> in_range (shape img) idx ->
  nth (ravel (shape img) idx) (grad_comp zero sub img k) zero
  = if S (nth k idx 0) <? nth k (shape img) 0
    then sub (item zero img (bump k idx)) (item zero img idx)
    else zero.
Proof.
  intros Hwf Hk Hr. unfold ndim in Hk.
  destruct (ravel_split Hr Hk) as [q [j [E [Hq [Hj Hn]]]]].
  set (s := shape img) in *. set (n := nth k s 0) in *.
  set (w := inner k s) in *. set (i := nth k idx 0) in *.
  assert (Hsz : size s = outer k s * block k s) by now apply size_split.
  assert (HB : block k s = n * w) by reflexivity.
  assert (HC : Forall (fun b => length b = block k s)
                 (chunks (block k s) (outer k s) (data img))).
  { apply chunks_all_length. now rewrite Hwf. }
  unfold grad_comp. fold s n w.
  rewrite E, <- Nat.add_assoc.
  rewrite nth_concat_uniform with (k := block k s).
  2:{ eapply Forall_map_len; [exact HC|]. intros b Hb.
      now apply grad_block_length. }
  2:{ rewrite HB. nia. }
  assert (Hq' : q < length (chunks (block k s) (outer k s) (data img)))
    by now rewrite chunks_length.
  rewrite (nth_indep _ [] (grad_block zero sub w n []))
    by now rewrite length_map.
  rewrite map_nth.
  assert (Hb : length (nth q (chunks (block k s) (outer k s) (data img)) [])
               = n * w).
  { rewrite Forall_forall in HC. rewrite <- HB. apply HC.
    now apply nth_In. }
  rewrite nth_grad_block by (assumption || nia).
  assert (Hlen : length idx = length s).
  { clear -Hr. induction Hr; simpl; congruence. }
  unfold item. fold s. rewrite ravel_bump by lia. fold w. rewrite E.
  destruct (Nat.ltb_spec (S i) n) as [H1|H1];
    destruct (Nat.ltb_spec (i * w + j) ((n - 1) * w)) as [H2|H2];
    try nia; [|reflexivity].
  rewrite !nth_chunks by (try assumption; rewrite HB; nia).
  f_equal; f_equal; lia.
Qed.

Lemma in_range_length s idx : in_range s idx -> length idx = length s.
Proof. induction 1; simpl; congruence. Qed.

Lemma in_range_nth s idx k :
  in_range s idx -> k < length s -> nth k idx 0 < nth k s 0.
Proof.
  intros H; revert k; induction H as [|i n idx s Hi _ IH]; intros k Hk;
    simpl in Hk; [lia|].
  destruct k as [|k]; cbn [nth]; [exact Hi|]. apply IH. lia.
Qed.

(** An element of the array that [gradient] builds. *)
Lemma item_gradient (img : ndarray A) k idx :
  wf img -> k < ndim img -> in_range (shape img) idx ->
  item zero
    (mkarray (dtype_of img) (ndim img :: shape img)
       (concat (map (grad_comp zero sub img) (seq 0 (ndim img)))))
    (k :: idx)
  = if S (nth k idx 0) <? nth k (shape img) 0
    then sub (item zero img (bump k idx)) (item zero img idx)
    else zero.
Proof.
  intros Hwf Hk Hr.
  assert (HF : Forall (fun b => length b = size (shape img))
                 (map (grad_comp zero sub img) (seq 0 (ndim img)))).
  { apply Forall_forall. intros b Hb. apply in_map_iff in Hb.
    destruct Hb as [d [<- Hd]]. apply in_seq in Hd.
    apply grad_comp_length; [assumption|lia]. }
  unfold item at 1. cbn [shape data ravel].
  rewrite nth_concat_uniform with (k := size (shape img));
    [|exact HF|now apply ravel_lt].
  rewrite (nth_indep _ [] (grad_comp zero sub img 0))
    by now rewrite length_map, length_seq.
  rewrite map_nth, seq_nth by exact Hk. cbn [Nat.add].
  now apply nth_grad_comp.
Qed.

(** C6.  For an array [img] of any rank, [gradient(img)] is an array of
    shape [(rank, d0, d1, ...)] and of the dtype of [img]; its component
    [k] holds, at every index that is not the last one along the axis
    [k], the element of [img] one step further along that axis minus the
    element of [img] at the index, and zero at the last index along the
    axis [k]. *)
Theorem gradient_forward_difference (img : ndarray A) :
  wf img ->
  exists g,
    gradient zero sub img = Ok g
    /\ shape g = ndim img :: shape img
    /\ dtype_of g = dtype_of img
    /\ wf g
    /\ forall k idx,
         k < ndim img -> in_range (shape img) idx ->
         (S (nth k idx 0) < nth k (shape img) 0 ->
          item zero g (k :: idx)
          = sub (item zero img (bump k idx)) (item zero img idx))
         /\ (S (nth k idx 0) = nth k (shape img) 0 ->
             item zero g (k :: idx) = zero).
Proof.
  intros Hwf. eexists. split; [now apply gradient_blocks|].
  assert (HF : Forall (fun b => length b = size (shape img))
                 (map (grad_comp zero sub img) (seq 0 (ndim img)))).
  { apply Forall_forall. intros b Hb. apply in_map_iff in Hb.
    destruct Hb as [d [<- Hd]]. apply in_seq in Hd.
    apply grad_comp_length; [assumption|lia]. }
  split; [reflexivity|]. split; [reflexivity|]. split.
  { unfold wf. cbn [data shape size fold_right].
    now rewrite (length_concat_uniform HF), length_map, length_seq. }
  intros k idx Hk Hr. rewrite item_gradient by assumption.
  split; intros H.
  - now rewrite (proj2 (Nat.ltb_lt _ _) H).
  - now rewrite (proj2 (Nat.ltb_ge _ _)) by lia.
Qed.

End Pointwise.

(** ** The projection *)

Lemma firstn_S_nth (A : Type) (j : nat) (L : list A) (d : A) :
  j < length L -> firstn (S j) L = firstn j L ++ [nth j L d].
Proof.
  revert L; induction j as [|j IH]; intros [|x L] H; simpl in H; try lia.
  - reflexivity.
  - cbn [firstn nth app]. f_equal. apply IH. lia.
Qed.

Lemma skipn_nth_S (A : Type) (j : nat) (L : list A) (d : A) :
  j < length L -> skipn j L = nth j L d :: skipn (S j) L.
Proof.
  revert L; induction j as [|j IH]; intros [|x L] H; simpl in H; try lia.
  - reflexivity.
  - cbn [skipn nth]. apply IH. lia.
Qed.

Lemma app_cons_parts (A : Type) (X : list A) (y d : A) (Y : list A) :
  firstn (length X) (X ++ y :: Y) = X
  /\ nth (length X) (X ++ y :: Y) d = y
  /\ skipn (S (length X)) (X ++ y :: Y) = Y.
Proof.
  induction X as [|x X [E1 [E2 E3]]]; cbn [length app firstn nth skipn].
  - auto.
  - repeat split; [now rewrite E1|exact E2|exact E3].
Qed.

Section Projection.

Open Scope R_scope.

Lemma projector_step_ok (norm g : array) c s (Rw : list (list R)) k :
  shape g = c :: s -> s <> [] -> data g = concat Rw ->
  Forall (fun b => length b = size s) Rw -> length Rw = c ->
  shape norm = s -> wf norm -> (k < c)%nat ->
  projector_step norm (Ok g) k
  = Ok (mkarray (dtype_of g) (c :: s)
          (concat (firstn k Rw ++ map2 Rdiv (nth k Rw []) (data norm)
                     :: skipn (S k) Rw))).
Proof.
  intros Hs Hne Hd HF Hl Hn Hwn Hk. unfold projector_step. cbn [bind].
  replace (ndim g =? 1)%nat with false
    by (symmetry; apply Nat.eqb_neq; unfold ndim; rewrite Hs;
        destruct s; [congruence|cbn [length]; lia]).
  erewrite iop_resolved with (sels := Pt k :: fulls s).
  - rewrite Hs, Hd. cbn [put take].
    assert (HC : chunks (size s) c (concat Rw) = Rw).
    { rewrite <- Hl. apply chunks_of_concat. exact HF. }
    rewrite HC.
    assert (Hrow : length (nth k Rw []) = size s).
    { rewrite Forall_forall in HF. apply HF, nth_In. lia. }
    rewrite take_fulls by exact Hrow.
    rewrite put_fulls; [reflexivity|].
    rewrite map2_length, Hrow, Hwn, Hn. apply Nat.min_id.
  - rewrite Hs. cbn [resolve]. rewrite norm_int_nat by exact Hk.
    reflexivity.
  - cbn [sel_shape]. now rewrite sel_shape_fulls.
Qed.

Lemma proj_rows_uniform nrm rows j k :
  Forall (fun b => length b = k) rows -> length nrm = k ->
  Forall (fun b => length b = k) (proj_rows nrm rows j).
Proof.
  intros HF Hn. unfold proj_rows. apply Forall_app. split.
  - eapply Forall_map_len; [apply Forall_firstn; exact HF|].
    intros b Hb. cbv beta in *. rewrite map2_length, Hb, Hn.
    apply Nat.min_id.
  - now apply Forall_skipn.
Qed.

Lemma proj_rows_length nrm rows j :
  length (proj_rows nrm rows j) = length rows.
Proof.
  unfold proj_rows.
  rewrite length_app, length_map, length_firstn, length_skipn. lia.
Qed.

Lemma projector_fold (norm grad : array) c s j :
  shape grad = c :: s -> s <> [] -> wf grad -> shape norm = s -> wf norm ->
  (j <= c)%nat ->
  fold_left (projector_step norm) (seq 0 j) (Ok grad)
  = Ok (mkarray (dtype_of grad) (c :: s)
          (concat (proj_rows (data norm)
                     (chunks (size s) c (data grad)) j))).
Proof.
  intros Hs Hne Hwf Hn Hwn. set (rows := chunks (size s) c (data grad)).
  assert (HF : Forall (fun b => length b = size s) rows).
  { apply chunks_all_length. rewrite Hwf, Hs. reflexivity. }
  assert (Hl : length rows = c) by apply chunks_length.
  induction j as [|j IH]; intros Hj.
  - cbn [seq fold_left]. unfold proj_rows. cbn [firstn map app skipn].
    f_equal. destruct grad as [dt sh dat]. cbn [shape data dtype_of] in *.
    subst sh. f_equal. symmetry. apply chunks_concat.
    exact Hwf.
  - rewrite seq_S, fold_left_app, IH by lia. cbn [fold_left Nat.add].
    erewrite projector_step_ok with (c := c) (s := s);
      [|reflexivity|exact Hne|reflexivity| | |exact Hn|exact Hwn|lia].
    + cbn [dtype_of]. f_equal. f_equal. f_equal. unfold proj_rows.
      assert (Hjl : (j < length rows)%nat) by lia.
      assert (Hf : length (map (fun row => map2 Rdiv row (data norm))
                             (firstn j rows)) = j).
      { rewrite length_map, length_firstn. lia. }
      rewrite (skipn_nth_S rows [] Hjl).
      destruct (app_cons_parts
                  (map (fun row => map2 Rdiv row (data norm))
                     (firstn j rows))
                  (nth j rows []) [] (skipn (S j) rows)) as [E1 [E2 E3]].
      rewrite Hf in E1, E2, E3. rewrite E1, E2, E3.
      rewrite (firstn_S_nth rows [] Hjl), map_app, <- app_assoc.
      reflexivity.
    + apply proj_rows_uniform; [exact HF|]. now rewrite Hwn, Hn.
    + rewrite proj_rows_length. exact Hl.
Qed.

Lemma fold_left_Rplus (l : list R) a :
  fold_left Rplus l a = a + fold_right Rplus 0 l.
Proof.
  revert a; induction l as [|x l IH]; intros a; simpl; [lra|].
  rewrite IH. lra.
Qed.

Lemma nth_fold_map2 (rows : list (list R)) acc sz p :
  Forall (fun b => length b = sz) rows -> length acc = sz -> (p < sz)%nat ->
  nth p (fold_left (map2 Rplus) rows acc) 0
  = fold_left Rplus (map (fun r => nth p r 0) rows) (nth p acc 0).
Proof.
  intros HF; revert acc; induction HF as [|r rows Hr _ IH]; intros acc Ha Hp;
    [reflexivity|].
  cbn [fold_left map]. rewrite IH.
  - now rewrite nth_map2 by lia.
  - rewrite map2_length, Ha, Hr. apply Nat.min_id.
  - exact Hp.
Qed.

Lemma map_nth_chunks (l : list R) sz c p :
  (p < sz)%nat ->
  map (fun r => nth p r 0) (chunks sz c l)
  = map (fun k => nth (k * sz + p) l 0) (seq 0 c).
Proof.
  intros Hp. apply nth_ext with (d := 0) (d' := 0).
  - now rewrite !length_map, chunks_length, length_seq.
  - intros k Hk. rewrite length_map, chunks_length in Hk.
    rewrite (nth_indep (map (fun r => nth p r 0) (chunks sz c l)) 0
               (nth p [] 0))
      by now rewrite length_map, chunks_length.
    rewrite (map_nth (fun r => nth p r 0)).
    rewrite (nth_indep (map (fun k => nth (k * sz + p) l 0) (seq 0 c)) 0
               (nth (0 * sz + p) l 0))
      by now rewrite length_map, length_seq.
    rewrite (map_nth (fun k => nth (k * sz + p) l 0)), seq_nth by exact Hk.
    now apply nth_chunks.
Qed.

Lemma sum_axis0_at (l : list R) c sz p :
  length l = (c * sz)%nat -> (p < sz)%nat ->
  nth p (fold_left (map2 Rplus)
           (chunks sz c (map (fun x => x ^ 2) l)) (repeat 0 sz)) 0
  = sumsq_at l c sz p.
Proof.
  intros Hl Hp. rewrite nth_fold_map2 with (sz := sz);
    [|apply chunks_all_length; now rewrite length_map
     |apply repeat_length|exact Hp].
  rewrite nth_repeat, fold_left_Rplus, Rplus_0_l, map_nth_chunks by exact Hp.
  unfold sumsq_at. f_equal. apply map_ext_in. intros k Hk.
  apply in_seq in Hk.
  rewrite (nth_indep _ 0 ((fun x => x ^ 2) 0))
    by (rewrite length_map, Hl; nia).
  now rewrite (map_nth (fun x => x ^ 2)).
Qed.

(** [_projector_on_dual] succeeds on a field of shape [(c, ...)], and
    divides each element by the larger of 1 and the norm at its grid
    point. *)
Lemma projector_flat (grad : array) c s :
  shape grad = c :: s -> wf grad -> s <> [] ->
  exists out,
    _projector_on_dual grad = Ok out
    /\ shape out = c :: s /\ dtype_of out = dtype_of grad /\ wf out
    /\ forall k p, (k < c)%nat -> (p < size s)%nat ->
         nth (k * size s + p) (data out) 0
         = nth (k * size s + p) (data grad) 0
           / Rmax (sqrt (sumsq_at (data grad) c (size s) p)) 1.
Proof.
  intros Hs Hwf Hne. unfold _projector_on_dual, np_sum_axis0, amap.
  cbn [shape data dtype_of]. rewrite Hs. cbn [bind hd shape data dtype_of].
  set (sq := fold_left (map2 Rplus)
               (chunks (size s) c (map (fun x => x ^ 2) (data grad)))
               (repeat 0 (size s))).
  set (norm := mkarray (dtype_of grad) s
                 (map (fun x => Rmax x 1) (map sqrt sq))).
  assert (Hl : length (data grad) = (c * size s)%nat)
    by (rewrite Hwf, Hs; reflexivity).
  assert (Hsq : length sq = size s).
  { unfold sq. clear -Hl.
    assert (HF : Forall (fun b => length b = size s)
                   (chunks (size s) c (map (fun x => x ^ 2) (data grad))))
      by (apply chunks_all_length; now rewrite length_map).
    assert (Ha : length (repeat 0 (size s)) = size s)
      by apply repeat_length.
    revert HF Ha. generalize (repeat 0 (size s)).
    induction (chunks (size s) c (map (fun x => x ^ 2) (data grad)))
      as [|r rows IH]; intros acc HF Ha; [exact Ha|].
    cbn [fold_left]. inversion HF; subst. apply IH; [assumption|].
    rewrite map2_length. lia. }
  assert (Hwn : wf norm).
  { unfold wf, norm. cbn [data shape]. now rewrite !length_map. }
  rewrite (projector_fold (norm := norm) (j := c) Hs Hne Hwf eq_refl Hwn)
    by lia.
  eexists. split; [reflexivity|]. cbn [shape dtype_of data].
  assert (HR : Forall (fun b => length b = size s)
                 (proj_rows (data norm) (chunks (size s) c (data grad)) c)).
  { apply proj_rows_uniform; [now apply chunks_all_length|exact Hwn]. }
  split; [reflexivity|]. split; [reflexivity|]. split.
  { unfold wf. cbn [data shape size fold_right].
    rewrite (length_concat_uniform HR), proj_rows_length, chunks_length.
    reflexivity. }
  intros k p Hk Hp.
  rewrite nth_concat_uniform with (k := size s); [|exact HR|exact Hp].
  unfold proj_rows.
  rewrite firstn_all2, skipn_all2, app_nil_r by (rewrite chunks_length; lia).
  rewrite (nth_indep _ [] (map2 Rdiv [] (data norm)))
    by now rewrite length_map, chunks_length.
  rewrite (map_nth (fun row => map2 Rdiv row (data norm))).
  assert (Hrow : length (nth k (chunks (size s) c (data grad)) []) = size s).
  { pose proof (chunks_all_length (size s) c (data grad) Hl) as HF.
    rewrite Forall_forall in HF. apply HF, nth_In.
    now rewrite chunks_length. }
  rewrite nth_map2 by (rewrite ?Hrow, ?Hwn; exact Hp).
  rewrite nth_chunks by assumption. unfold Rdiv. f_equal. f_equal.
  unfold norm. cbn [data].
  rewrite (nth_indep _ 0 (Rmax (sqrt 0) 1))
    by now rewrite !length_map, Hsq.
  rewrite (map_nth (fun x => Rmax x 1)), (map_nth sqrt).
  unfold sq. now rewrite sum_axis0_at.
Qed.

Lemma sumsq_nonneg l c sz p : 0 <= sumsq_at l c sz p.
Proof.
  unfold sumsq_at. induction (seq 0 c) as [|k ks IH]; cbn [map fold_right];
    [lra|].
  pose proof (pow2_ge_0 (nth (k * sz + p) l 0)). lra.
Qed.

Lemma sumsq_scaled l l' c sz p N :
  N <> 0 ->
  (forall k, (k < c)%nat ->
             nth (k * sz + p) l' 0 = nth (k * sz + p) l 0 / N) ->
  sumsq_at l' c sz p = sumsq_at l c sz p / N ^ 2.
Proof.
  intros HN H. unfold sumsq_at.
  assert (Hin : forall k, In k (seq 0 c) -> (k < c)%nat)
    by (intros k Hk; apply in_seq in Hk; lia).
  induction (seq 0 c) as [|k ks IH]; cbn [map fold_right].
  - unfold Rdiv. now rewrite Rmult_0_l.
  - rewrite IH by (intros; apply Hin; now right).
    rewrite H by (apply Hin; now left). field. exact HN.
Qed.

Lemma Rmax_sqrt_pos S : 0 < Rmax (sqrt S) 1.
Proof. pose proof (Rmax_r (sqrt S) 1). lra. Qed.

Lemma norm_after_le S :
  0 <= S -> sqrt (S / Rmax (sqrt S) 1 ^ 2) <= 1.
Proof.
  intros HS. set (N := Rmax (sqrt S) 1).
  assert (HN : 0 < N) by apply Rmax_sqrt_pos.
  assert (HsN : sqrt S <= N) by apply Rmax_l.
  assert (H0 : 0 <= sqrt S) by apply sqrt_pos.
  assert (HSN : S <= N ^ 2).
  { rewrite <- (sqrt_sqrt S HS). nra. }
  rewrite <- sqrt_1. apply sqrt_le_1_alt.
  apply Rmult_le_reg_r with (r := N ^ 2); [nra|].
  unfold Rdiv. rewrite Rmult_assoc, Rinv_l by nra. lra.
Qed.

(** After the projection the norm at every grid point is at most 1. *)
Lemma projected_norm_le (grad out : array) c sz p :
  (forall k, (k < c)%nat ->
             nth (k * sz + p) (data out) 0
             = nth (k * sz + p) (data grad) 0
               / Rmax (sqrt (sumsq_at (data grad) c sz p)) 1) ->
  sqrt (sumsq_at (data out) c sz p) <= 1.
Proof.
  intros H.
  rewrite (@sumsq_scaled (data grad) (data out) c sz p
             (Rmax (sqrt (sumsq_at (data grad) c sz p)) 1)).
  - apply norm_after_le, sumsq_nonneg.
  - pose proof (Rmax_sqrt_pos (sumsq_at (data grad) c sz p)). lra.
  - exact H.
Qed.

(** Where the norm was at most 1 the projection changes nothing. *)
Lemma projected_unchanged (x S : R) :
  sqrt S <= 1 -> x / Rmax (sqrt S) 1 = x.
Proof.
  intros H. rewrite Rmax_right by exact H. field.
Qed.

Lemma point_norm_flat (f : array) c s idx :
  shape f = c :: s ->
  point_norm f idx = sqrt (sumsq_at (data f) c (size s) (ravel s idx)).
Proof.
  intros Hs. unfold point_norm, sumsq_at, item. rewrite Hs. reflexivity.
Qed.

(** A field of rank 1 comes back as it is. *)
Lemma projector_rank1 (grad : array) c :
  shape grad = [c] -> _projector_on_dual grad = Ok grad.
Proof.
  intros Hs. unfold _projector_on_dual, np_sum_axis0.
  cbn [amap shape]. rewrite Hs. cbn [bind hd].
  generalize (amap (fun x => Rmax x 1)
                (amap sqrt
                   (mkarray (dtype_of (amap (fun x => x ^ 2) grad)) []
                      (fold_left (map2 Rplus)
                         (chunks (size []) c
                            (data (amap (fun x => x ^ 2) grad)))
                         (repeat 0 (size [])))))).
  intros norm. induction (seq 0 c) as [|k ks IH]; [reflexivity|].
  cbn [fold_left]. unfold projector_step at 2. cbn [bind].
  unfold ndim. rewrite Hs. cbn [length Nat.eqb]. exact IH.
Qed.



(** C10.  Projecting twice is projecting once. *)
Theorem projector_on_dual_idempotent (grad : array) c s :
  shape grad = c :: s -> wf grad ->
  exists out,
    _projector_on_dual grad = Ok out /\ _projector_on_dual out = Ok out.
Proof.
  intros Hs Hwf.
  destruct (list_eq_dec Nat.eq_dec s []) as [Hnil|Hne].
  { subst s. exists grad. split; apply (@projector_rank1 grad c Hs). }
  destruct (projector_flat Hs Hwf Hne) as [out [E [Ho [Hd [Hwo H]]]]].
  destruct (projector_flat Ho Hwo Hne) as [out2 [E2 [Ho2 [Hd2 [Hwo2 H2]]]]].
  exists out. split; [exact E|]. rewrite E2. f_equal.
  destruct out as [dt sh dat], out2 as [dt2 sh2 dat2].
  cbn [shape dtype_of data] in *. unfold wf in Hwo, Hwo2.
  cbn [shape data] in Hwo, Hwo2. subst sh sh2 dt2. f_equal.
  apply nth_ext with (d := 0) (d' := 0); [congruence|].
  intros q Hq. rewrite Hwo2 in Hq.
  change (size (c :: s)) with (c * size s)%nat in Hq.
  assert (Hsz : (0 < size s)%nat) by nia.
  pose proof (Nat.div_mod_eq q (size s)) as Eq.
  pose proof (Nat.mod_upper_bound q (size s)) as Hm.
  assert (Hk : (q / size s < c)%nat)
    by (apply Nat.Div0.div_lt_upper_bound; lia).
  replace q with (q / size s * size s + q mod size s)%nat at 1 2 by lia.
  rewrite H2 by (assumption || lia).
  apply projected_unchanged.
  apply (@projected_norm_le grad (mkarray dt (c :: s) dat) c (size s)
           (q mod size s)).
  intros k Hk'. apply H; [assumption|lia].
Qed.

End Projection.

(** ** The dual gap *)

Lemma seq_blocks (sz n : nat) :
  flat_map (fun i => seq (i * sz) sz) (seq 0 n) = seq 0 (n * sz).
Proof.
  induction n as [|n IH]; [reflexivity|].
  rewrite seq_S, flat_map_app, IH. cbn [flat_map Nat.add].
  rewrite app_nil_r.
  replace (S n * sz) with (n * sz + sz) by lia.
  now rewrite seq_app.
Qed.

Lemma seq_add_map (a len : nat) : map (fun p => a + p) (seq 0 len) = seq a len.
Proof.
  induction a as [|a IH]; cbn [Nat.add].
  - apply map_id.
  - rewrite <- seq_shift, <- IH, map_map. reflexivity.
Qed.

Lemma ravel_grid (s : list nat) : map (ravel s) (grid s) = seq 0 (size s).
Proof.
  induction s as [|n s IH]; [reflexivity|].
  cbn [grid size fold_right]. fold (size s).
  rewrite <- seq_blocks, !flat_map_concat_map, concat_map, map_map.
  f_equal. apply map_ext. intros i. rewrite map_map. cbn [ravel].
  rewrite <- (map_map (ravel s) (fun p => i * size s + p)), IH.
  apply seq_add_map.
Qed.

Lemma grid_in_range (s idx : list nat) : In idx (grid s) -> in_range s idx.
Proof.
  revert idx; induction s as [|n s IH]; intros idx H; cbn [grid] in H.
  - destruct H as [<-|[]]. constructor.
  - apply in_flat_map in H. destruct H as [i [Hi H]].
    apply in_map_iff in H. destruct H as [idx' [<- H]].
    apply in_seq in Hi. constructor; [lia|]. now apply IH.
Qed.

Section DualGap.

Open Scope R_scope.

(** The total variation of the specification, on the buffer: at each
    position, the norm of what the components of the gradient hold. *)
Lemma TV_flat (c : array) :
  wf c ->
  TV c
  = fold_right Rplus 0
      (map (fun p =>
              sqrt (fold_right Rplus 0
                      (map (fun k => nth p (grad_comp 0 Rminus c k) 0 ^ 2)
                         (seq 0 (ndim c)))))
         (seq 0 (size (shape c)))).
Proof.
  intros Hwf. unfold TV. rewrite <- ravel_grid, map_map. f_equal.
  apply map_ext_in. intros idx Hidx. apply grid_in_range in Hidx.
  f_equal. f_equal. apply map_ext_in. intros k Hk. apply in_seq in Hk.
  f_equal. unfold fwd_diff. symmetry.
  apply nth_grad_comp; [exact Hwf|lia|exact Hidx].
Qed.

Lemma sum_sqrt2 (X Y : list R) :
  length X = length Y ->
  map sqrt (map2 Rplus (map (fun x => x ^ 2) X) (map (fun x => x ^ 2) Y))
  = map (fun p => sqrt (nth p X 0 ^ 2 + (nth p Y 0 ^ 2 + 0)))
      (seq 0 (length X)).
Proof.
  revert Y; induction X as [|x X IH]; intros [|y Y] H; simpl in H;
    try discriminate; [reflexivity|].
  cbn [map map2 length seq nth]. f_equal.
  - f_equal. lra.
  - rewrite <- seq_shift, map_map. cbn [nth]. apply IH. lia.
Qed.

Lemma sum_sqrt3 (X Y Z : list R) :
  length X = length Y -> length Y = length Z ->
  map sqrt
    (map2 Rplus
       (map2 Rplus (map (fun x => x ^ 2) X) (map (fun x => x ^ 2) Y))
       (map (fun x => x ^ 2) Z))
  = map (fun p =>
           sqrt (nth p X 0 ^ 2 + (nth p Y 0 ^ 2 + (nth p Z 0 ^ 2 + 0))))
      (seq 0 (length X)).
Proof.
  revert Y Z; induction X as [|x X IH]; intros [|y Y] [|z Z] H H';
    simpl in H, H'; try discriminate; [reflexivity|].
  cbn [map map2 length seq nth]. f_equal.
  - f_equal. lra.
  - rewrite <- seq_shift, map_map. cbn [nth]. apply IH; lia.
Qed.

(** [g = np.zeros_like(new); g[idx] = np.diff(new, axis=d)] when [idx]
    selects all but the last index of the axis [d]. *)
Lemma zeros_diff (new : array) d idx :
  wf new -> (d < ndim new)%nat ->
  resolve (shape new) idx
  = Ok (axis_sel d (shape new) (Rng 0 (nth d (shape new) 0 - 1)%nat)) ->
  (dx <- np_diff Rminus new d ;; setitem (zeros_like new) idx dx)
  = Ok (mkarray (dtype_of new) (shape new) (grad_comp 0 Rminus new d)).
Proof.
  intros Hwf Hd Hr. rewrite np_diff_blocks by assumption. cbn [bind].
  unfold setitem, zeros_like, np_zeros. cbn [shape data dtype_of].
  rewrite Hr. cbn [bind]. rewrite sel_shape_axis_sel, shape_eqb_refl.
  now rewrite put_diff.
Qed.

Lemma resolve_ellipsis_last (s : list nat) a b :
  length s = 3%nat ->
  resolve s [Ellipsis; Slice a b]
  = Ok (axis_sel 2 s (slice_rng a b (nth 2 s 0%nat))).
Proof.
  destruct s as [|n0 [|n1 [|n2 [|n3 s]]]]; try discriminate.
  reflexivity.
Qed.

Lemma binop_same (f : R -> R -> R) (a b : array) :
  shape a = shape b -> binop f a b = Ok (amap2 f a b).
Proof. intros H. unfold binop. now rewrite H, shape_eqb_refl. Qed.

Lemma np_sum_sqrt2 (gx gy : list R) (dt : dtype) (s : list nat) :
  length gx = size s -> length gy = size s ->
  np_sum (amap sqrt (amap2 Rplus (sqr (mkarray dt s gx))
                       (sqr (mkarray dt s gy))))
  = fold_right Rplus 0
      (map (fun p => sqrt (nth p gx 0 ^ 2 + (nth p gy 0 ^ 2 + 0)))
         (seq 0 (size s))).
Proof.
  intros Hx Hy. unfold sqr, amap, amap2, np_sum. cbn [shape data dtype_of].
  rewrite sum_sqrt2 by congruence. now rewrite Hx.
Qed.

Lemma np_sum_sqrt3 (gx gy gz : list R) (dt : dtype) (s : list nat) :
  length gx = size s -> length gy = size s -> length gz = size s ->
  np_sum (amap sqrt
            (amap2 Rplus
               (amap2 Rplus (sqr (mkarray dt s gx)) (sqr (mkarray dt s gy)))
               (sqr (mkarray dt s gz))))
  = fold_right Rplus 0
      (map (fun p =>
              sqrt (nth p gx 0 ^ 2
                    + (nth p gy 0 ^ 2 + (nth p gz 0 ^ 2 + 0))))
         (seq 0 (size s))).
Proof.
  intros Hx Hy Hz. unfold sqr, amap, amap2, np_sum.
  cbn [shape data dtype_of].
  rewrite sum_sqrt3 by congruence. now rewrite Hx.
Qed.

(** The value of [dual_gap] for a candidate of rank 2 or 3 (the rank of
    the original image): no step of its computation fails. *)
Lemma dual_gap_value (im new gap : array) (weight : R) :
  wf new -> ndim new = ndim im -> (ndim im = 2 \/ ndim im = 3)%nat ->
  dual_gap im new gap weight
  = Ok (xmul (xdiv 0.5 (np_sum (sqr im)))
          (np_sum (sqr gap) + 2 * weight * TV new - np_sum (sqr im)
           + np_sum (sqr new))).
Proof.
  intros Hwf Hnd Hrank. unfold dual_gap.
  assert (H0 : (0 < ndim new)%nat) by lia.
  assert (H1 : (1 < ndim new)%nat) by lia.
  erewrite bind_bind_ok;
    [|apply (@zeros_diff new 0%nat _ Hwf H0);
      rewrite <- slice_butlast;
      exact (@resolve_axis_slice 0%nat (shape new) None (Some (-1)%Z) H0)].
  erewrite bind_bind_ok;
    [|apply (@zeros_diff new 1%nat _ Hwf H1);
      rewrite <- slice_butlast;
      exact (@resolve_axis_slice 1%nat (shape new) None (Some (-1)%Z) H1)].
  assert (L0 := @grad_comp_length R 0 Rminus new 0%nat Hwf H0).
  assert (L1 := @grad_comp_length R 0 Rminus new 1%nat Hwf H1).
  rewrite TV_flat by exact Hwf.
  destruct Hrank as [Hr|Hr]; rewrite Hr; cbn [Nat.eqb].
  - rewrite binop_same by reflexivity. cbn [bind].
    rewrite np_sum_sqrt2 by assumption.
    rewrite Hnd, Hr. cbn [seq map fold_right]. reflexivity.
  - assert (H2 : (2 < ndim new)%nat) by lia.
    erewrite bind_bind_ok;
      [|apply (@zeros_diff new 2%nat _ Hwf H2);
        rewrite <- slice_butlast;
        apply resolve_ellipsis_last; unfold ndim in *; lia].
    assert (L2 := @grad_comp_length R 0 Rminus new 2%nat Hwf H2).
    rewrite binop_same by reflexivity. cbn [bind].
    rewrite binop_same by reflexivity. cbn [bind].
    rewrite np_sum_sqrt3 by assumption.
    rewrite Hnd, Hr. cbn [seq map fold_right]. reflexivity.
Qed.

Lemma xdiv_finite (x y : R) : y <> 0 -> xdiv x y = Finite (x / y).
Proof. intros H. unfold xdiv. now destruct (Req_dec_T y 0). Qed.

Lemma map_nth_seq (l : list R) :
  map (fun p => nth p l 0) (seq 0 (length l)) = l.
Proof.
  apply nth_ext with (d := 0) (d' := 0);
    [now rewrite length_map, length_seq|].
  intros n Hn. rewrite length_map, length_seq in Hn.
  rewrite (nth_indep _ 0 ((fun p => nth p l 0) 0%nat))
    by (now rewrite length_map, length_seq).
  rewrite (map_nth (fun p => nth p l 0)), seq_nth by exact Hn.
  reflexivity.
Qed.

(** [(a ** 2).sum()] is the sum over the grid points of the squares. *)
Lemma np_sum_sqr (a : array) : wf a -> np_sum (sqr a) = sqnorm a.
Proof.
  intros Hwf. unfold np_sum, sqr, amap, sqnorm, item. cbn [data].
  rewrite <- (map_map (ravel (shape a)) (fun p => nth p (data a) 0 ^ 2)).
  rewrite ravel_grid, <- Hwf.
  rewrite <- (map_map (fun p => nth p (data a) 0) (fun x => x ^ 2)).
  now rewrite map_nth_seq.
Qed.

Lemma dual_gap_finite (im new gap : array) (weight : R) :
  wf new -> ndim new = ndim im -> (ndim im = 2 \/ ndim im = 3)%nat ->
  np_sum (sqr im) <> 0 ->
  dual_gap im new gap weight
  = Ok (Finite (0.5 / np_sum (sqr im)
                * (np_sum (sqr gap) + 2 * weight * TV new
                   - np_sum (sqr im) + np_sum (sqr new)))).
Proof.
  intros Hwf Hnd Hr Hn. rewrite dual_gap_value by assumption.
  now rewrite xdiv_finite.
Qed.

(** C4.  In exact real arithmetic, for an original image whose norm is
    not zero and a candidate of its shape, of rank 2 or 3, [dual_gap]
    returns
    [0.5 / |original|^2 * (|gap|^2 + 2 * weight * TV(candidate)
                            - |original|^2 + |candidate|^2)]
    where each squared norm is the sum over the grid points of the square
    of the element, and [TV] is the sum over the grid points of the
    Euclidean norm of the forward differences, zero at the last index of
    each axis. *)
Theorem dual_gap_formula (im new gap : array) (weight : R) :
  wf im -> wf new -> wf gap ->
  shape new = shape im -> shape gap = shape im ->
  (ndim im = 2 \/ ndim im = 3)%nat ->
  sqnorm im <> 0 ->
  dual_gap im new gap weight
  = Ok (Finite (0.5 / sqnorm im
                * (sqnorm gap + 2 * weight * TV new - sqnorm im
                   + sqnorm new))).
Proof.
  intros Hwi Hwf Hwg Hs _ Hr Hn.
  rewrite <- !np_sum_sqr in * by assumption.
  apply dual_gap_finite; [exact Hwf| |exact Hr|exact Hn].
  unfold ndim. now rewrite Hs.
Qed.

Lemma TV_gap_zero : TV gap_zero = 0.
Proof.
  unfold TV, fwd_diff, item, gap_zero.
  cbn [shape data ndim length seq map grid flat_map app fold_right ravel
       bump nth Nat.ltb Nat.leb size Nat.mul Nat.add].
  replace (sqrt ((0 - 0) ^ 2 + ((0 - 0) ^ 2 + 0))) with 0
    by (replace ((0 - 0) ^ 2 + ((0 - 0) ^ 2 + 0)) with 0 by lra;
        now rewrite sqrt_0).
  replace (sqrt ((0 - 0) ^ 2 + (0 ^ 2 + 0))) with 0
    by (replace ((0 - 0) ^ 2 + (0 ^ 2 + 0)) with 0 by lra;
        now rewrite sqrt_0).
  replace (sqrt (0 ^ 2 + ((0 - 0) ^ 2 + 0))) with 0
    by (replace (0 ^ 2 + ((0 - 0) ^ 2 + 0)) with 0 by lra;
        now rewrite sqrt_0).
  replace (sqrt (0 ^ 2 + (0 ^ 2 + 0))) with 0
    by (replace (0 ^ 2 + (0 ^ 2 + 0)) with 0 by lra;
        now rewrite sqrt_0).
  lra.
Qed.

(** C5 as it is stated fails: for the original image [[1, 0], [0, 0]],
    the candidate and the gap field zero and the weight 1, the value of
    [dual_gap] is the number [-0.5]. *)
Lemma dual_gap_negative :
  exists v, dual_gap gap_im gap_zero gap_zero 1 = Ok (Finite v) /\ v < 0.
Proof.
  assert (N : np_sum (sqr gap_im) = 1)
    by (unfold np_sum, sqr, amap, gap_im; cbn [data map fold_right]; lra).
  assert (Z : np_sum (sqr gap_zero) = 0)
    by (unfold np_sum, sqr, amap, gap_zero; cbn [data map fold_right];
        lra).
  eexists. split.
  - apply dual_gap_finite; [reflexivity|reflexivity|now left|].
    rewrite N. lra.
  - rewrite N, Z, TV_gap_zero. lra.
Qed.

End DualGap.

(** ** Which exceptions the solver raises *)

Lemma raises_bind (A B : Type) (P : exn -> Prop) (m : result A)
  (f : A -> result B) :
  raises_only P m -> (forall x, raises_only P (f x)) ->
  raises_only P (bind m f).
Proof. destruct m; simpl; auto. Qed.

Lemma raises_fold (A B : Type) (P : exn -> Prop)
  (step : result A -> B -> result A) (l : list B) (init : result A) :
  (forall acc d, raises_only P acc -> raises_only P (step acc d)) ->
  raises_only P init -> raises_only P (fold_left step l init).
Proof.
  intros Hs; revert init; induction l as [|d l IH]; intros init Hi; simpl;
    auto.
Qed.

Create HintDb other.

Ltac other_step :=
  first
    [ exact I
    | solve [auto with other]
    | progress cbn [bind raises_only]
    | progress cbv zeta
    | solve [unfold other_error; discriminate]
    | apply raises_bind; [|intros ?]
    | match goal with
      | |- raises_only _ (if ?b then _ else _) => destruct b
      | |- raises_only _ (let '(_, _) := ?x in _) => destruct x
      | |- raises_only _ (match ?x with _ => _ end) => destruct x
      end ].

Ltac other := repeat other_step.

Lemma other_norm_int z n : raises_only other_error (norm_int z n).
Proof. unfold norm_int. other. Qed.

#[local] Hint Resolve other_norm_int : other.

Lemma other_resolve s idx : raises_only other_error (resolve s idx).
Proof.
  revert s; induction idx as [|i idx IH]; intros s; cbn [resolve].
  - exact I.
  - destruct i; other.
Qed.

#[local] Hint Resolve other_resolve : other.

Lemma other_getitem (A : Type) (a : ndarray A) idx :
  raises_only other_error (getitem a idx).
Proof. unfold getitem. other. Qed.

Lemma other_setitem (A : Type) (a v : ndarray A) idx :
  raises_only other_error (setitem a idx v).
Proof. unfold setitem. other. Qed.

Lemma other_binop (A B C : Type) (f : A -> B -> C) a b :
  raises_only other_error (binop f a b).
Proof. unfold binop. other. Qed.

#[local] Hint Resolve other_getitem other_setitem other_binop : other.

Lemma other_iop (A : Type) (f : A -> A -> A) a idx v :
  raises_only other_error (iop f a idx v).
Proof. unfold iop. other. Qed.

Lemma other_np_diff (A : Type) (sub : A -> A -> A) a d :
  raises_only other_error (np_diff sub a d).
Proof. unfold np_diff. other. Qed.

#[local] Hint Resolve other_iop other_np_diff : other.

Lemma other_gradient (A : Type) (zero : A) (sub : A -> A -> A) img :
  raises_only other_error (gradient zero sub img).
Proof.
  unfold gradient. apply raises_bind; [|intros; exact I].
  apply raises_fold; [|exact I].
  intros acc d Hacc. unfold gradient_step. other.
Qed.

Lemma other_rollaxis (A : Type) (a : ndarray A) d :
  raises_only other_error (rollaxis_check a d).
Proof. unfold rollaxis_check. other. Qed.

#[local] Hint Resolve other_gradient other_rollaxis : other.

Lemma other_div grad : raises_only other_error (div grad).
Proof.
  unfold div. destruct (shape grad); [other|].
  apply raises_fold; [|exact I].
  intros acc d Hacc. unfold div_step. other.
Qed.

Lemma other_projector grad : raises_only other_error (_projector_on_dual grad).
Proof.
  unfold _projector_on_dual. apply raises_bind.
  - unfold np_sum_axis0. other.
  - intros sq. apply raises_fold; [|exact I].
    intros acc d Hacc. unfold projector_step. other.
Qed.

Lemma other_dual_gap im new gap w :
  raises_only other_error (dual_gap im new gap w).
Proof. unfold dual_gap. other. Qed.

Lemma other_np_max a : raises_only other_error (np_max a).
Proof. unfold np_max. other. Qed.

Lemma other_lookup name v : raises_only other_error (lookup name v).
Proof. unfold lookup. other. Qed.

#[local] Hint Resolve other_div other_projector other_dual_gap other_np_max
  other_lookup : other.

Lemma other_check p input_img gap neg old :
  raises_only other_error (fista_check p input_img gap neg old).
Proof. unfold fista_check. other. Qed.

Lemma other_ascent p L st : raises_only other_error (fista_ascent p L st).
Proof. unfold fista_ascent. other. Qed.

#[local] Hint Resolve other_check other_ascent : other.

Lemma other_body p input_img L st :
  raises_only other_error (fista_body p input_img L st).
Proof. unfold fista_body. other. Qed.

#[local] Hint Resolve other_body : other.

Lemma other_while fuel p input_img L st :
  raises_only other_error (fista_while fuel p input_img L st).
Proof.
  revert st; induction fuel as [|fuel IH]; intros st; cbn [fista_while].
  - exact I.
  - other.
Qed.

Lemma other_output p input_img st :
  raises_only other_error (fista_output p input_img st).
Proof. unfold fista_output. other. Qed.

(** ** The solver: dimensions *)

Section Dimensions.

Open Scope R_scope.

Lemma fista_init_value (p : params) (im : array) :
  let input_img :=
    if Ascii.eqb (kind (dtype_of im)) "f" then im else astype_float im in
  fista_init p im
  = (L <- lipschitz (ndim im) ;;
     Ok (input_img, L,
         mkstate
           (np_zeros 0 (ndim im :: shape im) float64)
           (np_zeros 0 (ndim im :: shape im) float64)
           1 0 (amap Ropp input_img)
           (if bounded p then Some (amap Ropp input_img) else None)
           None 0)).
Proof.
  unfold fista_init. destruct (Ascii.eqb (kind (dtype_of im)) "f");
    reflexivity.
Qed.

Lemma lipschitz_cases (n : nat) :
  (n = 2%nat /\ lipschitz n = Ok 9)
  \/ (n = 3%nat /\ lipschitz n = Ok 12)
  \/ (n <> 2%nat /\ n <> 3%nat
      /\ lipschitz n = Raise (ValueError unsupported)).
Proof.
  unfold lipschitz.
  destruct (Nat.eqb_spec n 2) as [->|H2]; [now left|].
  destruct (Nat.eqb_spec n 3) as [->|H3]; [right; now left|].
  right; right. auto.
Qed.

Lemma other_after_init (p : params) (im input_img : array) L st :
  fista_init p im = Ok (input_img, L, st) ->
  tv_denoise_fista p im <> Raise (ValueError unsupported).
Proof.
  intros E H. unfold tv_denoise_fista, fista_run in H. rewrite E in H.
  cbn [bind] in H.
  pose proof (other_while (Z.to_nat (n_iter_max p)) p input_img L st) as Hw.
  destruct (fista_while (Z.to_nat (n_iter_max p)) p input_img L st)
    as [st'|e]; cbn [bind raises_only] in H, Hw.
  - pose proof (other_output p input_img st') as Ho.
    destruct (fista_output p input_img st') as [out|e];
      cbn [bind raises_only] in H, Ho; [discriminate|].
    injection H as ->. now apply Ho.
  - injection H as ->. now apply Hw.
Qed.

(** C9.  [tv_denoise_fista] raises the error for an image that is not 2D
    or 3D exactly when the rank of the image is neither 2 nor 3, and it
    does so before its loop; the Lipschitz constant it goes on with is 9
    for rank 2 and 12 for rank 3. *)
Theorem unsupported_dimensionality (p : params) (im : array) :
  (fista_init p im = Raise (ValueError unsupported)
   <-> ndim im <> 2%nat /\ ndim im <> 3%nat)
  /\ (tv_denoise_fista p im = Raise (ValueError unsupported)
      <-> ndim im <> 2%nat /\ ndim im <> 3%nat)
  /\ (ndim im = 2%nat ->
      exists input_img st, fista_init p im = Ok (input_img, 9, st))
  /\ (ndim im = 3%nat ->
      exists input_img st, fista_init p im = Ok (input_img, 12, st)).
Proof.
  pose proof (fista_init_value p im) as E. cbv zeta in E.
  destruct (lipschitz_cases (ndim im)) as [[Hn HL]|[[Hn HL]|[H2 [H3 HL]]]];
    rewrite HL in E; cbn [bind] in E.
  - split; [|split; [|split]].
    + rewrite E. split; [discriminate|lia].
    + split; [|lia]. intros H. exfalso.
      exact (@other_after_init _ _ _ _ _ E H).
    + intros _. eauto.
    + lia.
  - split; [|split; [|split]].
    + rewrite E. split; [discriminate|lia].
    + split; [|lia]. intros H. exfalso.
      exact (@other_after_init _ _ _ _ _ E H).
    + lia.
    + intros _. eauto.
  - split; [|split; [|split]].
    + rewrite E. split; auto.
    + unfold tv_denoise_fista, fista_run. rewrite E. cbn [bind].
      split; auto.
    + lia.
    + lia.
Qed.

End Dimensions.

(** ** The solver: bounds and iterations *)

Section Solver.

Open Scope R_scope.


Lemma opp_opp (v : option R) : option_map Ropp (option_map Ropp v) = v.
Proof. destruct v; simpl; [now rewrite Ropp_involutive|reflexivity]. Qed.

Lemma fista_output_value p input_img st out :
  fista_output p input_img st = Ok out ->
  exists g output,
    gap st = Some g /\ binop Rminus input_img g = Ok output
    /\ out = if bounded p then clip (val_min p) (val_max p) output
             else output.
Proof.
  unfold fista_output, lookup. destruct (gap st) as [g|]; [|discriminate].
  cbn [bind].
  destruct (binop Rminus input_img g) as [o|] eqn:Eo; [|discriminate].
  cbn [bind]. rewrite !opp_opp. intros H. exists g, o.
  split; [reflexivity|]. split; [exact Eo|].
  destruct (bounded p); now injection H.
Qed.


Lemma fista_body_counters p input_img L st s1 brk :
  fista_body p input_img L st = Ok (s1, brk) ->
  iters s1 = S (iters st) /\ i s1 = i st.
Proof.
  intros Eb. unfold fista_body in Eb.
  repeat match type of Eb with
         | bind ?m _ = _ => destruct m; [cbn [bind] in Eb|discriminate]
         end.
  destruct (check_gap_frequency p =? 0)%Z; [discriminate|].
  destruct (i st mod check_gap_frequency p =? 0)%Z.
  - match type of Eb with
    | bind ?m _ = _ => destruct m as [[? ?]|];
                       [cbn [bind] in Eb|discriminate]
    end.
    injection Eb as <- _. auto.
  - injection Eb as <- _. auto.
Qed.

(** The loop enters its body at most [n_iter_max] times. *)
Lemma fista_while_iters fuel p input_img L st st' :
  fista_while fuel p input_img L st = Ok st' ->
  (iters st' <= iters st + fuel)%nat.
Proof.
  revert st; induction fuel as [|fuel IH]; intros st H; cbn [fista_while] in H.
  - injection H as <-. lia.
  - destruct (i st <? n_iter_max p)%Z; [|injection H as <-; lia].
    destruct (fista_body p input_img L st) as [[s1 brk]|] eqn:Eb;
      [|discriminate].
    cbn [bind] in H.
    destruct (fista_body_counters _ _ _ _ Eb) as [Hs1 _].
    destruct brk.
    + injection H as <-. lia.
    + apply IH in H. cbn [iters] in H. lia.
Qed.

(** The fuel that [tv_denoise_fista] gives to the loop is enough: with
    more of it the loop does the same, so it ends by its own test or by
    [break]. *)
Lemma fista_while_fuel fuel p input_img L st :
  (n_iter_max p - i st <= Z.of_nat fuel)%Z ->
  fista_while (S fuel) p input_img L st = fista_while fuel p input_img L st.
Proof.
  revert st; induction fuel as [|fuel IH]; intros st H.
  - cbn [fista_while].
    destruct (Z.ltb_spec (i st) (n_iter_max p)); [lia|reflexivity].
  - change (fista_while (S (S fuel)) p input_img L st)
      with (if (i st <? n_iter_max p)%Z
            then r <- fista_body p input_img L st ;;
                 let '(st', brk) := r in
                 if brk then Ok st'
                 else fista_while (S fuel) p input_img L
                        (mkstate (grad_im st') (grad_aux st') (t st')
                           (i st' + 1)%Z (negated_output st')
                           (negated_output_old st') (gap st') (iters st'))
            else Ok st).
    cbn [fista_while].
    destruct (i st <? n_iter_max p)%Z; [|reflexivity].
    destruct (fista_body p input_img L st) as [[s1 brk]|] eqn:Eb;
      [|reflexivity].
    cbn [bind]. destruct brk; [reflexivity|].
    destruct (fista_body_counters _ _ _ _ Eb) as [_ Hi].
    rewrite <- IH; [reflexivity|]. cbn [i]. lia.
Qed.

Lemma fista_run_iters p im out st :
  fista_run p im = Ok (out, st) ->
  (Z.of_nat (iters st) <= Z.max 0 (n_iter_max p))%Z.
Proof.
  intros H. unfold fista_run in H.
  pose proof (fista_init_value p im) as E. cbv zeta in E. rewrite E in H.
  destruct (lipschitz (ndim im)) as [L|]; [|discriminate].
  cbn [bind] in H.
  match type of H with
  | bind (fista_while ?f _ ?a ?b ?c) _ = _ =>
      destruct (fista_while f p a b c) as [st'|] eqn:Ew; [|discriminate]
  end.
  cbn [bind] in H. apply fista_while_iters in Ew. cbn [iters] in Ew.
  destruct (fista_output _ _ st'); [|discriminate].
  cbn [bind] in H. injection H as _ <-. lia.
Qed.

(** C8, at the input where it fails.  With [n_iter_max <= 0] the loop is
    not entered, [gap] is never assigned, and the statement after the
    loop raises [UnboundLocalError] instead of returning an array. *)
Theorem no_iteration_unbound_gap (p : params) (im : array) :
  (n_iter_max p <= 0)%Z -> (ndim im = 2 \/ ndim im = 3)%nat ->
  tv_denoise_fista p im = Raise (UnboundLocalError "gap").
Proof.
  intros Hn Hr. unfold tv_denoise_fista, fista_run.
  pose proof (fista_init_value p im) as E. cbv zeta in E. rewrite E.
  assert (HL : exists L, lipschitz (ndim im) = Ok L).
  { destruct Hr as [-> | ->]; eexists; reflexivity. }
  destruct HL as [L ->]. cbn [bind].
  replace (Z.to_nat (n_iter_max p)) with 0%nat by lia.
  reflexivity.
Qed.

Lemma shape_eqb_true (s s' : list nat) : s = s' -> shape_eqb s s' = true.
Proof. intros ->. apply shape_eqb_refl. Qed.

Lemma gradient_wf (img : array) :
  wf img ->
  wf (mkarray (dtype_of img) (ndim img :: shape img)
        (concat (map (grad_comp 0 Rminus img) (seq 0 (ndim img))))).
Proof.
  intros Hwf. unfold wf. cbn [data shape].
  erewrite length_concat_uniform.
  - rewrite length_map, length_seq. reflexivity.
  - apply Forall_forall. intros b Hb. apply in_map_iff in Hb.
    destruct Hb as [d [<- Hd]]. apply in_seq in Hd.
    apply grad_comp_length; [assumption|lia].
Qed.

Lemma nth_map_opp (l : list R) n : nth n (map Ropp l) 0 = - nth n l 0.
Proof.
  revert n; induction l as [|x l IH]; intros [|n]; simpl; auto; lra.
Qed.

Lemma fwd_diff_opp (a : array) k idx :
  fwd_diff (amap Ropp a) k idx = - fwd_diff a k idx.
Proof.
  unfold fwd_diff, item, amap. cbn [shape data].
  destruct (Nat.ltb (S (nth k idx 0%nat)) (nth k (shape a) 0%nat)).
  - rewrite !nth_map_opp. lra.
  - lra.
Qed.

(** C2, as the code has it.  When [lipschitz_constant * weight] is not
    zero, the ascent step adds to [grad_aux] (the momentum field)
    [1 / (lipschitz_constant * weight)] times the gradient of
    [negated_output] itself, the variable that holds the primal estimate
    in negated form; in terms of the negation of that variable (the
    primal estimate proper) the gradient is subtracted. *)
Theorem ascent_step_gradient (p : params) (L : R) (st : state) :
  wf (negated_output st) -> wf (grad_aux st) ->
  shape (grad_aux st)
  = ndim (negated_output st) :: shape (negated_output st) ->
  L * weight p <> 0 ->
  exists aux',
    fista_ascent p L st = Ok aux'
    /\ shape aux' = shape (grad_aux st)
    /\ forall k idx,
         (k < ndim (negated_output st))%nat ->
         in_range (shape (negated_output st)) idx ->
         item 0 aux' (k :: idx)
         = item 0 (grad_aux st) (k :: idx)
           + 1 / (L * weight p) * fwd_diff (negated_output st) k idx
         /\ item 0 aux' (k :: idx)
            = item 0 (grad_aux st) (k :: idx)
              - 1 / (L * weight p)
                * fwd_diff (amap Ropp (negated_output st)) k idx.
Proof.
  intros Hwf Hwa Hs HLw. unfold fista_ascent.
  rewrite gradient_blocks by exact Hwf. cbn [bind].
  destruct (Req_dec_T (L * weight p) 0) as [E0|_]; [contradiction|].
  pose proof (gradient_wf Hwf) as Hwg.
  rewrite iop_whole;
    [|exact Hwa
     |unfold wf, amap; cbn [data shape]; rewrite length_map; exact Hwg
     |exact Hs].
  eexists. split; [reflexivity|]. split; [reflexivity|].
  intros k idx Hk Hr. unfold amap at 1 2. cbn [dtype_of shape data].
  assert (E : item 0
                (mkarray (dtype_of (grad_aux st)) (shape (grad_aux st))
                   (map2 Rplus (data (grad_aux st))
                      (map (fun x => x * (1 / (L * weight p)))
                         (concat (map (grad_comp 0 Rminus (negated_output st))
                                    (seq 0 (ndim (negated_output st))))))))
                (k :: idx)
              = item 0 (grad_aux st) (k :: idx)
                + 1 / (L * weight p) * fwd_diff (negated_output st) k idx).
  { pose proof (item_gradient 0 Rminus Hwf Hk Hr) as Eg.
    unfold wf in Hwg, Hwa.
    cbn [data shape] in Hwg. rewrite Hs in Hwa.
    unfold item in *. cbn [shape data] in *. rewrite Hs.
    cbn [ravel] in *.
    assert (Hpos : (k * size (shape (negated_output st))
                    + ravel (shape (negated_output st)) idx
                    < size (ndim (negated_output st)
                              :: shape (negated_output st)))%nat).
    { pose proof (ravel_lt Hr). cbn [size fold_right].
      fold (size (shape (negated_output st))). nia. }
    rewrite nth_map2 by (rewrite ?length_map; lia).
    rewrite (nth_indep (map _ _) 0 ((fun x => x * (1 / (L * weight p))) 0))
      by (rewrite length_map; lia).
    rewrite (map_nth (fun x => x * (1 / (L * weight p)))), Eg.
    unfold fwd_diff, item. lra. }
  split; [exact E|]. rewrite E, fwd_diff_opp. lra.
Qed.

(** C2 as it is stated fails: at the first turn of the loop for the image
    [[1, 0], [0, 0]], what the ascent step computes is not what is got
    from the gradient of the negation of [negated_output]. *)
Lemma ascent_step_not_of_negation :
  fista_ascent cx_params 9 cx_state
  <> (g <- gradient 0 Rminus (amap Ropp (negated_output cx_state)) ;;
      binop Rplus (grad_aux cx_state)
        (amap (fun x => x * (1 / (9 * weight cx_params))) g)).
Proof.
  unfold fista_ascent.
  destruct (Req_dec_T (9 * weight cx_params) 0) as [E0|_].
  - exfalso. cbn [weight cx_params] in E0. lra.
  - vm_compute. intros H. injection H as H _. lra.
Qed.

End Solver.

(** ** The solver returns *)

Section Totality.

Open Scope R_scope.

Lemma wf_amap (A B : Type) (f : A -> B) (a : ndarray A) :
  wf a -> wf (amap f a).
Proof. unfold wf, amap. cbn [data shape]. now rewrite length_map. Qed.

Lemma wf_amap2 (A B C : Type) (f : A -> B -> C) (a : ndarray A)
  (b : ndarray B) :
  wf a -> wf b -> shape a = shape b -> wf (amap2 f a b).
Proof.
  unfold wf, amap2. cbn [data shape]. intros Ha Hb Hs.
  rewrite map2_length, Ha, Hb, Hs. apply Nat.min_id.
Qed.

Lemma size_pos (s : list nat) : axes_ge2 s -> (0 < size s)%nat.
Proof.
  induction 1 as [|n s Hn _ IH]; simpl; [lia|]. nia.
Qed.

Lemma np_max_ok (a : array) :
  wf a -> (0 < size (shape a))%nat -> exists m, np_max a = Ok m.
Proof.
  unfold wf, np_max. intros Hw Hp.
  destruct (data a); simpl in Hw; [lia|]. eauto.
Qed.

Lemma wf_clip lo hi (a : array) : wf a -> wf (clip lo hi a).
Proof. apply wf_amap. Qed.

(** The value of the ascent step: [grad_aux], to which the gradient of
    [negated_output] times the step is added in place. *)
Lemma fista_ascent_value p L st :
  L * weight p <> 0 ->
  wf (negated_output st) -> wf (grad_aux st) ->
  shape (grad_aux st)
  = ndim (negated_output st) :: shape (negated_output st) ->
  fista_ascent p L st
  = Ok (mkarray (dtype_of (grad_aux st)) (shape (grad_aux st))
          (map2 Rplus (data (grad_aux st))
             (map (fun x => x * (1 / (L * weight p)))
                (concat (map (grad_comp 0 Rminus (negated_output st))
                           (seq 0 (ndim (negated_output st)))))))).
Proof.
  intros HLw Hwn Hwa Hsa. unfold fista_ascent.
  rewrite gradient_blocks by exact Hwn. cbn [bind].
  destruct (Req_dec_T (L * weight p) 0) as [E0|_]; [contradiction|].
  rewrite iop_whole; [reflexivity|exact Hwa| |exact Hsa].
  apply wf_amap, gradient_wf, Hwn.
Qed.

(** The ascent step in a state that satisfies the invariant. *)
Lemma fista_ascent_ok p L s st :
  L * weight p <> 0 ->
  loop_inv p s st ->
  exists aux, fista_ascent p L st = Ok aux
              /\ wf aux /\ shape aux = length s :: s.
Proof.
  intros HLw (Hwn & Hsn & Hwa & Hsa & _).
  assert (Hsh : shape (grad_aux st)
                = ndim (negated_output st) :: shape (negated_output st))
    by (unfold ndim; now rewrite Hsa, Hsn).
  rewrite (@fista_ascent_value p L st HLw Hwn Hwa Hsh).
  eexists. split; [reflexivity|]. split; [|exact Hsa].
  unfold wf. cbn [data shape]. rewrite map2_length, length_map, Hwa.
  pose proof (gradient_wf Hwn) as Hwg. unfold wf in Hwg.
  cbn [data shape] in Hwg. rewrite Hwg, Hsh. apply Nat.min_id.
Qed.

Lemma fista_check_ok p (input_img g neg : array) old s :
  shape input_img = s -> (length s = 2 \/ length s = 3)%nat ->
  axes_ge2 s -> wf neg -> shape neg = s ->
  (bounded p = true -> exists o, old = Some o /\ shape o = s /\ wf o) ->
  exists old' brk,
    fista_check p input_img g neg old = Ok (old', brk)
    /\ (bounded p = true ->
        exists o, old' = Some o /\ shape o = s /\ wf o).
Proof.
  intros Hsi Hr Hge Hwn Hsn Hold. unfold fista_check.
  destruct (bounded p) eqn:Hb.
  - destruct (Hold eq_refl) as [o [-> [Hso Hwo]]]. cbn [lookup bind].
    rewrite binop_same by congruence. cbn [bind].
    destruct (@np_max_ok (amap Rabs (amap2 Rminus o neg))) as [m1 ->].
    { apply wf_amap, wf_amap2; congruence. }
    { cbn [amap amap2 shape]. rewrite Hso. now apply size_pos. }
    cbn [bind].
    destruct (@np_max_ok (amap Rabs neg)) as [m2 ->].
    { now apply wf_amap. }
    { cbn [amap shape]. rewrite Hsn. now apply size_pos. }
    cbn [bind]. destruct (xlt (xdiv m1 m2) (eps p)); eauto 8.
  - rewrite dual_gap_value.
    + cbn [bind]. destruct (xlt _ (eps p)); eexists _, _;
        (split; [reflexivity|discriminate]).
    + now apply wf_amap.
    + unfold ndim. cbn [amap shape]. congruence.
    + unfold ndim. now rewrite Hsi.
Qed.

Lemma fista_body_ok p (input_img : array) L s st :
  wf input_img -> shape input_img = s ->
  (length s = 2 \/ length s = 3)%nat -> axes_ge2 s ->
  check_gap_frequency p <> 0%Z ->
  L * weight p <> 0 ->
  loop_inv p s st ->
  exists st' brk,
    fista_body p input_img L st = Ok (st', brk)
    /\ loop_inv p s st' /\ gap st' <> None /\ i st' = i st.
Proof.
  intros Hwi Hsi Hr Hge Hcg HLw Hinv. unfold fista_body.
  destruct (fista_ascent_ok HLw Hinv) as [aux [-> [Hwa Hsa]]]. cbn [bind].
  destruct Hinv as (Hwn & Hsn & _ & _ & Hwg & Hsg & Hold & _).
  assert (Hne : s <> []) by (intros ->; cbn [length] in Hr; lia).
  destruct (projector_flat Hsa Hwa Hne) as [prj [-> [Hsp [_ [Hwp _]]]]].
  cbn [bind].
  rewrite binop_same by (cbn [amap shape]; congruence). cbn [bind].
  rewrite (div_blocks Hsp Hwp (Nat.le_refl _)).
  2:{ intros d Hd. unfold axes_ge2 in Hge. rewrite Forall_forall in Hge.
      apply Hge. now apply nth_In. }
  cbn [bind].
  set (dv := mkarray float64 s
               (div_data s (chunks (size s) (length s) (data prj))
                  (length s))).
  assert (Hwd : wf dv).
  { unfold wf, dv. cbn [data shape]. apply div_data_length; [lia|].
    intros d Hd. split.
    - pose proof (chunks_all_length (size s) (length s) (data prj)) as HF.
      rewrite Forall_forall in HF. apply HF.
      + rewrite Hwp, Hsp. reflexivity.
      + apply nth_In. now rewrite chunks_length.
    - unfold axes_ge2 in Hge. rewrite Forall_forall in Hge.
      apply Hge. now apply nth_In. }
  rewrite binop_same by (cbn [amap shape dv]; congruence). cbn [bind].
  set (gp := amap (Rmult (weight p)) dv).
  set (neg := if bounded p
              then clip (option_map Ropp (val_max p))
                     (option_map Ropp (val_min p))
                     (amap2 Rminus gp input_img)
              else amap2 Rminus gp input_img).
  assert (Hwgp : wf gp) by (apply wf_amap; exact Hwd).
  assert (Hwneg : wf neg /\ shape neg = s).
  { assert (wf (amap2 Rminus gp input_img))
      by (apply wf_amap2; [assumption|assumption|cbn [gp amap dv shape];
                           congruence]).
    unfold neg. destruct (bounded p); split; try reflexivity;
      try assumption. now apply wf_clip. }
  destruct Hwneg as [Hwneg Hsneg].
  assert (Hnew : wf (amap2 Rminus (amap (Rmult (1 + (t st - 1)
                        / (1 / 2 * (1 + sqrt (1 + 4 * t st ^ 2))))) prj)
                       (amap (Rmult ((t st - 1)
                        / (1 / 2 * (1 + sqrt (1 + 4 * t st ^ 2)))))
                          (grad_im st)))).
  { apply wf_amap2; [now apply wf_amap|now apply wf_amap|].
    cbn [amap shape]. congruence. }
  destruct (Z.eqb_spec (check_gap_frequency p) 0) as [E|_]; [contradiction|].
  destruct (i st mod check_gap_frequency p =? 0)%Z.
  - destruct (@fista_check_ok p input_img gp neg (negated_output_old st) s)
      as [old' [brk [-> Hold']]]; auto.
    cbn [bind]. eexists _, _. split; [reflexivity|].
    split; [|split; [discriminate|reflexivity]].
    unfold loop_inv. cbn [negated_output grad_aux grad_im
                            negated_output_old gap].
    split; [exact Hwneg|]. split; [exact Hsneg|]. split; [exact Hnew|].
    split; [cbn [amap2 amap shape]; congruence|].
    split; [exact Hwp|]. split; [exact Hsp|]. split; [exact Hold'|].
    intros g0 Hg0. injection Hg0 as <-. split; [reflexivity|exact Hwgp].
  - eexists _, _. split; [reflexivity|].
    split; [|split; [discriminate|reflexivity]].
    unfold loop_inv. cbn [negated_output grad_aux grad_im
                            negated_output_old gap].
    split; [exact Hwneg|]. split; [exact Hsneg|]. split; [exact Hnew|].
    split; [cbn [amap2 amap shape]; congruence|].
    split; [exact Hwp|]. split; [exact Hsp|]. split; [exact Hold|].
    intros g0 Hg0. injection Hg0 as <-. split; [reflexivity|exact Hwgp].
Qed.

Lemma fista_while_ok p (input_img : array) L s fuel st :
  wf input_img -> shape input_img = s ->
  (length s = 2 \/ length s = 3)%nat -> axes_ge2 s ->
  check_gap_frequency p <> 0%Z ->
  L * weight p <> 0 ->
  loop_inv p s st ->
  exists st',
    fista_while fuel p input_img L st = Ok st'
    /\ loop_inv p s st'
    /\ (gap st <> None \/ ((0 < fuel)%nat /\ (i st < n_iter_max p)%Z) ->
        gap st' <> None).
Proof.
  intros Hwi Hsi Hr Hge Hcg HLw. revert st.
  induction fuel as [|fuel IH]; intros st Hinv; cbn [fista_while].
  - exists st. split; [reflexivity|]. split; [exact Hinv|].
    intros [H|[H _]]; [exact H|lia].
  - destruct (Z.ltb_spec (i st) (n_iter_max p)) as [Hlt|Hge'].
    + destruct (fista_body_ok Hwi Hsi Hr Hge Hcg HLw Hinv)
        as [s1 [brk [-> [Hinv1 [Hg1 Hi1]]]]].
      cbn [bind]. destruct brk.
      * exists s1. auto.
      * destruct (IH (mkstate (grad_im s1) (grad_aux s1) (t s1)
                        (i s1 + 1)%Z (negated_output s1)
                        (negated_output_old s1) (gap s1) (iters s1)))
          as [st' [-> [Hinv' Hg']]].
        { exact Hinv1. }
        exists st'. split; [reflexivity|]. split; [exact Hinv'|].
        intros _. apply Hg'. left. exact Hg1.
    + exists st. split; [reflexivity|]. split; [exact Hinv|].
      intros [H|[_ H]]; [exact H|lia].
Qed.

Lemma lipschitz_weight (n : nat) (w : R) :
  (n = 2 \/ n = 3)%nat -> w <> 0 ->
  exists L, lipschitz n = Ok L /\ L * w <> 0.
Proof.
  intros [-> | ->] Hw; eexists; (split; [reflexivity|]);
    intros H; apply Rmult_integral in H; destruct H; lra.
Qed.

(** For an image of rank 2 or 3 whose axes all have at least two
    elements, a weight that is not zero, at least one iteration allowed
    and a frequency of the checks that is not zero, [tv_denoise_fista]
    returns an array of the shape of the image. *)
Lemma fista_returns (p : params) (im : array) :
  wf im -> (ndim im = 2 \/ ndim im = 3)%nat -> axes_ge2 (shape im) ->
  weight p <> 0 ->
  (1 <= n_iter_max p)%Z -> check_gap_frequency p <> 0%Z ->
  exists out,
    tv_denoise_fista p im = Ok out /\ shape out = shape im /\ wf out.
Proof.
  intros Hwf Hr Hge Hw Hn Hcg. unfold tv_denoise_fista, fista_run.
  pose proof (fista_init_value p im) as E. cbv zeta in E. rewrite E.
  clear E.
  destruct (lipschitz_weight Hr Hw) as [L [-> HLw]]. cbn [bind].
  set (input_img := if Ascii.eqb (kind (dtype_of im)) "f"
                    then im else astype_float im).
  assert (Hin : wf input_img /\ shape input_img = shape im).
  { unfold input_img. destruct (Ascii.eqb (kind (dtype_of im)) "f");
      split; auto. }
  destruct Hin as [Hwi Hsi].
  match goal with
  | |- context [fista_while ?f p input_img L ?st0] =>
      destruct (@fista_while_ok p input_img L (shape im) f st0)
        as [st' [-> [Hinv Hg]]]; auto
  end.
  { unfold loop_inv. cbn [negated_output grad_aux grad_im
                            negated_output_old gap].
    split; [now apply wf_amap|]. split; [exact Hsi|].
    split; [unfold wf, np_zeros; cbn [data shape]; apply repeat_length|].
    split; [reflexivity|].
    split; [unfold wf, np_zeros; cbn [data shape]; apply repeat_length|].
    split; [reflexivity|]. split.
    - intros ->. eexists. split; [reflexivity|].
      split; [exact Hsi|now apply wf_amap].
    - intros g [=]. }
  cbn [bind]. unfold fista_output.
  destruct (gap st') as [g|] eqn:Eg.
  2:{ exfalso. apply Hg; [|reflexivity]. right. cbn [i]. lia. }
  destruct Hinv as (_ & _ & _ & _ & _ & _ & _ & Hgap).
  destruct (Hgap g Eg) as [Hsg Hwg].
  cbn [lookup bind]. rewrite binop_same by congruence. cbn [bind].
  assert (Hwo : wf (amap2 Rminus input_img g))
    by (apply wf_amap2; congruence).
  destruct (bounded p); cbn [bind fst]; eexists;
    (split; [reflexivity|]); split; try exact Hsi; try exact Hwo.
  now apply wf_clip.
Qed.


End Totality.

(** ** The dual gap of the iterates is not negative *)

Section WeakDuality.

Open Scope R_scope.

Lemma Rsum_plus (A : Type) (f g : A -> R) (l : list A) :
  Rsum (map (fun x => f x + g x) l) = Rsum (map f l) + Rsum (map g l).
Proof.
  unfold Rsum. induction l as [|x l IH]; simpl; [lra|]. rewrite IH. lra.
Qed.

Lemma Rsum_scal (A : Type) (c : R) (f : A -> R) (l : list A) :
  Rsum (map (fun x => c * f x) l) = c * Rsum (map f l).
Proof.
  unfold Rsum. induction l as [|x l IH]; simpl; [lra|]. rewrite IH. lra.
Qed.

Lemma Rsum_nonneg (A : Type) (f : A -> R) (l : list A) :
  (forall x, In x l -> 0 <= f x) -> 0 <= Rsum (map f l).
Proof.
  unfold Rsum. induction l as [|x l IH]; intros H; simpl; [lra|].
  pose proof (H x (or_introl eq_refl)).
  assert (0 <= fold_right Rplus 0 (map f l)) by (apply IH; auto with datatypes).
  lra.
Qed.

Lemma Rsum_zero (A : Type) (l : list A) : Rsum (map (fun _ => 0) l) = 0.
Proof.
  unfold Rsum. induction l as [|x l IH]; simpl; [reflexivity|].
  rewrite IH. lra.
Qed.

Lemma Rsum_cons (x : R) (l : list R) : Rsum (x :: l) = x + Rsum l.
Proof. reflexivity. Qed.

Lemma Rsum_swap (A B : Type) (f : A -> B -> R) (K : list A) (P : list B) :
  Rsum (map (fun d => Rsum (map (fun p => f d p) P)) K)
  = Rsum (map (fun p => Rsum (map (fun d => f d p) K)) P).
Proof.
  induction K as [|d K IH]; cbn [map].
  - symmetry. apply Rsum_zero.
  - rewrite Rsum_cons, IH, <- Rsum_plus. reflexivity.
Qed.

Lemma dot_as_sum (l l' : list R) :
  length l = length l' ->
  dot l l' = Rsum (map (fun p => nth p l 0 * nth p l' 0) (seq 0 (length l))).
Proof.
  revert l'; induction l as [|x l IH]; intros [|y l'] H; simpl in H;
    try discriminate; [reflexivity|].
  rewrite dot_cons. cbn [length seq map]. unfold Rsum. cbn [fold_right nth].
  f_equal. rewrite <- seq_shift, map_map. cbn [nth]. apply IH. lia.
Qed.

Lemma quad_nonneg (K : list nat) (a b : nat -> R) (u : R) :
  0 <= Rsum (map (fun k => a k ^ 2) K)
       + 2 * u * Rsum (map (fun k => a k * b k) K)
       + u ^ 2 * Rsum (map (fun k => b k ^ 2) K).
Proof.
  induction K as [|k K IH]; cbn [map]; [unfold Rsum; simpl; lra|].
  rewrite !Rsum_cons. pose proof (pow2_ge_0 (a k + u * b k)) as Hk.
  match goal with
  | |- 0 <= ?e =>
      replace e
        with (Rsum (map (fun k => a k ^ 2) K)
              + 2 * u * Rsum (map (fun k => a k * b k) K)
              + u ^ 2 * Rsum (map (fun k => b k ^ 2) K)
              + (a k + u * b k) ^ 2) by ring
  end.
  lra.
Qed.

Lemma cauchy_schwarz (K : list nat) (a b : nat -> R) :
  Rsum (map (fun k => a k * b k) K) ^ 2
  <= Rsum (map (fun k => a k ^ 2) K) * Rsum (map (fun k => b k ^ 2) K).
Proof.
  set (AB := Rsum (map (fun k => a k * b k) K)).
  set (SA := Rsum (map (fun k => a k ^ 2) K)).
  set (SB := Rsum (map (fun k => b k ^ 2) K)).
  assert (HSB : 0 <= SB).
  { apply Rsum_nonneg. intros k _. apply pow2_ge_0. }
  assert (HSA : 0 <= SA).
  { apply Rsum_nonneg. intros k _. apply pow2_ge_0. }
  destruct (Req_dec SB 0) as [E0|Hne].
  - rewrite E0, Rmult_0_r.
    destruct (Req_dec AB 0) as [->|HAB]; [lra|]. exfalso.
    pose proof (quad_nonneg K a b (- (SA + 1) / (2 * AB))) as Hq.
    fold AB SA SB in Hq. rewrite E0, Rmult_0_r, Rplus_0_r in Hq.
    replace (SA + 2 * (- (SA + 1) / (2 * AB)) * AB) with (-1) in Hq
      by (field; exact HAB).
    lra.
  - pose proof (quad_nonneg K a b (- AB / SB)) as Hq.
    fold AB SA SB in Hq.
    replace (SA + 2 * (- AB / SB) * AB + (- AB / SB) ^ 2 * SB)
      with (SA - AB ^ 2 / SB) in Hq by (field; exact Hne).
    assert (HSBp : 0 < SB) by lra.
    assert (AB ^ 2 / SB <= SA) by lra.
    apply Rmult_le_compat_r with (r := SB) in H; [|lra].
    unfold Rdiv in H. rewrite Rmult_assoc, Rinv_l, Rmult_1_r in H by lra.
    exact H.
Qed.

(** At a grid point where the dual field has norm at most 1, the norm of
    the gradient dominates its product with the field. *)
Lemma norm_plus_product_nonneg (K : list nat) (a b : nat -> R) :
  sqrt (Rsum (map (fun k => b k ^ 2) K)) <= 1 ->
  0 <= sqrt (Rsum (map (fun k => a k ^ 2) K))
       + Rsum (map (fun k => a k * b k) K).
Proof.
  intros Hb.
  set (AB := Rsum (map (fun k => a k * b k) K)).
  set (SA := Rsum (map (fun k => a k ^ 2) K)).
  set (SB := Rsum (map (fun k => b k ^ 2) K)) in *.
  assert (HSB : 0 <= SB).
  { apply Rsum_nonneg. intros k _. apply pow2_ge_0. }
  assert (HSA : 0 <= SA).
  { apply Rsum_nonneg. intros k _. apply pow2_ge_0. }
  pose proof (cauchy_schwarz K a b) as HCS. fold AB SA SB in HCS.
  assert (HSB1 : SB <= 1).
  { rewrite <- (sqrt_sqrt SB HSB). pose proof (sqrt_pos SB). nra. }
  pose proof (sqrt_pos SA) as Hp.
  destruct (Rle_dec 0 AB) as [Hpos|Hneg]; [lra|].
  assert (Hle : (- AB) ^ 2 <= SA) by nra.
  apply sqrt_le_1_alt in Hle.
  replace ((- AB) ^ 2) with (Rsqr (- AB)) in Hle by (unfold Rsqr; ring).
  rewrite sqrt_Rsqr in Hle by lra. lra.
Qed.

Lemma dot_scal_l (c : R) (l l' : list R) :
  dot (map (Rmult c) l) l' = c * dot l l'.
Proof.
  revert l'; induction l as [|x l IH]; intros [|y l']; cbn [map];
    try (unfold dot; simpl; lra).
  rewrite !dot_cons, IH. lra.
Qed.

Lemma dot_comm (l l' : list R) : dot l l' = dot l' l.
Proof.
  revert l'; induction l as [|x l IH]; intros [|y l'];
    try (unfold dot; simpl; lra).
  rewrite !dot_cons, IH. lra.
Qed.

(** With [new = -(gap - im)], the squared norms in the dual gap come down
    to a product of [gap] and [new]. *)
Lemma squares_identity (G M : list R) :
  length G = length M ->
  Rsum (map (fun x => x ^ 2) G) - Rsum (map (fun x => x ^ 2) M)
  + Rsum (map (fun x => x ^ 2) (map Ropp (map2 Rminus G M)))
  = - 2 * dot G (map Ropp (map2 Rminus G M)).
Proof.
  revert M; induction G as [|g G IH]; intros [|m M] H; simpl in H;
    try discriminate.
  - unfold Rsum, dot. simpl. lra.
  - cbn [map map2]. rewrite !Rsum_cons, dot_cons.
    specialize (IH M ltac:(lia)). nra.
Qed.

Lemma ravel_onto (s : list nat) (q : nat) :
  (q < size s)%nat -> exists idx, in_range s idx /\ ravel s idx = q.
Proof.
  intros Hq.
  assert (Hin : In q (map (ravel s) (grid s))).
  { rewrite ravel_grid. apply in_seq. lia. }
  apply in_map_iff in Hin. destruct Hin as [idx [E Hidx]].
  exists idx. split; [now apply grid_in_range|exact E].
Qed.

(** C5, as it holds.  In exact real arithmetic, [dual_gap] is not
    negative where the solver calls it: the gap field is
    [weight * div(y)] for a dual field [y] whose norm is at most 1 at
    every grid point, and the candidate is the original image minus the
    gap field.  The image has rank 2 or 3, axes of at least two elements
    and a norm that is not zero; the weight is not negative. *)
Theorem dual_gap_nonnegative (im y : array) (w : R) :
  wf im -> (ndim im = 2 \/ ndim im = 3)%nat -> axes_ge2 (shape im) ->
  sqnorm im <> 0 -> 0 <= w ->
  wf y -> shape y = ndim im :: shape im ->
  (forall idx, in_range (shape im) idx -> point_norm y idx <= 1) ->
  exists dv neg v,
    div y = Ok dv
    /\ binop Rminus (amap (Rmult w) dv) im = Ok neg
    /\ dual_gap im (amap Ropp neg) (amap (Rmult w) dv) w = Ok (Finite v)
    /\ 0 <= v.
Proof.
  intros Hwi Hr Hge Hnz Hw Hwy Hsy Hball.
  rewrite <- (np_sum_sqr Hwi) in Hnz.
  set (s := shape im) in *. set (r := ndim im) in *.
  assert (Hrl : r = length s) by reflexivity.
  assert (Hn : forall d, (d < r)%nat -> (2 <= nth d s 0)%nat).
  { intros d Hd. unfold axes_ge2 in Hge. rewrite Forall_forall in Hge.
    apply Hge. apply nth_In. lia. }
  set (Y := chunks (size s) r (data y)).
  assert (HY : Forall (fun b => length b = size s) Y).
  { apply chunks_all_length. rewrite Hwy, Hsy. reflexivity. }
  assert (HYd : forall d, (d < r)%nat -> length (nth d Y []) = size s).
  { intros d Hd. rewrite Forall_forall in HY. apply HY, nth_In.
    unfold Y. now rewrite chunks_length. }
  rewrite (div_blocks Hsy Hwy); [|lia|exact Hn].
  fold Y. set (D := div_data s Y r).
  assert (HD : length D = size s).
  { apply div_data_length; [lia|]. intros d Hd. auto. }
  eexists _, _, _. split; [reflexivity|].
  split; [apply binop_same; reflexivity|].
  set (gp := amap (Rmult w) (mkarray float64 s D)).
  set (new := amap Ropp (amap2 Rminus gp im)).
  assert (Hwn : wf new).
  { unfold new. apply wf_amap, wf_amap2; [|exact Hwi|reflexivity].
    apply wf_amap. exact HD. }
  assert (Hsn : shape new = s) by reflexivity.
  split.
  { apply dual_gap_finite; [exact Hwn|reflexivity|exact Hr|exact Hnz]. }
  (* the squared norms *)
  assert (E1 : np_sum (sqr gp) - np_sum (sqr im) + np_sum (sqr new)
               = - 2 * (w * dot (data new) D)).
  { unfold np_sum, sqr, new, gp, amap, amap2. cbn [data].
    fold (Rsum (map (fun x => x ^ 2) (map (Rmult w) D))).
    fold (Rsum (map (fun x => x ^ 2) (data im))).
    fold (Rsum (map (fun x => x ^ 2)
                  (map Ropp (map2 Rminus (map (Rmult w) D) (data im))))).
    rewrite squares_identity by (rewrite length_map, HD, Hwi; reflexivity).
    rewrite dot_scal_l, (dot_comm D). reflexivity. }
  (* the divergence against the gradient *)
  assert (E2 : dot (data new) D
               = - Rsum (map (fun d => dot (grad_comp 0 Rminus new d)
                                        (nth d Y [])) (seq 0 r))).
  { unfold D. change s with (shape new).
    apply div_data_dot; [exact Hwn|exact (Nat.le_refl r)|].
    intros d Hd. split; [now apply HYd|now apply Hn]. }
  (* the total variation and the products, grid point by grid point *)
  assert (E3 : Rsum (map (fun d => dot (grad_comp 0 Rminus new d)
                                     (nth d Y [])) (seq 0 r))
               = Rsum (map (fun q =>
                         Rsum (map (fun d =>
                                 nth q (grad_comp 0 Rminus new d) 0
                                 * nth q (nth d Y []) 0) (seq 0 r)))
                    (seq 0 (size s)))).
  { rewrite <- Rsum_swap. f_equal. apply map_ext_in. intros d Hd.
    apply in_seq in Hd.
    assert (Hg : length (grad_comp 0 Rminus new d) = size s)
      by (apply grad_comp_length; [exact Hwn|change (d < r)%nat; lia]).
    rewrite dot_as_sum, Hg by (rewrite Hg, HYd; [reflexivity|lia]).
    reflexivity. }
  assert (HX : 0 <= TV new
                    + Rsum (map (fun d => dot (grad_comp 0 Rminus new d)
                                            (nth d Y [])) (seq 0 r))).
  { rewrite E3, (TV_flat Hwn). fold (ndim im). fold r.
    change (ndim new) with r. change (shape new) with s.
    fold (Rsum (map (fun q =>
                  sqrt (fold_right Rplus 0
                          (map (fun k => nth q (grad_comp 0 Rminus new k) 0 ^ 2)
                             (seq 0 r)))) (seq 0 (size s)))).
    rewrite <- Rsum_plus. apply Rsum_nonneg. intros q Hq.
    apply in_seq in Hq.
    apply (norm_plus_product_nonneg (seq 0 r)
             (fun k => nth q (grad_comp 0 Rminus new k) 0)
             (fun k => nth q (nth k Y []) 0)).
    destruct (@ravel_onto s q) as [idx [Hidx Eq]]; [lia|].
    specialize (Hball idx Hidx).
    rewrite (@point_norm_flat y r s idx Hsy), Eq in Hball.
    unfold sumsq_at in Hball.
    replace (Rsum (map (fun k => nth q (nth k Y []) 0 ^ 2) (seq 0 r)))
      with (fold_right Rplus 0
              (map (fun k => nth (k * size s + q) (data y) 0 ^ 2)
                 (seq 0 r))); [exact Hball|].
    unfold Rsum. f_equal. apply map_ext_in. intros k Hk.
    apply in_seq in Hk. unfold Y. rewrite nth_chunks by lia. reflexivity. }
  assert (Hnorm : 0 < np_sum (sqr im)).
  { assert (0 <= np_sum (sqr im)).
    { unfold np_sum, sqr, amap. cbn [data].
      apply (Rsum_nonneg (fun x => x ^ 2)). intros x _. apply pow2_ge_0. }
    lra. }
  match goal with
  | |- 0 <= 0.5 / ?n * ?e =>
      replace e with (2 * w * (TV new
                               + Rsum (map (fun d =>
                                         dot (grad_comp 0 Rminus new d)
                                           (nth d Y [])) (seq 0 r))))
  end.
  - apply Rmult_le_pos.
    + apply Rlt_le, Rdiv_lt_0_compat; lra.
    + apply Rmult_le_pos; [lra|exact HX].
  - fold gp new. rewrite E2 in E1. lra.
Qed.

End WeakDuality.

(** ** The projection, point by point *)

Section ProjectionNorm.

Open Scope R_scope.

Lemma norm_after_eq S :
  0 <= S -> sqrt (S / Rmax (sqrt S) 1 ^ 2) = sqrt S / Rmax (sqrt S) 1.
Proof.
  intros HS. pose proof (Rmax_sqrt_pos S) as HN.
  rewrite sqrt_div_alt by nra. rewrite sqrt_pow2 by lra. reflexivity.
Qed.

(** X6. In exact real arithmetic, for a field of floats with at least one
    grid axis: [_projector_on_dual] divides every component at a grid
    point by the larger of 1 and the norm there; the norm becomes the
    norm divided by that number, which is exactly 1 wherever the norm was
    at least 1. *)
Theorem projector_on_dual_norm (grad : array) c s :
  shape grad = c :: s -> s <> [] -> wf grad ->
  kind (dtype_of grad) = "f"%char ->
  exists out,
    _projector_on_dual grad = Ok out
    /\ forall idx, in_range s idx ->
         (forall k, (k < c)%nat ->
                    item 0 out (k :: idx)
                    = item 0 grad (k :: idx) / Rmax (point_norm grad idx) 1)
         /\ point_norm out idx
            = point_norm grad idx / Rmax (point_norm grad idx) 1
         /\ (1 <= point_norm grad idx -> point_norm out idx = 1).
Proof.
  intros Hs Hne Hwf _.
  destruct (projector_flat Hs Hwf Hne) as [out [E [Ho [_ [_ H]]]]].
  exists out. split; [exact E|].
  intros idx Hr. pose proof (ravel_lt Hr) as Hp.
  rewrite (@point_norm_flat out c s idx Ho), (@point_norm_flat grad c s idx Hs).
  set (S := sumsq_at (data grad) c (size s) (ravel s idx)).
  assert (HN : 0 < Rmax (sqrt S) 1) by apply Rmax_sqrt_pos.
  assert (En : sqrt (sumsq_at (data out) c (size s) (ravel s idx))
               = sqrt S / Rmax (sqrt S) 1).
  { rewrite (@sumsq_scaled (data grad) (data out) c (size s) (ravel s idx)
               (Rmax (sqrt S) 1)).
    - apply norm_after_eq, sumsq_nonneg.
    - lra.
    - intros k Hk. now apply H. }
  split; [|split].
  - intros k Hk. unfold item. rewrite Ho, Hs. cbn [ravel].
    now apply H.
  - exact En.
  - intros Hge. rewrite En, Rmax_left by exact Hge. field. lra.
Qed.

End ProjectionNorm.

(** ** The dual gap: ranks and scaling *)

Section DualGapMore.

Open Scope R_scope.

(** X7. [dual_gap] takes the differences of the candidate along its first
    two axes, and along the third one when the original image has rank 3.
    For a candidate of rank 0 [np.diff] raises [ValueError] (it requires
    an input that is at least one dimensional); for a candidate of rank 1,
    or of rank 2 when the original image has rank 3, the axis that is
    lacking makes [np.diff] raise its error for an axis out of bounds,
    which is an [IndexError]. *)
Theorem dual_gap_low_rank (im new gap : array) (weight : R) :
  wf new ->
  (ndim new = 0%nat ->
   dual_gap im new gap weight
   = Raise (ValueError
              "diff requires input that is at least one dimensional"))
  /\ ((ndim new = 1 \/ (ndim im = 3 /\ ndim new = 2))%nat ->
      dual_gap im new gap weight = Raise IndexError).
Proof.
  intros Hwf. split.
  { intros E0. unfold dual_gap, np_diff. rewrite E0. reflexivity. }
  intros Hr. unfold dual_gap.
  assert (H0 : (0 < ndim new)%nat) by lia.
  erewrite bind_bind_ok;
    [|apply (@zeros_diff new 0%nat _ Hwf H0);
      rewrite <- slice_butlast;
      exact (@resolve_axis_slice 0%nat (shape new) None (Some (-1)%Z) H0)].
  destruct (Nat.eq_dec (ndim new) 1) as [E1|N1].
  { unfold np_diff at 1. rewrite E1. reflexivity. }
  assert (H1 : (1 < ndim new)%nat) by lia.
  erewrite bind_bind_ok;
    [|apply (@zeros_diff new 1%nat _ Hwf H1);
      rewrite <- slice_butlast;
      exact (@resolve_axis_slice 1%nat (shape new) None (Some (-1)%Z) H1)].
  destruct Hr as [Hr|[Hi Hn]]; [lia|].
  rewrite Hi. cbn [Nat.eqb]. unfold np_diff at 1. rewrite Hn. reflexivity.
Qed.

Lemma nth_map_scal (c : R) (l : list R) n :
  nth n (map (Rmult c) l) 0 = c * nth n l 0.
Proof.
  revert n; induction l as [|x l IH]; intros [|n]; simpl; auto; lra.
Qed.

Lemma fwd_diff_scal (c : R) (a : array) k idx :
  fwd_diff (amap (Rmult c) a) k idx = c * fwd_diff a k idx.
Proof.
  unfold fwd_diff, item, amap. cbn [shape data].
  destruct (Nat.ltb (S (nth k idx 0%nat)) (nth k (shape a) 0%nat)).
  - rewrite !nth_map_scal. lra.
  - lra.
Qed.

Lemma sum_squares_scal (A : Type) (c : R) (f g : A -> R) (l : list A) :
  (forall x, f x = c * g x) ->
  fold_right Rplus 0 (map (fun x => f x ^ 2) l)
  = c ^ 2 * fold_right Rplus 0 (map (fun x => g x ^ 2) l).
Proof.
  intros H. induction l as [|x l IH]; cbn [map fold_right]; [lra|].
  rewrite IH, H. ring.
Qed.

(** The total variation is positively homogeneous. *)
Lemma TV_scal (c : R) (a : array) :
  0 <= c -> TV (amap (Rmult c) a) = c * TV a.
Proof.
  intros Hc. unfold TV. change (shape (amap (Rmult c) a)) with (shape a).
  change (ndim (amap (Rmult c) a)) with (ndim a).
  induction (grid (shape a)) as [|idx l IH]; cbn [map fold_right]; [lra|].
  rewrite IH.
  rewrite (@sum_squares_scal nat c
             (fun k => fwd_diff (amap (Rmult c) a) k idx)
             (fun k => fwd_diff a k idx))
    by (intros k; apply fwd_diff_scal).
  rewrite sqrt_mult_alt by apply pow2_ge_0.
  rewrite sqrt_pow2 by exact Hc. ring.
Qed.

Lemma np_sum_sqr_scal (c : R) (a : array) :
  np_sum (sqr (amap (Rmult c) a)) = c ^ 2 * np_sum (sqr a).
Proof.
  unfold np_sum, sqr, amap. cbn [data].
  induction (data a) as [|x l IH]; cbn [map fold_right]; [lra|].
  rewrite IH. ring.
Qed.

(** X8. In exact real arithmetic, the value of [dual_gap] does not depend
    on the contrast: for an original image whose norm is not zero,
    multiplying the original image, the candidate, the gap field and the
    weight by the same positive number leaves it unchanged. *)
Theorem dual_gap_contrast_invariant (im new gap : array) (weight c : R) :
  wf im -> wf new -> ndim new = ndim im ->
  (ndim im = 2 \/ ndim im = 3)%nat ->
  0 < c -> sqnorm im <> 0 ->
  dual_gap (amap (Rmult c) im) (amap (Rmult c) new) (amap (Rmult c) gap)
    (c * weight)
  = dual_gap im new gap weight.
Proof.
  intros Hwi Hwf Hnd Hr Hc Hnz. rewrite <- (np_sum_sqr Hwi) in Hnz.
  rewrite (@dual_gap_finite im new gap weight Hwf Hnd Hr Hnz).
  rewrite dual_gap_finite;
    [|now apply wf_amap|exact Hnd|exact Hr|].
  - rewrite !np_sum_sqr_scal, TV_scal by lra.
    f_equal. f_equal. field. split; [exact Hnz|lra].
  - rewrite np_sum_sqr_scal. apply Rmult_integral_contrapositive_currified;
      [apply pow_nonzero; lra|exact Hnz].
Qed.

End DualGapMore.

(** ** The divergence sums to zero *)

Section DivergenceSum.

Open Scope R_scope.

Lemma Forall_take (A : Type) (P : A -> Prop) n (l : list A) :
  Forall P l -> Forall P (firstn n l).
Proof.
  intros H; revert n; induction H as [|x l Hx _ IH]; intros [|n];
    cbn [firstn]; constructor; auto.
Qed.

Lemma Forall_drop (A : Type) (P : A -> Prop) n (l : list A) :
  Forall P l -> Forall P (skipn n l).
Proof.
  intros H; revert n; induction H as [|x l Hx H IH]; intros [|n];
    cbn [skipn]; try constructor; auto.
Qed.

Lemma Forall_chunks (A : Type) (P : A -> Prop) k c (l : list A) :
  Forall P l -> Forall (Forall P) (chunks k c l).
Proof.
  revert l; induction c as [|c IH]; intros l H; cbn [chunks];
    constructor.
  - now apply Forall_take.
  - apply IH. now apply Forall_drop.
Qed.

Lemma map2_sub_const (v : R) (l l' : list R) :
  Forall (eq v) l -> Forall (eq v) l' ->
  Forall (eq 0) (map2 Rminus l l').
Proof.
  intros H; revert l'; induction H as [|x l Hx _ IH]; intros l' H';
    [constructor|].
  destruct H' as [|y l' Hy H']; cbn [map2]; constructor.
  - subst. lra.
  - now apply IH.
Qed.

Lemma grad_comp_const (x : array) (v : R) d :
  Forall (eq v) (data x) -> Forall (eq 0) (grad_comp 0 Rminus x d).
Proof.
  intros H. unfold grad_comp.
  apply (Forall_chunks (block d (shape x)) (outer d (shape x))) in H.
  induction H as [|b bs Hb _ IH]; cbn [map concat]; [constructor|].
  apply Forall_app. split; [|exact IH].
  unfold grad_block. apply Forall_app. split.
  - unfold diff_block. apply map2_sub_const with (v := v); [|exact Hb].
    now apply Forall_drop.
  - apply Forall_forall. intros y Hy. apply repeat_spec in Hy. now subst.
Qed.

Lemma dot_zero_l (l g : list R) : Forall (eq 0) l -> dot l g = 0.
Proof.
  intros H; revert g; induction H as [|x l Hx _ IH]; intros [|y g];
    try reflexivity.
  rewrite dot_cons, IH, <- Hx. lra.
Qed.

Lemma dot_ones_l (l : list R) :
  dot (repeat 1 (length l)) l = fold_right Rplus 0 l.
Proof.
  induction l as [|x l IH]; [reflexivity|].
  cbn [length repeat]. rewrite dot_cons, IH. cbn [fold_right]. lra.
Qed.

Lemma div_data_sum (s : list nat) (comps : list (list R)) j :
  (j <= length s)%nat ->
  (forall d, (d < j)%nat ->
             length (nth d comps []) = size s /\ (2 <= nth d s 0)%nat) ->
  fold_right Rplus 0 (div_data s comps j) = 0.
Proof.
  intros Hj Hc.
  pose proof (div_data_length s comps Hj Hc) as Hl.
  set (ones := mkarray float64 s (repeat 1 (size s))).
  assert (Hw : wf ones) by (unfold wf, ones; cbn [data shape];
                            apply repeat_length).
  assert (Z : fold_right Rplus 0
                (map (fun d => dot (grad_comp 0 Rminus ones d)
                                 (nth d comps [])) (seq 0 j)) = 0).
  { induction (seq 0 j) as [|d ds IH]; cbn [map fold_right]; [reflexivity|].
    rewrite IH, (@dot_zero_l (grad_comp 0 Rminus ones d)).
    - lra.
    - apply grad_comp_const with (v := 1). cbn [data ones].
      apply Forall_forall. intros y Hy. apply repeat_spec in Hy.
      now subst. }
  pose proof (@div_data_dot ones comps j Hw Hj Hc) as E.
  cbn [data shape ones] in E. rewrite <- Hl in E at 1.
  rewrite dot_ones_l in E. rewrite E, Z. lra.
Qed.

(** X4. In exact real arithmetic, the elements of the divergence of any
    field add up to zero: the boundary terms of [div] are those that make
    the sum telescope. *)
Theorem div_sum_zero (grad : array) c s :
  shape grad = c :: s -> wf grad -> (c <= length s)%nat ->
  (forall d, (d < c)%nat -> (2 <= nth d s 0)%nat) ->
  exists dv, div grad = Ok dv /\ shape dv = s /\ wf dv /\ np_sum dv = 0.
Proof.
  intros Hs Hwf Hc Hn.
  assert (Hcomps : forall d, (d < c)%nat ->
            length (nth d (chunks (size s) c (data grad)) []) = size s
            /\ (2 <= nth d s 0)%nat).
  { intros d Hd. split; [|now apply Hn].
    pose proof (chunks_all_length (size s) c (data grad)) as HF.
    rewrite Forall_forall in HF. apply HF.
    - rewrite Hwf, Hs. reflexivity.
    - apply nth_In. now rewrite chunks_length. }
  eexists. split; [apply (div_blocks Hs Hwf Hc Hn)|].
  split; [reflexivity|]. split.
  - unfold wf. cbn [data shape]. now apply div_data_length.
  - unfold np_sum. cbn [data]. now apply div_data_sum.
Qed.

End DivergenceSum.

(** ** The divergence, point by point *)

Section DivergencePointwise.

Open Scope R_scope.

Lemma ravel_unbump d s idx :
  (d < length idx)%nat -> length idx = length s -> (1 <= nth d idx 0)%nat ->
  (ravel s (unbump d idx) + inner d s = ravel s idx)%nat.
Proof.
  revert s idx; induction d as [|d IH]; intros [|n s] [|i idx] Hd Hl Hi;
    simpl in Hd, Hl; try lia; cbn [unbump ravel nth] in *.
  - change (inner 0 (n :: s)) with (size s). nia.
  - rewrite inner_S. specialize (IH s idx). lia.
Qed.

Lemma nth_axis_take w lo len (b : list R) r :
  (r < len * w)%nat ->
  nth r (axis_take w lo len b) 0 = nth (lo * w + r) b 0.
Proof.
  intros H. unfold axis_take.
  now rewrite nth_firstn, (proj2 (Nat.ltb_lt _ _) H), nth_skipn.
Qed.

Lemma nth_axis_put w lo len n (b v : list R) r :
  length b = (n * w)%nat -> length v = (len * w)%nat -> (lo + len <= n)%nat ->
  nth r (axis_put w lo len b v) 0
  = if ((lo * w <=? r) && (r <? (lo + len) * w))%nat
    then nth (r - lo * w) v 0
    else nth r b 0.
Proof.
  intros Hb Hv Hle. unfold axis_put.
  assert (Hf : length (firstn (lo * w) b) = (lo * w)%nat)
    by (rewrite length_firstn; nia).
  destruct (Nat.leb_spec (lo * w) r) as [H1|H1]; cbn [andb].
  - rewrite app_nth2 by lia. rewrite Hf.
    destruct (Nat.ltb_spec r ((lo + len) * w)) as [H2|H2].
    + rewrite app_nth1 by (rewrite Hv; nia). reflexivity.
    + rewrite app_nth2 by (rewrite Hv; nia).
      rewrite nth_skipn, Hv. f_equal. nia.
  - rewrite app_nth1 by lia.
    now rewrite nth_firstn, (proj2 (Nat.ltb_lt _ _) H1).
Qed.

Lemma nth_block_update (f : R -> R -> R) w lo lo' len n (rb gb : list R) r :
  length rb = (n * w)%nat -> length gb = (n * w)%nat ->
  (lo + len <= n)%nat -> (lo' + len <= n)%nat ->
  nth r (axis_put w lo len rb
           (map2 f (axis_take w lo len rb) (axis_take w lo' len gb))) 0
  = if ((lo * w <=? r) && (r <? (lo + len) * w))%nat
    then f (nth r rb 0) (nth (r - lo * w + lo' * w) gb 0)
    else nth r rb 0.
Proof.
  intros Hr Hg H1 H2.
  assert (L1 := @axis_take_length R w lo len n rb Hr H1).
  assert (L2 := @axis_take_length R w lo' len n gb Hg H2).
  rewrite (@nth_axis_put w lo len n);
    [|exact Hr|rewrite map2_length, L1, L2; apply Nat.min_id|exact H1].
  destruct (Nat.leb_spec (lo * w) r); cbn [andb]; [|reflexivity].
  destruct (Nat.ltb_spec r ((lo + len) * w)); [|reflexivity].
  rewrite nth_map2 by (rewrite ?L1, ?L2; nia).
  rewrite !nth_axis_take by nia. f_equal; f_equal; lia.
Qed.

(** One turn of the loop of [div] inside a block, element by element. *)
Lemma nth_div_block w n (rb gb : list R) r :
  length rb = (n * w)%nat -> length gb = (n * w)%nat -> (2 <= n)%nat ->
  (r < n * w)%nat ->
  nth r (div_block w n rb gb) 0
  = nth r rb 0
    + (if (r <? (n - 1) * w)%nat then nth r gb 0 else 0)
    - (if (w <=? r)%nat then nth (r - w) gb 0 else 0).
Proof.
  intros Hr Hg Hn Hlt. unfold div_block.
  set (r1 := axis_put w 0 (n - 1) rb
               (map2 Rplus (axis_take w 0 (n - 1) rb)
                  (axis_take w 0 (n - 1) gb))).
  assert (H1 : length r1 = (n * w)%nat)
    by (apply block_update_length; [assumption|assumption|lia|lia]).
  set (r2 := axis_put w 1 (n - 2) r1
               (map2 Rminus (axis_take w 1 (n - 2) r1)
                  (axis_take w 0 (n - 2) gb))).
  assert (H2 : length r2 = (n * w)%nat)
    by (apply block_update_length; [assumption|assumption|lia|lia]).
  rewrite (@nth_block_update Rminus w (n - 1) (n - 2) 1 n r2 gb r)
    by (assumption || lia).
  unfold r2.
  rewrite (@nth_block_update Rminus w 1 0 (n - 2) n r1 gb r)
    by (assumption || lia).
  unfold r1.
  rewrite (@nth_block_update Rplus w 0 0 (n - 1) n rb gb r)
    by (assumption || lia).
  destruct n as [|[|m]]; [lia|lia|].
  replace (S (S m) - 1)%nat with (S m) by lia.
  replace (S (S m) - 2)%nat with m by lia.
  destruct (Nat.leb_spec (S m * w) r) as [A1|A1];
    destruct (Nat.ltb_spec r ((S m + 1) * w)) as [A2|A2];
    destruct (Nat.leb_spec (1 * w) r) as [B1|B1];
    destruct (Nat.ltb_spec r ((1 + m) * w)) as [B2|B2];
    destruct (Nat.leb_spec (0 * w) r) as [C1|C1];
    destruct (Nat.ltb_spec r ((0 + S m) * w)) as [C2|C2];
    destruct (Nat.ltb_spec r (S m * w)) as [D1|D1];
    destruct (Nat.leb_spec w r) as [D2|D2];
    cbn [andb]; try lia;
    repeat match goal with
           | |- context [nth ?a gb 0] =>
               lazymatch a with
               | r => fail
               | (r - w)%nat => fail
               | _ => replace a with r by lia
               end
           end;
    try (replace (r - S m * w + m * w)%nat with (r - w)%nat by lia);
    try (replace (r - 1 * w + 0 * w)%nat with (r - w)%nat by lia);
    try (replace (r - 0 * w + 0 * w)%nat with r by lia);
    lra.
Qed.

(** The buffer of [res] after [j] turns of the loop of [div], element by
    element. *)
Lemma nth_div_data (s : list nat) (comps : list (list R)) j idx :
  (j <= length s)%nat ->
  (forall d, (d < j)%nat ->
             length (nth d comps []) = size s /\ (2 <= nth d s 0)%nat) ->
  in_range s idx ->
  nth (ravel s idx) (div_data s comps j) 0
  = Rsum (map (fun k =>
                 (if (S (nth k idx 0) <? nth k s 0)%nat
                  then nth (ravel s idx) (nth k comps []) 0 else 0)
                 - (if (1 <=? nth k idx 0)%nat
                    then nth (ravel s (unbump k idx)) (nth k comps []) 0
                    else 0))
            (seq 0 j)).
Proof.
  intros Hj Hc Hr. induction j as [|j IH].
  - cbn [div_data seq map Rsum fold_right]. apply nth_repeat.
  - destruct (Hc j) as [Hl Hn]; [lia|].
    assert (Hjs : (j < length s)%nat) by lia.
    specialize (IH ltac:(lia) ltac:(intros d Hd; apply Hc; lia)).
    assert (HD : length (div_data s comps j) = size s).
    { apply div_data_length; [lia|]. intros d Hd. apply Hc. lia. }
    destruct (ravel_split Hr Hjs) as [q [jj [E [Hq [Hjj Hi]]]]].
    pose proof (in_range_length Hr) as Hlen.
    set (n := nth j s 0%nat) in *. set (w := inner j s) in *.
    set (i := nth j idx 0%nat) in *.
    assert (HB : block j s = (n * w)%nat) by reflexivity.
    assert (Hsz : size s = (outer j s * block j s)%nat)
      by now apply size_split.
    set (Rb := chunks (block j s) (outer j s) (div_data s comps j)).
    set (G := chunks (block j s) (outer j s) (nth j comps [])).
    assert (HR : Forall (fun b => length b = block j s) Rb)
      by (apply chunks_all_length; rewrite HD; exact Hsz).
    assert (HG : Forall (fun b => length b = block j s) G)
      by (apply chunks_all_length; rewrite Hl; exact Hsz).
    assert (HRq : length (nth q Rb []) = (n * w)%nat).
    { rewrite Forall_forall in HR. rewrite <- HB. apply HR, nth_In.
      unfold Rb. now rewrite chunks_length. }
    assert (HGq : length (nth q G []) = (n * w)%nat).
    { rewrite Forall_forall in HG. rewrite <- HB. apply HG, nth_In.
      unfold G. now rewrite chunks_length. }
    rewrite seq_S, map_app. unfold Rsum. rewrite fold_right_app.
    cbn [map fold_right Nat.add].
    rewrite (fold_right_plus_init (_ + 0)). fold (Rsum
      (map (fun k =>
              (if (S (nth k idx 0) <? nth k s 0)%nat
               then nth (ravel s idx) (nth k comps []) 0 else 0)
              - (if (1 <=? nth k idx 0)%nat
                 then nth (ravel s (unbump k idx)) (nth k comps []) 0
                 else 0))
         (seq 0 j))).
    rewrite <- IH. fold n i.
    cbn [div_data]. fold n w Rb G.
    rewrite E at 1. rewrite <- Nat.add_assoc.
    rewrite nth_concat_uniform with (k := block j s).
    2:{ eapply Forall2_map2; [exact HR|exact HG|].
        intros a b Ha Hb. cbv beta. rewrite HB in *.
        now apply div_block_length. }
    2:{ rewrite HB. nia. }
    rewrite (@nth_map2 (list R) [] (div_block w n))
      by (unfold Rb, G; now rewrite chunks_length).
    rewrite nth_div_block by (assumption || nia).
    unfold Rb, G.
    rewrite !nth_chunks by (try assumption; rewrite HB; nia).
    rewrite Nat.add_assoc, <- E.
    destruct (Nat.ltb_spec (i * w + jj) ((n - 1) * w)) as [A1|A1];
      destruct (Nat.ltb_spec (S i) n) as [A2|A2]; try nia;
      destruct (Nat.leb_spec w (i * w + jj)) as [B1|B1];
      destruct (Nat.leb_spec 1 i) as [B2|B2]; try nia;
      try lra.
    + pose proof (@ravel_unbump j s idx ltac:(lia) Hlen B2) as Eu.
      fold w in Eu.
      replace (q * block j s + (i * w + jj - w))%nat
        with (ravel s (unbump j idx)) by lia.
      lra.
    + pose proof (@ravel_unbump j s idx ltac:(lia) Hlen B2) as Eu.
      fold w in Eu.
      replace (q * block j s + (i * w + jj - w))%nat
        with (ravel s (unbump j idx)) by lia.
      lra.
Qed.

Lemma div_items (grad : array) c s :
  shape grad = c :: s -> wf grad -> (c <= length s)%nat ->
  (forall d, (d < c)%nat -> (2 <= nth d s 0)%nat) ->
  div grad
  = Ok (mkarray float64 s (div_data s (chunks (size s) c (data grad)) c))
  /\ length (div_data s (chunks (size s) c (data grad)) c) = size s
  /\ forall idx, in_range s idx ->
       nth (ravel s idx) (div_data s (chunks (size s) c (data grad)) c) 0
       = Rsum (map (fun k => bwd_diff grad k idx) (seq 0 c)).
Proof.
  intros Hs Hwf Hc Hn.
  assert (Hcomps : forall d, (d < c)%nat ->
            length (nth d (chunks (size s) c (data grad)) []) = size s
            /\ (2 <= nth d s 0)%nat).
  { intros d Hd. split; [|now apply Hn].
    pose proof (chunks_all_length (size s) c (data grad)) as HF.
    rewrite Forall_forall in HF. apply HF.
    - rewrite Hwf, Hs. reflexivity.
    - apply nth_In. now rewrite chunks_length. }
  split; [apply (div_blocks Hs Hwf Hc Hn)|].
  split; [now apply div_data_length|].
  intros idx Hr.
  rewrite nth_div_data by assumption.
  f_equal. apply map_ext_in. intros k Hk. apply in_seq in Hk.
  pose proof (ravel_lt Hr) as Hp. pose proof (in_range_length Hr) as Hlen.
  unfold bwd_diff, item. rewrite Hs. cbn [tl ravel].
  f_equal.
  - destruct (S (nth k idx 0) <? nth k s 0)%nat; [|reflexivity].
    apply nth_chunks; [lia|exact Hp].
  - destruct (Nat.leb_spec 1 (nth k idx 0%nat)) as [Hi|Hi]; [|reflexivity].
    pose proof (@ravel_unbump k s idx ltac:(lia) Hlen Hi) as Eu.
    apply nth_chunks; lia.
Qed.

(** X3. [div] returns an array of shape [grad.shape[1:]] and dtype float64
    whose element at [idx] is the sum over the axes [k] of the component [k]
    of the field at [idx] (left out at the last index of the axis) minus
    that component one step back along the axis (left out at the first
    index). *)
Theorem div_backward_difference (grad : array) c s :
  shape grad = c :: s -> wf grad -> (c <= length s)%nat ->
  (forall d, (d < c)%nat -> (2 <= nth d s 0)%nat) ->
  exists dv,
    div grad = Ok dv /\ shape dv = s /\ dtype_of dv = float64
    /\ forall idx, in_range s idx ->
         item 0 dv idx = Rsum (map (fun k => bwd_diff grad k idx) (seq 0 c)).
Proof.
  intros Hs Hwf Hc Hn.
  destruct (div_items Hs Hwf Hc Hn) as [E [_ H]].
  eexists. split; [exact E|].
  split; [reflexivity|]. split; [reflexivity|]. exact H.
Qed.

(** X2. On a field of shape [(c, d0, d1, ...)] with [c] at most the number
    of the other axes, [div] returns an array exactly when each of the axes
    [0 .. c-1] it works on has at least two elements, and raises
    [IndexError] exactly when one of them has fewer. *)
Theorem div_returns_iff (grad : array) c s :
  shape grad = c :: s -> wf grad -> (c <= length s)%nat ->
  ((forall d, (d < c)%nat -> (2 <= nth d s 0)%nat)
   <-> exists dv, div grad = Ok dv)
  /\ ((exists d, (d < c)%nat /\ (nth d s 0 < 2)%nat)
      <-> div grad = Raise IndexError).
Proof.
  intros Hs Hwf Hc.
  destruct (short_or_all s c) as [Hall|[d [Hd [Hshort _]]]].
  - pose proof (div_blocks Hs Hwf Hc Hall) as E. split; split.
    + intros _. eauto.
    + intros _. exact Hall.
    + intros [d [Hd Hshort]]. specialize (Hall d Hd). lia.
    + rewrite E. discriminate.
  - pose proof (div_short_axis Hs Hwf Hc Hd Hshort) as E. split; split.
    + intros Hall. specialize (Hall d Hd). lia.
    + rewrite E. intros [dv H]. discriminate.
    + intros _. exact E.
    + intros _. eauto.
Qed.

End DivergencePointwise.

(** ** The solver: the loop seen from outside *)

Section SolverMore.

Open Scope R_scope.

Lemma fista_body_split p (input_img : array) L st :
  fista_body p input_img L st
  = (aux <- fista_ascent p L st ;;
     prj <- _projector_on_dual aux ;;
     aux' <- binop Rminus
               (amap (Rmult (1 + (t st - 1)
                               / (1 / 2 * (1 + sqrt (1 + 4 * t st ^ 2)))))
                  prj)
               (amap (Rmult ((t st - 1)
                             / (1 / 2 * (1 + sqrt (1 + 4 * t st ^ 2)))))
                  (grad_im st)) ;;
     dv <- div prj ;;
     fista_body_end p input_img st prj aux' dv).
Proof. reflexivity. Qed.

(** In a state that satisfies the invariant, the body of the loop reaches
    the call of [div], on a field of the shape of the gradient whose norm
    is at most 1 at every grid point. *)
Lemma fista_body_to_div p (input_img : array) L s st :
  L * weight p <> 0 -> s <> [] ->
  loop_inv p s st ->
  exists prj aux',
    wf prj /\ shape prj = length s :: s
    /\ (forall idx, in_range s idx -> point_norm prj idx <= 1)
    /\ fista_body p input_img L st
       = (dv <- div prj ;; fista_body_end p input_img st prj aux' dv).
Proof.
  intros HLw Hne Hinv. rewrite fista_body_split.
  destruct (fista_ascent_ok HLw Hinv) as [aux [-> [Hwa Hsa]]]. cbn [bind].
  destruct Hinv as (_ & _ & _ & _ & Hwg & Hsg & _ & _).
  destruct (projector_flat Hsa Hwa Hne) as [prj [-> [Hsp [_ [Hwp Hp]]]]].
  cbn [bind].
  rewrite binop_same by (cbn [amap shape]; congruence). cbn [bind].
  eexists _, _. split; [exact Hwp|]. split; [exact Hsp|].
  split; [|reflexivity].
  intros idx Hr. pose proof (ravel_lt Hr) as Hlt.
  rewrite (@point_norm_flat prj (length s) s idx Hsp).
  apply projected_norm_le with (grad := aux). intros k Hk. now apply Hp.
Qed.

Lemma fista_body_end_state p (input_img : array) st prj aux' dv s1 brk :
  fista_body_end p input_img st prj aux' dv = Ok (s1, brk) ->
  gap s1 = Some (amap (Rmult (weight p)) dv)
  /\ grad_im s1 = prj
  /\ t s1 = 1 / 2 * (1 + sqrt (1 + 4 * t st ^ 2)).
Proof.
  intros E. unfold fista_body_end in E.
  destruct (binop Rminus (amap (Rmult (weight p)) dv) input_img);
    [cbn [bind] in E|discriminate].
  destruct (check_gap_frequency p =? 0)%Z; [discriminate|].
  destruct (i st mod check_gap_frequency p =? 0)%Z.
  - match type of E with
    | bind ?m _ = _ => destruct m as [[? ?]|];
                       [cbn [bind] in E|discriminate]
    end.
    injection E as <- _. auto.
  - injection E as <- _. auto.
Qed.

Lemma loop_inv_start (p : params) (im : array) :
  wf im -> loop_inv p (shape im) (fista_start p im).
Proof.
  intros Hwf. unfold fista_start, loop_inv.
  set (input_img := if Ascii.eqb (kind (dtype_of im)) "f"
                    then im else astype_float im).
  assert (Hin : wf input_img /\ shape input_img = shape im).
  { unfold input_img. destruct (Ascii.eqb (kind (dtype_of im)) "f");
      split; auto. }
  destruct Hin as [Hwi Hsi].
  cbn [negated_output grad_aux grad_im negated_output_old gap].
  split; [now apply wf_amap|]. split; [exact Hsi|].
  split; [unfold wf, np_zeros; cbn [data shape]; apply repeat_length|].
  split; [reflexivity|].
  split; [unfold wf, np_zeros; cbn [data shape]; apply repeat_length|].
  split; [reflexivity|]. split.
  - intros ->. eexists. split; [reflexivity|].
    split; [exact Hsi|now apply wf_amap].
  - intros g [=].
Qed.

(** [tv_denoise_fista] for an image of rank 2 or 3, with the loop
    unfolded once when at least one iteration is allowed. *)
Lemma fista_run_start (p : params) (im : array) :
  (ndim im = 2 \/ ndim im = 3)%nat ->
  exists L,
    0 < L
    /\ fista_run p im
    = (st <- fista_while (Z.to_nat (n_iter_max p)) p
               (if Ascii.eqb (kind (dtype_of im)) "f"
                then im else astype_float im) L (fista_start p im) ;;
       output <- fista_output p
                   (if Ascii.eqb (kind (dtype_of im)) "f"
                    then im else astype_float im) st ;;
       Ok (output, st)).
Proof.
  intros Hr. unfold fista_run.
  pose proof (fista_init_value p im) as E. cbv zeta in E. rewrite E.
  assert (HL : exists L, 0 < L /\ lipschitz (ndim im) = Ok L).
  { destruct Hr as [-> | ->]; eexists; (split; [|reflexivity]); lra. }
  destruct HL as [L [HL ->]]. exists L. split; [exact HL|reflexivity].
Qed.

Lemma step_defined (L w : R) : 0 < L -> w <> 0 -> L * w <> 0.
Proof.
  intros HL Hw H. apply Rmult_integral in H. destruct H; [lra|auto].
Qed.

Lemma rank_not_nil (s : list nat) :
  (length s = 2 \/ length s = 3)%nat -> s <> [].
Proof. intros H ->. cbn [length] in H. lia. Qed.

Lemma fista_while_first fuel p (input_img : array) L st e :
  (0 < fuel)%nat -> (i st < n_iter_max p)%Z ->
  fista_body p input_img L st = Raise e ->
  fista_while fuel p input_img L st = Raise e.
Proof.
  intros Hf Hi Hb. destruct fuel as [|fuel]; [lia|]. cbn [fista_while].
  rewrite (proj2 (Z.ltb_lt _ _) Hi), Hb. reflexivity.
Qed.

Lemma input_img_facts (im : array) :
  wf im ->
  let input_img :=
    if Ascii.eqb (kind (dtype_of im)) "f" then im else astype_float im in
  wf input_img /\ shape input_img = shape im /\ data input_img = data im.
Proof.
  intros Hwf. destruct (Ascii.eqb (kind (dtype_of im)) "f"); cbv zeta;
    repeat split; auto.
Qed.

(** X11. A frequency of the checks of zero makes the first turn of the
    loop raise [ZeroDivisionError], at [i % check_gap_frequency], after
    the whole update of the turn has been computed (the weight is not
    zero, so that the step [1 / (lipschitz_constant * weight)] is
    defined). *)
Theorem zero_check_frequency (p : params) (im : array) :
  wf im -> (ndim im = 2 \/ ndim im = 3)%nat -> axes_ge2 (shape im) ->
  (1 <= n_iter_max p)%Z -> check_gap_frequency p = 0%Z ->
  weight p <> 0 ->
  tv_denoise_fista p im = Raise ZeroDivisionError.
Proof.
  intros Hwf Hr Hge Hn Hcg Hw. unfold tv_denoise_fista.
  destruct (@fista_run_start p im Hr) as [L [HL ->]].
  destruct (@input_img_facts im Hwf) as [Hwi [Hsi _]].
  set (input_img := if Ascii.eqb (kind (dtype_of im)) "f"
                    then im else astype_float im) in *.
  rewrite (@fista_while_first _ p input_img L (fista_start p im)
             ZeroDivisionError); [reflexivity|lia|cbn [fista_start i]; lia|].
  destruct (@fista_body_to_div p input_img L (shape im) (fista_start p im)
              (step_defined HL Hw) (rank_not_nil Hr)
              (@loop_inv_start p im Hwf)) as [prj [aux' [Hwp [Hsp [_ ->]]]]].
  rewrite (div_blocks Hsp Hwp (Nat.le_refl _)).
  2:{ intros d Hd. unfold axes_ge2 in Hge. rewrite Forall_forall in Hge.
      apply Hge. now apply nth_In. }
  cbn [bind]. unfold fista_body_end.
  rewrite binop_same by (cbn [amap shape]; congruence). cbn [bind].
  rewrite Hcg. reflexivity.
Qed.

(** X12. On an image of rank 2 or 3 that has an axis with fewer than two
    elements, the first turn of the loop raises [IndexError], in [div] (the
    weight is not zero, so that the step [1 / (lipschitz_constant * weight)]
    is defined). *)
Theorem short_axis_index_error (p : params) (im : array) d :
  wf im -> (ndim im = 2 \/ ndim im = 3)%nat ->
  (d < ndim im)%nat -> (nth d (shape im) 0 < 2)%nat ->
  (1 <= n_iter_max p)%Z -> weight p <> 0 ->
  tv_denoise_fista p im = Raise IndexError.
Proof.
  intros Hwf Hr Hd Hshort Hn Hw. unfold tv_denoise_fista.
  destruct (@fista_run_start p im Hr) as [L [HL ->]].
  set (input_img := if Ascii.eqb (kind (dtype_of im)) "f"
                    then im else astype_float im) in *.
  rewrite (@fista_while_first _ p input_img L (fista_start p im)
             IndexError); [reflexivity|lia|cbn [fista_start i]; lia|].
  destruct (@fista_body_to_div p input_img L (shape im) (fista_start p im)
              (step_defined HL Hw) (rank_not_nil Hr)
              (@loop_inv_start p im Hwf)) as [prj [aux' [Hwp [Hsp [_ ->]]]]].
  rewrite (@div_short_axis prj (length (shape im)) (shape im) d Hsp Hwp
             (Nat.le_refl _) Hd Hshort).
  reflexivity.
Qed.

(** ** The momentum *)





(** ** The number of turns *)

Lemma fista_while_iters_mono fuel p (input_img : array) L st st' :
  fista_while fuel p input_img L st = Ok st' ->
  (iters st <= iters st')%nat.
Proof.
  revert st; induction fuel as [|fuel IH]; intros st H;
    cbn [fista_while] in H.
  - injection H as <-. lia.
  - destruct (i st <? n_iter_max p)%Z; [|injection H as <-; lia].
    destruct (fista_body p input_img L st) as [[s1 brk]|] eqn:Eb;
      [|discriminate].
    cbn [bind] in H.
    destruct (fista_body_counters _ _ _ _ Eb) as [Hs1 _].
    destruct brk.
    + injection H as <-. lia.
    + apply IH in H. cbn [iters] in H. lia.
Qed.

Lemma fista_while_gap fuel p (input_img : array) L st st' :
  fista_while fuel p input_img L st = Ok st' ->
  gap st' <> None -> (iters st < iters st')%nat \/ gap st <> None.
Proof.
  intros H Hg. destruct fuel as [|fuel]; cbn [fista_while] in H.
  - injection H as <-. now right.
  - destruct (i st <? n_iter_max p)%Z; [|injection H as <-; now right].
    destruct (fista_body p input_img L st) as [[s1 brk]|] eqn:Eb;
      [|discriminate].
    cbn [bind] in H.
    destruct (fista_body_counters _ _ _ _ Eb) as [Hs1 _].
    destruct brk.
    + injection H as <-. left. lia.
    + apply fista_while_iters_mono in H. cbn [iters] in H. left. lia.
Qed.

(** X10. Whenever [tv_denoise_fista] returns, the body of its loop has been
    entered at least once and at most [n_iter_max] times. *)
Theorem loop_entries (p : params) (im out : array) (st : state) :
  fista_run p im = Ok (out, st) ->
  (1 <= iters st)%nat /\ (Z.of_nat (iters st) <= n_iter_max p)%Z.
Proof.
  intros H. pose proof (fista_run_iters _ _ H) as Hle.
  assert (H1 : (1 <= iters st)%nat).
  { unfold fista_run in H.
    pose proof (fista_init_value p im) as E. cbv zeta in E. rewrite E in H.
    destruct (lipschitz (ndim im)) as [L|]; [|discriminate].
    cbn [bind] in H.
    match type of H with
    | bind (fista_while ?f _ ?a ?b ?c) _ = _ =>
        destruct (fista_while f p a b c) as [st'|] eqn:Ew; [|discriminate]
    end.
    cbn [bind] in H.
    destruct (fista_output _ _ st') as [o|] eqn:Eo; [|discriminate].
    cbn [bind] in H. injection H as _ <-.
    destruct (fista_output_value _ _ _ Eo) as [g [_ [Eg _]]].
    apply fista_while_gap in Ew; [|congruence].
    cbn [iters gap] in Ew. destruct Ew as [Ew|Ew]; [lia|congruence]. }
  split; [exact H1|lia].
Qed.

(** X9. For an image of rank 2 or 3 whose axes all have at least two
    elements, with at least one iteration allowed, a weight and a frequency
    of the checks that are not zero, [tv_denoise_fista] returns an array of
    the shape of the image, with or without bounds. *)
Theorem tv_denoise_fista_shape (p : params) (im : array) :
  wf im -> (ndim im = 2 \/ ndim im = 3)%nat -> axes_ge2 (shape im) ->
  (1 <= n_iter_max p)%Z -> check_gap_frequency p <> 0%Z ->
  weight p <> 0 ->
  exists out,
    tv_denoise_fista p im = Ok out /\ shape out = shape im /\ wf out.
Proof.
  intros Hwf Hr Hge Hn Hcg Hw.
  exact (@fista_returns p im Hwf Hr Hge Hw Hn Hcg).
Qed.

(** X19. The array that [tv_denoise_fista] returns has a floating-point
    dtype, also when the image given has not: such an image is converted
    before anything is computed. *)
Theorem output_is_float (p : params) (im out : array) :
  tv_denoise_fista p im = Ok out -> kind (dtype_of out) = "f"%char.
Proof.
  intros H. unfold tv_denoise_fista, fista_run in H.
  destruct (fista_init p im) as [[[input_img L] st]|] eqn:Ei;
    [|discriminate].
  cbn [bind] in H.
  destruct (fista_while _ p input_img L st) as [st'|]; [|discriminate].
  cbn [bind] in H.
  destruct (fista_output p input_img st') as [o|] eqn:Eo; [|discriminate].
  cbn [bind fst] in H. injection H as <-.
  destruct (fista_output_value _ _ _ Eo) as [g [output [_ [Eb ->]]]].
  unfold binop in Eb.
  destruct (shape_eqb _ _); [|discriminate]. injection Eb as <-.
  assert (Hk : kind (dtype_of input_img) = "f"%char).
  { pose proof (fista_init_value p im) as E. cbv zeta in E.
    rewrite E in Ei. destruct (lipschitz (ndim im)); [|discriminate].
    cbn [bind] in Ei. injection Ei as <- _ _.
    destruct (Ascii.eqb_spec (kind (dtype_of im)) "f") as [Hf|Hf];
      [exact Hf|reflexivity]. }
  destruct (bounded p); cbn [clip amap amap2 dtype_of];
    apply promote_float; exact Hk.
Qed.

Lemma fista_run_returns (p : params) (im : array) :
  wf im -> (ndim im = 2 \/ ndim im = 3)%nat -> axes_ge2 (shape im) ->
  (1 <= n_iter_max p)%Z -> check_gap_frequency p <> 0%Z ->
  weight p <> 0 ->
  exists out st, fista_run p im = Ok (out, st).
Proof.
  intros Hwf Hr Hge Hn Hcg Hw.
  destruct (@fista_returns p im Hwf Hr Hge Hw Hn Hcg) as [out [E _]].
  unfold tv_denoise_fista in E.
  destruct (fista_run p im) as [[o st]|e]; [|discriminate].
  exists o, st. reflexivity.
Qed.

End SolverMore.

(** ** The image returned, as the image minus a divergence *)

Section DualForm.

Open Scope R_scope.

Lemma fista_body_dual p (input_img : array) L s st s1 brk :
  L * weight p <> 0 -> s <> [] ->
  loop_inv p s st -> fista_body p input_img L st = Ok (s1, brk) ->
  exists g, gap s1 = Some g /\ dual_form p s (grad_im s1) g.
Proof.
  intros HLw Hne Hinv Eb.
  destruct (@fista_body_to_div p input_img L s st HLw Hne Hinv)
    as [prj [aux' [Hwp [Hsp [Hn E]]]]].
  rewrite E in Eb. destruct (div prj) as [dv|] eqn:Ed; [|discriminate].
  cbn [bind] in Eb. apply fista_body_end_state in Eb.
  destruct Eb as [Eg [Ep _]]. eexists. split; [exact Eg|].
  rewrite Ep. exists dv. auto.
Qed.

Lemma fista_while_dual p (input_img : array) L s fuel st st' :
  wf input_img -> shape input_img = s ->
  (length s = 2 \/ length s = 3)%nat -> axes_ge2 s ->
  check_gap_frequency p <> 0%Z -> L * weight p <> 0 ->
  loop_inv p s st ->
  (forall g, gap st = Some g -> dual_form p s (grad_im st) g) ->
  fista_while fuel p input_img L st = Ok st' ->
  forall g, gap st' = Some g -> dual_form p s (grad_im st') g.
Proof.
  intros Hwi Hsi Hr Hge Hcg HLw. revert st.
  induction fuel as [|fuel IH]; intros st Hinv Hg H; cbn [fista_while] in H.
  - injection H as <-. exact Hg.
  - destruct (i st <? n_iter_max p)%Z; [|injection H as <-; exact Hg].
    destruct (fista_body_ok Hwi Hsi Hr Hge Hcg HLw Hinv)
      as [s1 [brk [Eb [Hinv1 _]]]].
    rewrite Eb in H. cbn [bind] in H.
    destruct (@fista_body_dual p input_img L s st s1 brk HLw
                (rank_not_nil Hr) Hinv Eb)
      as [g1 [Eg1 Hd1]].
    assert (Hg1 : forall g, gap s1 = Some g ->
                            dual_form p s (grad_im s1) g).
    { intros g Hg'. rewrite Eg1 in Hg'. injection Hg' as <-. exact Hd1. }
    destruct brk.
    + injection H as <-. exact Hg1.
    + eapply IH; [| |exact H]; [exact Hinv1|exact Hg1].
Qed.

(** When the loop is left, [gap] is [weight] times the divergence of
    [grad_im], a field in the dual ball, and what [tv_denoise_fista]
    returns is the image minus [gap], clipped when bounds are given. *)
Lemma fista_run_dual (p : params) (im : array) :
  wf im -> (ndim im = 2 \/ ndim im = 3)%nat -> axes_ge2 (shape im) ->
  (1 <= n_iter_max p)%Z -> check_gap_frequency p <> 0%Z ->
  weight p <> 0 ->
  exists out st g,
    fista_run p im = Ok (out, st)
    /\ dual_form p (shape im) (grad_im st) g /\ shape g = shape im /\ wf g
    /\ shape out = shape im
    /\ data out
       = if bounded p
         then map (clip1 (val_min p) (val_max p))
                (map2 Rminus (data im) (data g))
         else map2 Rminus (data im) (data g).
Proof.
  intros Hwf Hr Hge Hn Hcg Hw.
  destruct (@fista_run_start p im Hr) as [L [HL ->]].
  pose proof (step_defined HL Hw) as HLw.
  destruct (@input_img_facts im Hwf) as [Hwi [Hsi Hdi]].
  set (input_img := if Ascii.eqb (kind (dtype_of im)) "f"
                    then im else astype_float im) in *.
  destruct (@fista_while_ok p input_img L (shape im)
              (Z.to_nat (n_iter_max p)) (fista_start p im)
              Hwi Hsi Hr Hge Hcg HLw (@loop_inv_start p im Hwf))
    as [st' [Ew [Hinv Hg]]].
  rewrite Ew. cbn [bind].
  assert (Hd : forall g, gap st' = Some g ->
                         dual_form p (shape im) (grad_im st') g).
  { assert (H0 : forall g, gap (fista_start p im) = Some g ->
                           dual_form p (shape im)
                             (grad_im (fista_start p im)) g)
      by (intros g [=]).
    exact (@fista_while_dual p input_img L (shape im)
             (Z.to_nat (n_iter_max p)) (fista_start p im) st'
             Hwi Hsi Hr Hge Hcg HLw (@loop_inv_start p im Hwf) H0 Ew). }
  unfold fista_output.
  destruct (gap st') as [g|] eqn:Eg.
  2:{ exfalso. apply Hg; [|reflexivity]. right. cbn [fista_start i]. lia. }
  destruct Hinv as (_ & _ & _ & _ & _ & _ & _ & Hgap).
  destruct (Hgap g Eg) as [Hsg Hwg].
  cbn [lookup bind]. rewrite binop_same by congruence. cbn [bind].
  rewrite !opp_opp.
  destruct (bounded p); cbn [bind fst]; eexists _, st', g;
    (split; [reflexivity|]); (split; [now apply Hd|]);
    (split; [exact Hsg|]); (split; [exact Hwg|]);
    (split; [exact Hsi|]); cbn [clip amap amap2 data]; now rewrite Hdi.
Qed.

(** What [tv_denoise_fista] returns is the image minus [weight] times the
    divergence of a field in the dual ball, clipped when bounds are
    given. *)
Lemma fista_returns_dual (p : params) (im : array) :
  wf im -> (ndim im = 2 \/ ndim im = 3)%nat -> axes_ge2 (shape im) ->
  (1 <= n_iter_max p)%Z -> check_gap_frequency p <> 0%Z ->
  weight p <> 0 ->
  exists out g,
    tv_denoise_fista p im = Ok out
    /\ (exists prj, dual_form p (shape im) prj g)
    /\ shape g = shape im /\ wf g
    /\ shape out = shape im
    /\ data out
       = if bounded p
         then map (clip1 (val_min p) (val_max p))
                (map2 Rminus (data im) (data g))
         else map2 Rminus (data im) (data g).
Proof.
  intros Hwf Hr Hge Hn Hcg Hw.
  destruct (@fista_run_dual p im Hwf Hr Hge Hn Hcg Hw)
    as [out [st [g [E [Hd H]]]]].
  exists out, g. unfold tv_denoise_fista. rewrite E.
  split; [reflexivity|]. split; [eauto|exact H].
Qed.

(** X14. In exact real arithmetic, the image that [tv_denoise_fista]
    returns is, element by element, the image given minus [weight] times
    the divergence of [grad_im] as the loop leaves it (the last projected
    dual field), whose norm is at most 1 at every grid point; the
    difference is clipped to the bounds when bounds are given. *)
Theorem output_dual_form (p : params) (im : array) :
  wf im -> (ndim im = 2 \/ ndim im = 3)%nat -> axes_ge2 (shape im) ->
  (1 <= n_iter_max p)%Z -> check_gap_frequency p <> 0%Z ->
  weight p <> 0 ->
  exists out st dv,
    fista_run p im = Ok (out, st)
    /\ tv_denoise_fista p im = Ok out
    /\ wf (grad_im st) /\ shape (grad_im st) = ndim im :: shape im
    /\ (forall idx, in_range (shape im) idx ->
                    point_norm (grad_im st) idx <= 1)
    /\ div (grad_im st) = Ok dv
    /\ shape out = shape im
    /\ forall idx, in_range (shape im) idx ->
         item 0 out idx
         = if bounded p
           then clip1 (val_min p) (val_max p)
                  (item 0 im idx - weight p * item 0 dv idx)
           else item 0 im idx - weight p * item 0 dv idx.
Proof.
  intros Hwf Hr Hge Hn Hcg Hw.
  destruct (@fista_run_dual p im Hwf Hr Hge Hn Hcg Hw)
    as [out [st [g [E [[dv [Hwp [Hsp [Hnorm [Ed ->]]]]]
                         [Hsg [Hwg [Hso Hdo]]]]]]]].
  exists out, st, dv. split; [exact E|].
  split; [unfold tv_denoise_fista; now rewrite E|].
  split; [exact Hwp|]. split; [exact Hsp|].
  split; [exact Hnorm|]. split; [exact Ed|]. split; [exact Hso|].
  intros idx Hidx. pose proof (ravel_lt Hidx) as Hlt.
  cbn [amap shape] in Hsg. unfold wf in Hwg. cbn [amap shape data] in Hwg.
  assert (Hl : length (map2 Rminus (data im)
                         (data (amap (Rmult (weight p)) dv)))
               = size (shape im)).
  { cbn [amap data]. rewrite map2_length, Hwf, Hwg, Hsg.
    apply Nat.min_id. }
  assert (En : nth (ravel (shape im) idx)
                 (map2 Rminus (data im) (data (amap (Rmult (weight p)) dv)))
                 0
               = nth (ravel (shape im) idx) (data im) 0
                 - weight p * nth (ravel (shape im) idx) (data dv) 0).
  { cbn [amap data].
    rewrite nth_map2 by (rewrite ?Hwg, ?Hsg; try rewrite Hwf; exact Hlt).
    now rewrite nth_map_scal. }
  unfold item. rewrite Hso, Hdo, Hsg.
  destruct (bounded p).
  - rewrite (nth_indep _ 0 (clip1 (val_min p) (val_max p) 0))
      by (rewrite length_map, Hl; exact Hlt).
    now rewrite (map_nth (clip1 (val_min p) (val_max p))), En.
  - exact En.
Qed.

Lemma sum_map2_minus (l l' : list R) :
  length l = length l' ->
  fold_right Rplus 0 (map2 Rminus l l')
  = fold_right Rplus 0 l - fold_right Rplus 0 l'.
Proof.
  revert l'; induction l as [|x l IH]; intros [|y l'] H; simpl in H;
    try discriminate; cbn [map2 fold_right]; [lra|].
  rewrite IH by lia. lra.
Qed.

Lemma sum_map_scal (c : R) (l : list R) :
  fold_right Rplus 0 (map (Rmult c) l) = c * fold_right Rplus 0 l.
Proof.
  induction l as [|x l IH]; cbn [map fold_right]; [lra|]. rewrite IH. lra.
Qed.

(** X15. In exact real arithmetic and without bounds, the image that
    [tv_denoise_fista] returns has the same sum of elements, hence the
    same mean, as the image given (the weight is not zero, so that the
    step [1 / (lipschitz_constant * weight)] is defined). *)
Theorem output_sum_preserved (p : params) (im : array) :
  wf im -> (ndim im = 2 \/ ndim im = 3)%nat -> axes_ge2 (shape im) ->
  (1 <= n_iter_max p)%Z -> check_gap_frequency p <> 0%Z ->
  weight p <> 0 -> bounded p = false ->
  exists out, tv_denoise_fista p im = Ok out /\ np_sum out = np_sum im.
Proof.
  intros Hwf Hr Hge Hn Hcg Hw Hb.
  destruct (@fista_returns_dual p im Hwf Hr Hge Hn Hcg Hw)
    as [out [g [E [[prj [dv [Hwp [Hsp [_ [Ed ->]]]]]]
                     [Hsg [Hwg [_ Hdo]]]]]]].
  rewrite Hb in Hdo.
  exists out. split; [exact E|]. unfold np_sum. rewrite Hdo.
  rewrite sum_map2_minus by (rewrite Hwf, Hwg, Hsg; reflexivity).
  cbn [amap data]. rewrite sum_map_scal.
  rewrite (div_blocks Hsp Hwp (Nat.le_refl _)) in Ed.
  2:{ intros d Hd. unfold axes_ge2 in Hge. rewrite Forall_forall in Hge.
      apply Hge. now apply nth_In. }
  injection Ed as <-. cbn [data]. rewrite div_data_sum; [lra|lia|].
  intros d Hd. split.
  - pose proof (chunks_all_length (size (shape im)) (length (shape im))
                  (data prj)) as HF.
    rewrite Forall_forall in HF. apply HF.
    + rewrite Hwp, Hsp. reflexivity.
    + apply nth_In. now rewrite chunks_length.
  - unfold axes_ge2 in Hge. rewrite Forall_forall in Hge.
    apply Hge. now apply nth_In.
Qed.

Lemma in_range_unbump k s idx : in_range s idx -> in_range s (unbump k idx).
Proof.
  intros H; revert k; induction H as [|i n idx s Hi Hr IH]; intros [|k];
    cbn [unbump]; try (constructor; fail).
  - constructor; [lia|exact Hr].
  - constructor; [exact Hi|apply IH].
Qed.

Lemma sum_squares_nonneg (A : Type) (g : A -> R) (l : list A) :
  0 <= fold_right Rplus 0 (map (fun x => g x ^ 2) l).
Proof.
  induction l as [|x l IH]; cbn [map fold_right]; [lra|].
  pose proof (pow2_ge_0 (g x)). lra.
Qed.

Lemma square_le_sum (A : Type) (f : A -> R) (l : list A) x :
  In x l -> f x ^ 2 <= fold_right Rplus 0 (map (fun k => f k ^ 2) l).
Proof.
  induction l as [|y l IH]; intros H; [destruct H|].
  cbn [map fold_right].
  pose proof (pow2_ge_0 (f y)). pose proof (sum_squares_nonneg f l).
  destruct H as [->|H]; [lra|]. specialize (IH H). lra.
Qed.

(** A component of a field is at most the norm across the components. *)
Lemma comp_le_norm (f : array) c s k idx :
  shape f = c :: s -> (k < c)%nat ->
  Rabs (item 0 f (k :: idx)) <= point_norm f idx.
Proof.
  intros Hs Hk. unfold point_norm. rewrite Hs. cbn [hd].
  rewrite <- sqrt_Rsqr_abs. apply sqrt_le_1_alt.
  replace (Rsqr (item 0 f (k :: idx))) with (item 0 f (k :: idx) ^ 2)
    by (unfold Rsqr; ring).
  apply (@square_le_sum nat (fun k => item 0 f (k :: idx)) (seq 0 c) k).
  apply in_seq. lia.
Qed.

Lemma bwd_diff_bound (f : array) c s k idx :
  shape f = c :: s -> (k < c)%nat -> in_range s idx ->
  (forall idx', in_range s idx' -> point_norm f idx' <= 1) ->
  Rabs (bwd_diff f k idx) <= 2.
Proof.
  intros Hs Hk Hr Hn. unfold bwd_diff.
  pose proof (@comp_le_norm f c s k idx Hs Hk) as H1.
  pose proof (@comp_le_norm f c s k (unbump k idx) Hs Hk) as H2.
  pose proof (Hn idx Hr) as N1.
  pose proof (Hn (unbump k idx) (@in_range_unbump k s idx Hr)) as N2.
  set (a := if (S (nth k idx 0) <? nth k (tl (shape f)) 0)%nat
            then item 0 f (k :: idx) else 0).
  set (b := if (1 <=? nth k idx 0)%nat
            then item 0 f (k :: unbump k idx) else 0).
  assert (Ha : Rabs a <= 1).
  { unfold a. destruct (_ <? _)%nat; [lra|]. rewrite Rabs_R0. lra. }
  assert (Hb : Rabs b <= 1).
  { unfold b. destruct (_ <=? _)%nat; [lra|]. rewrite Rabs_R0. lra. }
  pose proof (Rabs_triang a (- b)) as Ht. rewrite Rabs_Ropp in Ht.
  unfold Rminus. lra.
Qed.

Lemma Rsum_abs_bound (A : Type) (f : A -> R) (l : list A) (B : R) :
  (forall x, In x l -> Rabs (f x) <= B) ->
  Rabs (Rsum (map f l)) <= INR (length l) * B.
Proof.
  intros H. induction l as [|x l IH].
  - cbn [map Rsum fold_right length INR]. rewrite Rabs_R0. lra.
  - cbn [map length]. rewrite Rsum_cons, S_INR.
    pose proof (Rabs_triang (f x) (Rsum (map f l))) as Ht.
    pose proof (H x (or_introl eq_refl)).
    assert (Rabs (Rsum (map f l)) <= INR (length l) * B)
      by (apply IH; intros y Hy; apply H; now right).
    lra.
Qed.

(** X16. In exact real arithmetic, without bounds and with a positive
    weight, [tv_denoise_fista] changes no element of the image by more
    than [2 * ndim * weight]. *)
Theorem output_change_bounded (p : params) (im : array) :
  wf im -> (ndim im = 2 \/ ndim im = 3)%nat -> axes_ge2 (shape im) ->
  (1 <= n_iter_max p)%Z -> check_gap_frequency p <> 0%Z ->
  0 < weight p -> bounded p = false ->
  exists out,
    tv_denoise_fista p im = Ok out
    /\ forall idx, in_range (shape im) idx ->
         Rabs (item 0 out idx - item 0 im idx)
         <= 2 * INR (ndim im) * weight p.
Proof.
  intros Hwf Hr Hge Hn Hcg Hw Hb.
  destruct (@fista_returns_dual p im Hwf Hr Hge Hn Hcg
              (Rgt_not_eq _ _ Hw))
    as [out [g [E [[prj [dv [Hwp [Hsp [Hnorm [Ed ->]]]]]]
                     [Hsg [Hwg [Hso Hdo]]]]]]].
  rewrite Hb in Hdo.
  exists out. split; [exact E|]. intros idx Hidx.
  assert (Hax : forall d, (d < length (shape im))%nat ->
                          (2 <= nth d (shape im) 0)%nat).
  { intros d Hd. unfold axes_ge2 in Hge. rewrite Forall_forall in Hge.
    apply Hge. now apply nth_In. }
  destruct (@div_items prj (length (shape im)) (shape im) Hsp Hwp
              (Nat.le_refl _) Hax) as [Ed' [Hl Hit]].
  rewrite Ed' in Ed. injection Ed as <-.
  pose proof (ravel_lt Hidx) as Hlt.
  unfold item. rewrite Hso, Hdo. cbn [amap data].
  rewrite nth_map2
    by (rewrite ?length_map, ?Hl; try rewrite Hwf; exact Hlt).
  rewrite nth_map_scal, Hit by exact Hidx.
  replace (nth (ravel (shape im) idx) (data im) 0
           - weight p
             * Rsum (map (fun k => bwd_diff prj k idx)
                       (seq 0 (length (shape im))))
           - nth (ravel (shape im) idx) (data im) 0)
    with (- (weight p
             * Rsum (map (fun k => bwd_diff prj k idx)
                       (seq 0 (length (shape im)))))) by ring.
  rewrite Rabs_Ropp, Rabs_mult, (Rabs_pos_eq (weight p)) by lra.
  pose proof (@Rsum_abs_bound nat (fun k => bwd_diff prj k idx)
                (seq 0 (length (shape im))) 2) as HB.
  rewrite length_seq in HB.
  assert (Rabs (Rsum (map (fun k => bwd_diff prj k idx)
                        (seq 0 (length (shape im)))))
          <= INR (length (shape im)) * 2).
  { apply HB. intros k Hk. apply in_seq in Hk.
    apply bwd_diff_bound with (c := length (shape im)) (s := shape im);
      auto; lia. }
  unfold ndim. nra.
Qed.

End DualForm.

(** ** The test of adjointness *)

Section SelfTest.

Open Scope R_scope.

Lemma adjoint_dot (x y : array) :
  wf x -> wf y -> shape y = ndim x :: shape x -> axes_ge2 (shape x) ->
  dot (concat (map (grad_comp 0 Rminus x) (seq 0 (ndim x)))) (data y)
  = - dot (data x)
        (div_data (shape x) (chunks (size (shape x)) (ndim x) (data y))
           (ndim x)).
Proof.
  intros Hx Hy Hs Hge.
  assert (Hn : forall d, (d < ndim x)%nat -> (2 <= nth d (shape x) 0)%nat).
  { intros d Hd. unfold axes_ge2 in Hge.
    rewrite Forall_forall in Hge. apply Hge. now apply nth_In. }
  set (s := shape x) in *. set (r := ndim x) in *.
  set (Y := chunks (size s) r (data y)).
  assert (HY : Forall (fun b => length b = size s) Y).
  { apply chunks_all_length. rewrite Hy, Hs. reflexivity. }
  rewrite div_data_dot; [|exact Hx|fold r; lia|].
  2:{ intros d Hd. split; [|now apply Hn].
      rewrite Forall_forall in HY. apply HY, nth_In.
      unfold Y. now rewrite chunks_length. }
  rewrite Ropp_involutive.
  assert (Ey : data y = concat Y).
  { symmetry. apply chunks_concat. rewrite Hy, Hs. reflexivity. }
  rewrite Ey, dot_concat with (k := size s); [|idtac|exact HY].
  - f_equal. change Y with (skipn 0 Y) at 1.
    apply map2_seq_nth. unfold Y. rewrite chunks_length. lia.
  - apply Forall_forall. intros g Hg. apply in_map_iff in Hg.
    destruct Hg as [d [<- Hd]]. apply in_seq in Hd.
    apply grad_comp_length; [exact Hx|fold r; lia].
Qed.

(** X18. [test_grad_div_adjoint] passes for every draw of its two arrays
    when [size] is at least 2, the two sums being then equal; for a smaller
    [size] it ends on the [IndexError] that [div] raises. *)
Theorem test_grad_div_adjoint_outcome (n : nat) (x y : array) :
  wf x -> wf y -> shape x = [n; n; n]%nat -> shape y = [3; n; n; n]%nat ->
  test_grad_div_adjoint x y
  = if (2 <=? n)%nat then Passed else Error IndexError.
Proof.
  intros Hx Hy Hsx Hsy. unfold test_grad_div_adjoint.
  assert (Hnd : ndim x = 3%nat) by (unfold ndim; now rewrite Hsx).
  assert (Hs : shape y = ndim x :: shape x) by now rewrite Hnd, Hsx.
  rewrite gradient_blocks by exact Hx. cbn [bind].
  rewrite np_sum_prod by (cbn [shape]; now rewrite Hs). cbn [bind data].
  destruct (Nat.leb_spec 2 n) as [H2|H2].
  - assert (Hge : axes_ge2 (shape x))
      by (rewrite Hsx; repeat constructor; exact H2).
    rewrite (div_blocks Hs Hy).
    2:{ unfold ndim. lia. }
    2:{ intros d Hd. unfold axes_ge2 in Hge. rewrite Forall_forall in Hge.
        apply Hge. now apply nth_In. }
    cbn [bind]. rewrite np_sum_prod by reflexivity. cbn [bind data].
    rewrite (@adjoint_dot x y Hx Hy Hs Hge).
    unfold assert_almost_equal.
    match goal with
    | |- context [Rabs ?e] => replace e with 0 by ring
    end.
    rewrite Rabs_R0.
    destruct (Rlt_dec 0 (1.5 * / 10 ^ 7)) as [_|Hc]; [reflexivity|].
    exfalso. apply Hc. apply Rmult_lt_0_compat; [lra|].
    apply Rinv_0_lt_compat. apply pow_lt. lra.
  - rewrite (@div_short_axis y (ndim x) (shape x) 0%nat Hs Hy).
    + reflexivity.
    + unfold ndim. lia.
    + lia.
    + rewrite Hsx. cbn [nth]. lia.
Qed.

End SelfTest.

(** ** Constant images *)

Section Constant.

Open Scope R_scope.

(** X5. The gradient of a constant image is zero everywhere. *)
Theorem gradient_of_constant (img : array) (v : R) :
  wf img -> Forall (eq v) (data img) ->
  exists g, gradient 0 Rminus img = Ok g /\ Forall (eq 0) (data g).
Proof.
  intros Hwf Hc. eexists. split; [now apply gradient_blocks|].
  cbn [data]. apply Forall_concat. apply Forall_forall.
  intros b Hb. apply in_map_iff in Hb. destruct Hb as [d [<- _]].
  now apply grad_comp_const with (v := v).
Qed.

Lemma zeros_map (f : R -> R) (l : list R) :
  f 0 = 0 -> Forall (eq 0) l -> Forall (eq 0) (map f l).
Proof.
  intros Hf H. induction H as [|x l Hx _ IH]; cbn [map]; constructor; auto.
  subst x. now rewrite Hf.
Qed.

Lemma zeros_map2 (f : R -> R -> R) (l l' : list R) :
  f 0 0 = 0 -> Forall (eq 0) l -> Forall (eq 0) l' ->
  Forall (eq 0) (map2 f l l').
Proof.
  intros Hf H; revert l'; induction H as [|x l Hx _ IH]; intros l' H';
    [constructor|].
  destruct H' as [|y l' Hy H']; cbn [map2]; constructor; auto.
  subst x y. now rewrite Hf.
Qed.

Lemma zeros_nth (l : list R) q : Forall (eq 0) l -> nth q l 0 = 0.
Proof.
  intros H; revert q; induction H as [|x l Hx _ IH]; intros [|q];
    cbn [nth]; auto.
Qed.

Lemma zeros_of_nth (l : list R) :
  (forall q, (q < length l)%nat -> nth q l 0 = 0) -> Forall (eq 0) l.
Proof.
  induction l as [|x l IH]; intros H; constructor.
  - symmetry. apply (H 0%nat). simpl. lia.
  - apply IH. intros q Hq. apply (H (S q)). simpl. lia.
Qed.

Lemma map2_minus_zeros (l z : list R) :
  length l = length z -> Forall (eq 0) z -> map2 Rminus l z = l.
Proof.
  revert z; induction l as [|x l IH]; intros [|y z] H Hz; simpl in H;
    try discriminate; [reflexivity|].
  inversion Hz; subst. cbn [map2]. rewrite IH by (assumption || lia).
  f_equal. lra.
Qed.

Lemma map2_zeros_minus (z l : list R) :
  length z = length l -> Forall (eq 0) z -> map2 Rminus z l = map Ropp l.
Proof.
  revert l; induction z as [|y z IH]; intros [|x l] H Hz; simpl in H;
    try discriminate; [reflexivity|].
  inversion Hz; subst. cbn [map2 map]. rewrite IH by (assumption || lia).
  f_equal. lra.
Qed.

(** A property of the variables of the loop that its body keeps, and that
    does not depend on [i], holds when the loop is left. *)
Lemma fista_while_inv (Q : state -> Prop) p (input_img : array) L s fuel
  st st' :
  wf input_img -> shape input_img = s ->
  (length s = 2 \/ length s = 3)%nat -> axes_ge2 s ->
  check_gap_frequency p <> 0%Z -> L * weight p <> 0 ->
  (forall st0 z, Q st0 ->
     Q (mkstate (grad_im st0) (grad_aux st0) (t st0) z (negated_output st0)
          (negated_output_old st0) (gap st0) (iters st0))) ->
  (forall st0 s1 brk,
     loop_inv p s st0 -> Q st0 ->
     fista_body p input_img L st0 = Ok (s1, brk) -> Q s1) ->
  loop_inv p s st -> Q st ->
  fista_while fuel p input_img L st = Ok st' -> Q st'.
Proof.
  intros Hwi Hsi Hr Hge Hcg HLw Hz Hbody. revert st.
  induction fuel as [|fuel IH]; intros st Hinv HQ H; cbn [fista_while] in H.
  - now injection H as <-.
  - destruct (i st <? n_iter_max p)%Z; [|now injection H as <-].
    destruct (fista_body_ok Hwi Hsi Hr Hge Hcg HLw Hinv)
      as [s1 [brk [Eb [Hinv1 _]]]].
    rewrite Eb in H. cbn [bind] in H.
    pose proof (Hbody st s1 brk Hinv HQ Eb) as HQ1.
    destruct brk.
    + now injection H as <-.
    + eapply IH; [| |exact H]; [exact Hinv1|apply Hz; exact HQ1].
Qed.

(** For a constant image and without bounds, a turn of the loop leaves
    the two fields zero and [negated_output] the negated image. *)
Lemma fista_body_flat p (input_img : array) L s st s1 brk (v : R) :
  wf input_img -> shape input_img = s -> axes_ge2 s -> s <> [] ->
  L * weight p <> 0 ->
  bounded p = false -> Forall (eq v) (data input_img) ->
  loop_inv p s st -> flat_state input_img st ->
  fista_body p input_img L st = Ok (s1, brk) ->
  flat_state input_img s1.
Proof.
  intros Hwi Hsi Hge Hne HLw Hb Hv Hinv (Za & Zi & En & _) Eb.
  assert (Hax : forall d, (d < length s)%nat -> (2 <= nth d s 0)%nat).
  { intros d Hd. unfold axes_ge2 in Hge. rewrite Forall_forall in Hge.
    apply Hge. now apply nth_In. }
  destruct Hinv as (Hwn & Hsn & Hwa & Hsa & Hwg & Hsg & _ & _).
  assert (Hsh : shape (grad_aux st)
                = ndim (negated_output st) :: shape (negated_output st))
    by (unfold ndim; now rewrite Hsa, Hsn).
  rewrite fista_body_split in Eb.
  rewrite (@fista_ascent_value p L st HLw Hwn Hwa Hsh) in Eb.
  cbn [bind] in Eb.
  set (G := concat (map (grad_comp 0 Rminus (negated_output st))
                      (seq 0 (ndim (negated_output st))))) in *.
  assert (ZG : Forall (eq 0) G).
  { unfold G. apply Forall_concat. apply Forall_forall.
    intros b Hb'. apply in_map_iff in Hb'. destruct Hb' as [d [<- _]].
    apply grad_comp_const with (v := - v). rewrite En.
    clear -Hv. induction Hv as [|x l Hx _ IH]; cbn [map]; constructor; auto.
    now subst. }
  set (aux := mkarray (dtype_of (grad_aux st)) (shape (grad_aux st))
                (map2 Rplus (data (grad_aux st))
                   (map (fun x => x * (1 / (L * weight p))) G))) in *.
  assert (Zaux : Forall (eq 0) (data aux)).
  { unfold aux. cbn [data]. apply zeros_map2; [lra|exact Za|].
    apply zeros_map; [lra|exact ZG]. }
  assert (Hsaux : shape aux = length s :: s) by exact Hsa.
  assert (Hwaux : wf aux).
  { unfold aux, wf. cbn [data shape]. rewrite map2_length, length_map, Hwa.
    pose proof (gradient_wf Hwn) as Hwg'. unfold wf in Hwg'.
    cbn [data shape] in Hwg'. fold G in Hwg'. rewrite Hwg', Hsh.
    apply Nat.min_id. }
  destruct (projector_flat Hsaux Hwaux Hne)
    as [prj [Ep [Hsp [_ [Hwp Hp]]]]].
  rewrite Ep in Eb. cbn [bind] in Eb.
  assert (Zprj : Forall (eq 0) (data prj)).
  { apply zeros_of_nth. intros q Hq. rewrite Hwp, Hsp in Hq.
    change (size (length s :: s)) with (length s * size s)%nat in Hq.
    assert (Hsz : (0 < size s)%nat) by nia.
    pose proof (Nat.div_mod_eq q (size s)) as Eq.
    pose proof (Nat.mod_upper_bound q (size s)) as Hm.
    assert (Hk : (q / size s < length s)%nat)
      by (apply Nat.Div0.div_lt_upper_bound; lia).
    replace q with (q / size s * size s + q mod size s)%nat by lia.
    rewrite Hp by (assumption || lia).
    rewrite zeros_nth by exact Zaux. unfold Rdiv. apply Rmult_0_l. }
  rewrite binop_same in Eb by (cbn [amap shape]; congruence).
  cbn [bind] in Eb.
  destruct (@div_items prj (length s) s Hsp Hwp (Nat.le_refl _) Hax)
    as [Ed [Hl Hit]].
  rewrite Ed in Eb. cbn [bind] in Eb.
  set (D := div_data s (chunks (size s) (length s) (data prj)) (length s))
    in *.
  assert (ZD : Forall (eq 0) D).
  { apply zeros_of_nth. intros q Hq. rewrite Hl in Hq.
    destruct (ravel_onto s Hq) as [idx [Hidx <-]].
    rewrite Hit by exact Hidx.
    replace (map (fun k => bwd_diff prj k idx) (seq 0 (length s)))
      with (map (fun _ : nat => 0) (seq 0 (length s))).
    - apply Rsum_zero.
    - apply map_ext. intros k. unfold bwd_diff, item.
      rewrite !zeros_nth by exact Zprj.
      destruct (_ <? _)%nat, (_ <=? _)%nat; lra. }
  unfold fista_body_end in Eb.
  rewrite binop_same in Eb by (cbn [amap shape]; congruence).
  cbn [bind] in Eb. rewrite Hb in Eb.
  assert (Zgap : Forall (eq 0)
                   (data (amap (Rmult (weight p)) (mkarray float64 s D)))).
  { cbn [amap data]. apply zeros_map; [lra|exact ZD]. }
  assert (Eneg : data (amap2 Rminus
                         (amap (Rmult (weight p)) (mkarray float64 s D))
                         input_img)
                 = map Ropp (data input_img)).
  { cbn [amap2 amap data]. apply map2_zeros_minus.
    - rewrite length_map, Hl, Hwi, Hsi. reflexivity.
    - apply zeros_map; [lra|exact ZD]. }
  assert (Zaux' : Forall (eq 0)
            (data (amap2 Rminus
                     (amap (Rmult (1 + (t st - 1)
                              / (1 / 2 * (1 + sqrt (1 + 4 * t st ^ 2)))))
                        prj)
                     (amap (Rmult ((t st - 1)
                              / (1 / 2 * (1 + sqrt (1 + 4 * t st ^ 2)))))
                        (grad_im st))))).
  { cbn [amap2 amap data]. apply zeros_map2; [lra| |].
    - apply zeros_map; [lra|exact Zprj].
    - apply zeros_map; [lra|exact Zi]. }
  destruct (check_gap_frequency p =? 0)%Z; [discriminate|].
  destruct (i st mod check_gap_frequency p =? 0)%Z.
  - match type of Eb with
    | bind ?m _ = _ => destruct m as [[? ?]|];
                       [cbn [bind] in Eb|discriminate]
    end.
    injection Eb as <- _. unfold flat_state.
    cbn [grad_aux grad_im negated_output gap].
    split; [exact Zaux'|]. split; [exact Zprj|]. split; [exact Eneg|].
    intros g [= <-]. exact Zgap.
  - injection Eb as <- _. unfold flat_state.
    cbn [grad_aux grad_im negated_output gap].
    split; [exact Zaux'|]. split; [exact Zprj|]. split; [exact Eneg|].
    intros g [= <-]. exact Zgap.
Qed.

(** X17. In exact real arithmetic and without bounds, [tv_denoise_fista]
    returns a constant image unchanged, whatever the weight (not zero)
    and the number of iterations. *)
Theorem constant_image_unchanged (p : params) (im : array) (v : R) :
  wf im -> (ndim im = 2 \/ ndim im = 3)%nat -> axes_ge2 (shape im) ->
  (1 <= n_iter_max p)%Z -> check_gap_frequency p <> 0%Z ->
  weight p <> 0 -> bounded p = false ->
  Forall (eq v) (data im) ->
  exists out,
    tv_denoise_fista p im = Ok out
    /\ shape out = shape im /\ data out = data im.
Proof.
  intros Hwf Hr Hge Hn Hcg Hw Hb Hv. unfold tv_denoise_fista.
  destruct (@fista_run_start p im Hr) as [L [HL ->]].
  pose proof (step_defined HL Hw) as HLw.
  destruct (@input_img_facts im Hwf) as [Hwi [Hsi Hdi]].
  set (input_img := if Ascii.eqb (kind (dtype_of im)) "f"
                    then im else astype_float im) in *.
  destruct (@fista_while_ok p input_img L (shape im)
              (Z.to_nat (n_iter_max p)) (fista_start p im)
              Hwi Hsi Hr Hge Hcg HLw (@loop_inv_start p im Hwf))
    as [st' [Ew [Hinv Hg]]].
  rewrite Ew. cbn [bind].
  assert (Hflat : flat_state input_img st').
  { apply (@fista_while_inv (flat_state input_img) p input_img L (shape im)
             (Z.to_nat (n_iter_max p)) (fista_start p im) st'
             Hwi Hsi Hr Hge Hcg HLw).
    - intros st0 z H. exact H.
    - intros st0 s1 brk Hi0 HQ0 Eb.
      apply (@fista_body_flat p input_img L (shape im) st0 s1 brk v);
        auto; [exact (rank_not_nil Hr)|now rewrite Hdi].
    - apply loop_inv_start. exact Hwf.
    - unfold flat_state, fista_start.
      cbn [grad_aux grad_im negated_output gap np_zeros data amap].
      fold input_img.
      split; [|split; [|split; [reflexivity|intros g [=]]]];
        apply Forall_forall; intros y Hy; apply repeat_spec in Hy;
        now subst.
    - exact Ew. }
  unfold fista_output.
  destruct (gap st') as [g|] eqn:Eg.
  2:{ exfalso. apply Hg; [|reflexivity]. right. cbn [fista_start i]. lia. }
  destruct Hinv as (_ & _ & _ & _ & _ & _ & _ & Hgap).
  destruct (Hgap g Eg) as [Hsg Hwg].
  destruct Hflat as (_ & _ & _ & Zg). specialize (Zg g Eg).
  cbn [lookup bind]. rewrite binop_same by congruence. cbn [bind].
  rewrite Hb. cbn [bind fst]. eexists. split; [reflexivity|].
  split; [exact Hsi|]. cbn [amap2 data]. rewrite Hdi.
  apply map2_minus_zeros; [|exact Zg].
  rewrite Hwf, Hwg, Hsg. reflexivity.
Qed.

End Constant.

(** ** A change of contrast *)

Section Equivariance.

Open Scope R_scope.

Variable c : R.
Hypothesis Hc : 0 < c.

Lemma amap_amap (f g : R -> R) (a : array) :
  amap f (amap g a) = amap (fun x => f (g x)) a.
Proof. unfold amap. cbn [dtype_of shape data]. now rewrite map_map. Qed.

Lemma amap_ext (f g : R -> R) (a : array) :
  (forall x, f x = g x) -> amap f a = amap g a.
Proof. intros H. unfold amap. f_equal. now apply map_ext. Qed.

Lemma map2_minus_scal (l l' : list R) :
  map2 Rminus (map (Rmult c) l) (map (Rmult c) l')
  = map (Rmult c) (map2 Rminus l l').
Proof.
  revert l'; induction l as [|x l IH]; intros [|y l']; cbn [map map2];
    try reflexivity.
  rewrite IH. f_equal. ring.
Qed.

Lemma amap2_minus_scal (a b : array) :
  amap2 Rminus (amap (Rmult c) a) (amap (Rmult c) b)
  = amap (Rmult c) (amap2 Rminus a b).
Proof.
  unfold amap2, amap. cbn [dtype_of shape data]. now rewrite map2_minus_scal.
Qed.

Lemma binop_minus_scal (a b : array) :
  binop Rminus (amap (Rmult c) a) (amap (Rmult c) b)
  = (r <- binop Rminus a b ;; Ok (amap (Rmult c) r)).
Proof.
  unfold binop.
  change (shape (amap (Rmult c) a)) with (shape a).
  change (shape (amap (Rmult c) b)) with (shape b).
  destruct (shape_eqb (shape a) (shape b)); cbn [bind]; [|reflexivity].
  now rewrite amap2_minus_scal.
Qed.

Lemma opp_scal (a : array) :
  amap Ropp (amap (Rmult c) a) = amap (Rmult c) (amap Ropp a).
Proof. rewrite !amap_amap. apply amap_ext. intros x. ring. Qed.

Lemma abs_scal (a : array) :
  amap Rabs (amap (Rmult c) a) = amap (Rmult c) (amap Rabs a).
Proof.
  rewrite !amap_amap. apply amap_ext. intros x.
  now rewrite Rabs_mult, (Rabs_pos_eq c) by lra.
Qed.

Lemma chunks_map (A B : Type) (f : A -> B) k n (l : list A) :
  chunks k n (map f l) = map (map f) (chunks k n l).
Proof.
  revert l; induction n as [|n IH]; intros l; cbn [chunks map];
    [reflexivity|].
  now rewrite firstn_map, skipn_map, IH.
Qed.

Lemma grad_block_scal w n (b : list R) :
  grad_block 0 Rminus w n (map (Rmult c) b)
  = map (Rmult c) (grad_block 0 Rminus w n b).
Proof.
  unfold grad_block, diff_block.
  rewrite map_app, skipn_map, map2_minus_scal, map_repeat.
  f_equal. f_equal. ring.
Qed.

(** The gradient is linear. *)
Lemma grad_comp_scal (a : array) d :
  grad_comp 0 Rminus (amap (Rmult c) a) d
  = map (Rmult c) (grad_comp 0 Rminus a d).
Proof.
  unfold grad_comp. change (shape (amap (Rmult c) a)) with (shape a).
  change (data (amap (Rmult c) a)) with (map (Rmult c) (data a)).
  rewrite chunks_map, concat_map, !map_map.
  f_equal. apply map_ext. intros b. apply grad_block_scal.
Qed.

(** The step of the ascent is the same: the gradient is multiplied by
    [c] and the step size divided by [c]. *)
Lemma fista_ascent_scaled p L st :
  wf (negated_output st) -> weight p <> 0 -> L <> 0 ->
  fista_ascent (scale_params c p) L (scale_state c st) = fista_ascent p L st.
Proof.
  intros Hwf Hw HL. unfold fista_ascent.
  cbn [negated_output grad_aux scale_state weight scale_params].
  rewrite !gradient_blocks by (try apply wf_amap; exact Hwf). cbn [bind].
  destruct (Req_dec_T (L * (c * weight p)) 0) as [E0|_].
  { exfalso. apply Rmult_integral in E0. destruct E0 as [E0|E0];
      [tauto|]. apply Rmult_integral in E0. destruct E0; [lra|tauto]. }
  destruct (Req_dec_T (L * weight p) 0) as [E0|_].
  { exfalso. apply Rmult_integral in E0. tauto. }
  f_equal.
  replace (concat (map (grad_comp 0 Rminus
                          (amap (Rmult c) (negated_output st)))
                     (seq 0 (ndim (amap (Rmult c) (negated_output st))))))
    with (map (Rmult c)
            (concat (map (grad_comp 0 Rminus (negated_output st))
                       (seq 0 (ndim (negated_output st)))))).
  2:{ rewrite concat_map, map_map. f_equal. apply map_ext. intros d.
      symmetry. apply grad_comp_scal. }
  unfold amap, ndim. cbn [dtype_of shape data]. f_equal.
  rewrite map_map. apply map_ext. intros x. field. repeat split; lra.
Qed.

Lemma Rmin_scal (x y : R) : Rmin (c * x) (c * y) = c * Rmin x y.
Proof.
  unfold Rmin. destruct (Rle_dec (c * x) (c * y)), (Rle_dec x y);
    try reflexivity; exfalso; nra.
Qed.

Lemma clip1_scal lo hi x :
  clip1 (option_map (Rmult c) lo) (option_map (Rmult c) hi) (c * x)
  = c * clip1 lo hi x.
Proof.
  assert (H0 : 0 <= c) by lra.
  unfold clip1. destruct lo as [l|], hi as [h|]; cbn [option_map];
    rewrite ?(RmaxRmult _ _ c H0), ?Rmin_scal; reflexivity.
Qed.

Lemma opp_scal_option (v : option R) :
  option_map Ropp (option_map (Rmult c) v)
  = option_map (Rmult c) (option_map Ropp v).
Proof. destruct v; cbn [option_map]; [f_equal; ring|reflexivity]. Qed.

Lemma clip_scal lo hi (a : array) :
  clip (option_map (Rmult c) lo) (option_map (Rmult c) hi)
    (amap (Rmult c) a)
  = amap (Rmult c) (clip lo hi a).
Proof.
  unfold clip. rewrite !amap_amap. apply amap_ext. intros x.
  apply clip1_scal.
Qed.

Lemma bounded_scale p : bounded (scale_params c p) = bounded p.
Proof.
  unfold bounded, scale_params. cbn [val_min val_max].
  destruct (val_min p), (val_max p); reflexivity.
Qed.

Lemma fold_max_scal (l : list R) x :
  fold_left Rmax (map (Rmult c) l) (c * x) = c * fold_left Rmax l x.
Proof.
  revert x; induction l as [|y l IH]; intros x; cbn [map fold_left];
    [reflexivity|].
  rewrite RmaxRmult by lra. apply IH.
Qed.

Lemma np_max_scal (a : array) :
  np_max (amap (Rmult c) a) = (m <- np_max a ;; Ok (c * m)).
Proof.
  unfold np_max, amap. cbn [data].
  destruct (data a); cbn [map bind]; [reflexivity|].
  now rewrite fold_max_scal.
Qed.

(** A quotient, and a quotient times a number, do not see a positive
    factor, also when the divisor is zero. *)
Lemma xmul_xdiv_scal (k x N D : R) :
  0 < k -> xmul (xdiv x (k * N)) (k * D) = xmul (xdiv x N) D.
Proof.
  intros Hk. unfold xdiv.
  destruct (Req_dec_T (k * N) 0) as [E|E], (Req_dec_T N 0) as [E'|E'].
  - destruct (Rlt_dec 0 x); [|destruct (Rlt_dec x 0)]; cbn [xmul];
      try reflexivity;
      destruct (Rlt_dec 0 (k * D)), (Rlt_dec 0 D); try reflexivity;
      try (exfalso; nra);
      destruct (Rlt_dec (k * D) 0), (Rlt_dec D 0); try reflexivity;
      exfalso; nra.
  - exfalso. apply Rmult_integral in E. destruct E; [lra|tauto].
  - exfalso. apply E. rewrite E'. ring.
  - cbn [xmul]. f_equal. field. split; [exact E'|lra].
Qed.

Lemma ratio_scal (D M : R) : xdiv (c * D) (c * M) = xdiv D M.
Proof.
  unfold xdiv.
  destruct (Req_dec_T (c * M) 0) as [E|E], (Req_dec_T M 0) as [E'|E'].
  - destruct (Rlt_dec 0 (c * D)), (Rlt_dec 0 D); try reflexivity;
      try (exfalso; nra);
      destruct (Rlt_dec (c * D) 0), (Rlt_dec D 0); try reflexivity;
      exfalso; nra.
  - exfalso. apply Rmult_integral in E. destruct E; [lra|tauto].
  - exfalso. apply E. rewrite E'. ring.
  - f_equal. field. split; [exact E'|lra].
Qed.

Lemma dual_gap_scaled (im new g : array) w :
  wf new -> ndim new = ndim im -> (ndim im = 2 \/ ndim im = 3)%nat ->
  dual_gap (amap (Rmult c) im) (amap Ropp (amap (Rmult c) new))
    (amap (Rmult c) g) (c * w)
  = dual_gap im (amap Ropp new) g w.
Proof.
  intros Hwf Hnd Hr. rewrite opp_scal.
  rewrite (@dual_gap_value im (amap Ropp new) g w);
    [|now apply wf_amap|exact Hnd|exact Hr].
  rewrite dual_gap_value;
    [|now apply wf_amap, wf_amap|exact Hnd|exact Hr].
  rewrite !np_sum_sqr_scal, TV_scal by lra.
  f_equal.
  match goal with
  | |- xmul _ ?e = xmul _ ?e' => replace e with (c ^ 2 * e') by ring
  end.
  apply xmul_xdiv_scal. nra.
Qed.

Lemma fista_check_scaled p (input_img g neg : array) old :
  wf neg -> ndim neg = ndim input_img ->
  (ndim input_img = 2 \/ ndim input_img = 3)%nat ->
  fista_check (scale_params c p) (amap (Rmult c) input_img)
    (amap (Rmult c) g) (amap (Rmult c) neg)
    (option_map (amap (Rmult c)) old)
  = (r <- fista_check p input_img g neg old ;;
     Ok (option_map (amap (Rmult c)) (fst r), snd r)).
Proof.
  intros Hwf Hnd Hr. unfold fista_check. rewrite bounded_scale.
  destruct (bounded p).
  - destruct old as [o|]; cbn [option_map lookup bind]; [|reflexivity].
    rewrite binop_minus_scal.
    destruct (binop Rminus o neg) as [d|]; cbn [bind]; [|reflexivity].
    rewrite abs_scal, np_max_scal.
    destruct (np_max (amap Rabs d)) as [D|]; cbn [bind]; [|reflexivity].
    rewrite abs_scal, np_max_scal.
    destruct (np_max (amap Rabs neg)) as [M|]; cbn [bind]; [|reflexivity].
    cbn [eps scale_params]. rewrite ratio_scal.
    destruct (xlt (xdiv D M) (eps p)); reflexivity.
  - cbn [weight scale_params]. rewrite dual_gap_scaled by assumption.
    destruct (dual_gap input_img (amap Ropp neg) g (weight p)) as [v|];
      cbn [bind]; [|reflexivity].
    cbn [eps scale_params]. destruct (xlt v (eps p)); reflexivity.
Qed.

Lemma fista_body_end_scaled p (input_img : array) st prj aux' dv :
  wf dv -> shape dv = shape input_img -> wf input_img ->
  (ndim input_img = 2 \/ ndim input_img = 3)%nat ->
  fista_body_end (scale_params c p) (amap (Rmult c) input_img)
    (scale_state c st) prj aux' dv
  = (r <- fista_body_end p input_img st prj aux' dv ;;
     Ok (scale_state c (fst r), snd r)).
Proof.
  intros Hwd Hsd Hwi Hr. unfold fista_body_end. cbv zeta.
  cbn [t i iters negated_output_old scale_state weight check_gap_frequency
       val_min val_max scale_params].
  replace (amap (Rmult (c * weight p)) dv)
    with (amap (Rmult c) (amap (Rmult (weight p)) dv))
    by (rewrite amap_amap; apply amap_ext; intros x; ring).
  rewrite binop_minus_scal, binop_same by (cbn [amap shape]; exact Hsd).
  cbn [bind]. rewrite bounded_scale, !opp_scal_option.
  set (gp := amap (Rmult (weight p)) dv).
  assert (Hw0 : wf (amap2 Rminus gp input_img))
    by (apply wf_amap2; [now apply wf_amap|exact Hwi|exact Hsd]).
  assert (Hn0 : ndim (amap2 Rminus gp input_img) = ndim input_img)
    by (unfold ndim; cbn [amap2 amap gp shape]; now rewrite Hsd).
  set (neg := if bounded p
              then clip (option_map Ropp (val_max p))
                     (option_map Ropp (val_min p))
                     (amap2 Rminus gp input_img)
              else amap2 Rminus gp input_img).
  assert (Hneg : wf neg /\ ndim neg = ndim input_img).
  { unfold neg. destruct (bounded p); split; auto. now apply wf_clip. }
  destruct Hneg as [Hwn Hnn].
  replace (if bounded p
           then clip (option_map (Rmult c) (option_map Ropp (val_max p)))
                  (option_map (Rmult c) (option_map Ropp (val_min p)))
                  (amap (Rmult c) (amap2 Rminus gp input_img))
           else amap (Rmult c) (amap2 Rminus gp input_img))
    with (amap (Rmult c) neg)
    by (unfold neg; destruct (bounded p);
        [now rewrite clip_scal|reflexivity]).
  destruct (check_gap_frequency p =? 0)%Z; [reflexivity|].
  destruct (i st mod check_gap_frequency p =? 0)%Z; [|reflexivity].
  rewrite fista_check_scaled by assumption.
  destruct (fista_check p input_img gp neg (negated_output_old st))
    as [[old1 brk]|]; reflexivity.
Qed.

Lemma fista_body_scaled p (input_img : array) L s st s1 brk :
  wf input_img -> shape input_img = s ->
  (length s = 2 \/ length s = 3)%nat -> axes_ge2 s ->
  weight p <> 0 -> L <> 0 -> loop_inv p s st ->
  fista_body p input_img L st = Ok (s1, brk) ->
  fista_body (scale_params c p) (amap (Rmult c) input_img) L
    (scale_state c st)
  = Ok (scale_state c s1, brk).
Proof.
  intros Hwi Hsi Hr Hge Hw HL Hinv Eb.
  assert (HLw : L * weight p <> 0)
    by (intros H0; apply Rmult_integral in H0; tauto).
  rewrite fista_body_split in Eb. rewrite fista_body_split.
  pose proof Hinv as (Hwn & _).
  rewrite fista_ascent_scaled by assumption.
  cbn [t grad_im scale_state].
  destruct (fista_ascent_ok HLw Hinv) as [aux [Ea [Hwa Hsa]]].
  rewrite Ea in Eb. rewrite Ea. cbn [bind] in Eb. cbn [bind].
  destruct Hinv as (_ & _ & _ & _ & Hwg & Hsg & _ & _).
  destruct (projector_flat Hsa Hwa (rank_not_nil Hr))
    as [prj [Ep [Hsp [_ [Hwp _]]]]].
  rewrite Ep in Eb. rewrite Ep. cbn [bind] in Eb. cbn [bind].
  rewrite binop_same in Eb by (cbn [amap shape]; congruence).
  rewrite binop_same by (cbn [amap shape]; congruence).
  cbn [bind] in Eb. cbn [bind].
  assert (Hax : forall d, (d < length s)%nat -> (2 <= nth d s 0)%nat).
  { intros d Hd. unfold axes_ge2 in Hge. rewrite Forall_forall in Hge.
    apply Hge. now apply nth_In. }
  rewrite (div_blocks Hsp Hwp (Nat.le_refl _) Hax) in Eb.
  rewrite (div_blocks Hsp Hwp (Nat.le_refl _) Hax).
  cbn [bind] in Eb. cbn [bind].
  rewrite fista_body_end_scaled.
  - rewrite Eb. reflexivity.
  - unfold wf. cbn [data shape]. apply div_data_length; [lia|].
    intros d Hd. split; [|now apply Hax].
    pose proof (chunks_all_length (size s) (length s) (data prj)) as HF.
    rewrite Forall_forall in HF. apply HF.
    + rewrite Hwp, Hsp. reflexivity.
    + apply nth_In. now rewrite chunks_length.
  - cbn [shape]. now rewrite Hsi.
  - exact Hwi.
  - unfold ndim. now rewrite Hsi.
Qed.

Lemma fista_while_scaled p (input_img : array) L s fuel st st1 :
  wf input_img -> shape input_img = s ->
  (length s = 2 \/ length s = 3)%nat -> axes_ge2 s ->
  check_gap_frequency p <> 0%Z -> weight p <> 0 -> L <> 0 ->
  loop_inv p s st ->
  fista_while fuel p input_img L st = Ok st1 ->
  fista_while fuel (scale_params c p) (amap (Rmult c) input_img) L
    (scale_state c st)
  = Ok (scale_state c st1).
Proof.
  intros Hwi Hsi Hr Hge Hcg Hw HL.
  assert (HLw : L * weight p <> 0)
    by (intros H0; apply Rmult_integral in H0; tauto).
  revert st.
  induction fuel as [|fuel IH]; intros st Hinv H; cbn [fista_while] in *.
  - now injection H as <-.
  - cbn [i scale_state n_iter_max scale_params].
    destruct (i st <? n_iter_max p)%Z; [|now injection H as <-].
    destruct (fista_body_ok Hwi Hsi Hr Hge Hcg HLw Hinv)
      as [s1 [brk [Eb [Hinv1 _]]]].
    rewrite Eb in H. cbn [bind] in H.
    rewrite (@fista_body_scaled p input_img L s st s1 brk
               Hwi Hsi Hr Hge Hw HL Hinv Eb).
    cbn [bind]. destruct brk; [now injection H as <-|].
    exact (IH (mkstate (grad_im s1) (grad_aux s1) (t s1) (i s1 + 1)%Z
                 (negated_output s1) (negated_output_old s1) (gap s1)
                 (iters s1)) Hinv1 H).
Qed.

Lemma fista_output_scaled p (input_img : array) st :
  fista_output (scale_params c p) (amap (Rmult c) input_img)
    (scale_state c st)
  = (o <- fista_output p input_img st ;; Ok (amap (Rmult c) o)).
Proof.
  unfold fista_output. cbn [gap scale_state].
  destruct (gap st) as [g|]; cbn [option_map lookup bind]; [|reflexivity].
  rewrite binop_minus_scal.
  destruct (binop Rminus input_img g) as [o|]; cbn [bind]; [|reflexivity].
  rewrite bounded_scale, !opp_opp. cbn [val_min val_max scale_params].
  destruct (bounded p); [now rewrite clip_scal|reflexivity].
Qed.

Lemma fista_start_scaled p (im : array) :
  fista_start (scale_params c p) (amap (Rmult c) im)
  = scale_state c (fista_start p im).
Proof.
  unfold fista_start, scale_state. cbv zeta.
  cbn [grad_im grad_aux t i negated_output negated_output_old gap iters].
  change (dtype_of (amap (Rmult c) im)) with (dtype_of im).
  change (ndim (amap (Rmult c) im)) with (ndim im).
  change (shape (amap (Rmult c) im)) with (shape im).
  rewrite bounded_scale.
  change (astype_float (amap (Rmult c) im))
    with (amap (Rmult c) (astype_float im)).
  destruct (Ascii.eqb (kind (dtype_of im)) "f"); rewrite opp_scal;
    destruct (bounded p); reflexivity.
Qed.

Lemma as_float_scaled (im : array) :
  as_float (amap (Rmult c) im) = amap (Rmult c) (as_float im).
Proof.
  unfold as_float.
  change (dtype_of (amap (Rmult c) im)) with (dtype_of im).
  destruct (Ascii.eqb (kind (dtype_of im)) "f"); reflexivity.
Qed.

Lemma fista_run_unfold p (im : array) L :
  lipschitz (ndim im) = Ok L ->
  fista_run p im
  = (st <- fista_while (Z.to_nat (n_iter_max p)) p (as_float im) L
             (fista_start p im) ;;
     output <- fista_output p (as_float im) st ;;
     Ok (output, st)).
Proof.
  intros EL. unfold fista_run.
  pose proof (fista_init_value p im) as E. cbv zeta in E.
  rewrite E, EL. reflexivity.
Qed.

(** X20. The solver commutes with a change of contrast: for [c > 0],
    denoising [c * im] with the weight and the bounds multiplied by [c]
    gives [c] times what denoising [im] gives, after the same number of
    turns of the loop and with the same dual fields (the stopping tests
    do not see the factor). *)
Theorem solver_contrast_equivariant (p : params) (im : array) :
  wf im -> (ndim im = 2 \/ ndim im = 3)%nat -> axes_ge2 (shape im) ->
  (1 <= n_iter_max p)%Z -> check_gap_frequency p <> 0%Z ->
  weight p <> 0 ->
  exists out st,
    fista_run p im = Ok (out, st)
    /\ fista_run (scale_params c p) (amap (Rmult c) im)
       = Ok (amap (Rmult c) out, scale_state c st)
    /\ tv_denoise_fista p im = Ok out
    /\ tv_denoise_fista (scale_params c p) (amap (Rmult c) im)
       = Ok (amap (Rmult c) out).
Proof.
  intros Hwf Hr Hge Hn Hcg Hw.
  destruct (@fista_run_returns p im Hwf Hr Hge Hn Hcg Hw) as [out [st E]].
  exists out, st.
  assert (E' : fista_run (scale_params c p) (amap (Rmult c) im)
               = Ok (amap (Rmult c) out, scale_state c st)).
  { assert (HL : exists L, lipschitz (ndim im) = Ok L /\ L <> 0).
    { destruct Hr as [-> | ->]; eexists; (split; [reflexivity|lra]). }
    destruct HL as [L [EL HL]].
    rewrite (@fista_run_unfold p im L EL) in E.
    rewrite (@fista_run_unfold (scale_params c p) (amap (Rmult c) im) L EL).
    rewrite as_float_scaled, fista_start_scaled.
    cbn [n_iter_max scale_params].
    destruct (@input_img_facts im Hwf) as [Hwi [Hsi _]].
    fold (as_float im) in Hwi, Hsi.
    destruct (fista_while (Z.to_nat (n_iter_max p)) p (as_float im) L
                (fista_start p im)) as [st1|] eqn:Ew; [|discriminate].
    cbn [bind] in E.
    rewrite (@fista_while_scaled p (as_float im) L (shape im)
               (Z.to_nat (n_iter_max p)) (fista_start p im) st1
               Hwi Hsi Hr Hge Hcg Hw HL (@loop_inv_start p im Hwf) Ew).
    cbn [bind]. rewrite fista_output_scaled.
    destruct (fista_output p (as_float im) st1) as [o|]; [|discriminate].
    cbn [bind] in *. now injection E as <- <-. }
  split; [exact E|]. split; [exact E'|].
  unfold tv_denoise_fista. rewrite E, E'. split; reflexivity.
Qed.

End Equivariance.

(** ** The theorems at small inputs *)

Section Instances.

Open Scope R_scope.

Lemma ascent_step_gradient_witness :
  wf (negated_output cx_state) /\ wf (grad_aux cx_state)
  /\ shape (grad_aux cx_state)
     = ndim (negated_output cx_state) :: shape (negated_output cx_state)
  /\ 9 * weight cx_params <> 0
  /\ exists aux',
       fista_ascent cx_params 9 cx_state = Ok aux'
       /\ item 0 aux' [0; 0; 0]%nat
          = item 0 (grad_aux cx_state) [0; 0; 0]%nat
            + 1 / (9 * weight cx_params)
              * fwd_diff (negated_output cx_state) 0 [0; 0]%nat.
Proof.
  assert (H9 : 9 * weight cx_params <> 0)
    by (cbn [weight cx_params]; lra).
  split; [reflexivity|]. split; [reflexivity|]. split; [reflexivity|].
  split; [exact H9|].
  destruct (@ascent_step_gradient cx_params 9 cx_state
              eq_refl eq_refl eq_refl H9) as [aux [E [_ H]]].
  exists aux. split; [exact E|].
  apply (H 0%nat [0; 0]%nat).
  - (cbv; lia).
  - repeat constructor.
Defined.


Lemma sqrt_of_square (x y : R) : 0 <= y -> x = y * y -> sqrt x = y.
Proof. intros Hy ->. now apply sqrt_square. Qed.

Lemma gap_im_norm : sqnorm gap_im <> 0.
Proof.
  unfold sqnorm, item, gap_im.
  cbn [shape data grid seq flat_map map app fold_right ravel size nth
       Nat.mul Nat.add].
  lra.
Qed.

Lemma TV_gap_cand : TV gap_cand = 12.
Proof.
  unfold TV, fwd_diff, item, gap_cand.
  cbn [shape data ndim length seq map grid flat_map app fold_right ravel
       bump nth Nat.ltb Nat.leb size Nat.mul Nat.add].
  rewrite (@sqrt_of_square ((4 - 0) ^ 2 + ((3 - 0) ^ 2 + 0)) 5)
    by lra.
  rewrite (@sqrt_of_square ((0 - 3) ^ 2 + (0 ^ 2 + 0)) 3) by lra.
  rewrite (@sqrt_of_square (0 ^ 2 + ((0 - 4) ^ 2 + 0)) 4) by lra.
  rewrite (@sqrt_of_square (0 ^ 2 + (0 ^ 2 + 0)) 0) by lra.
  lra.
Qed.

Lemma dual_gap_formula_witness :
  wf gap_im /\ wf gap_cand /\ wf gap_field
  /\ shape gap_cand = shape gap_im /\ shape gap_field = shape gap_im
  /\ sqnorm gap_im <> 0
  /\ dual_gap gap_im gap_cand gap_field 1 = Ok (Finite 25).
Proof.
  split; [reflexivity|]. split; [reflexivity|]. split; [reflexivity|].
  split; [reflexivity|]. split; [reflexivity|].
  split; [exact gap_im_norm|].
  rewrite (@dual_gap_formula gap_im gap_cand gap_field 1
             eq_refl eq_refl eq_refl eq_refl eq_refl
             (or_introl eq_refl) gap_im_norm).
  rewrite TV_gap_cand. unfold sqnorm, item, gap_im, gap_cand, gap_field.
  cbn [shape data grid seq flat_map map app fold_right ravel size nth
       Nat.mul Nat.add].
  f_equal. f_equal. lra.
Defined.

Lemma unit_field_norm idx :
  in_range [2; 2]%nat idx -> point_norm unit_field idx <= 1.
Proof.
  intros H.
  inversion H as [|i n idx' s' Hi H' E1 E2]; subst.
  inversion H' as [|j n idx'' s'' Hj H'' E1 E2]; subst.
  inversion H''; subst.
  assert (Hi' : (i = 0 \/ i = 1)%nat) by lia.
  assert (Hj' : (j = 0 \/ j = 1)%nat) by lia.
  destruct Hi' as [-> | ->], Hj' as [-> | ->];
    unfold point_norm, item, unit_field;
    cbn [shape data hd seq map fold_right ravel size Nat.mul Nat.add nth];
    [rewrite (@sqrt_of_square (1 ^ 2 + (0 ^ 2 + 0)) 1) by lra
    |rewrite (@sqrt_of_square (0 ^ 2 + (0 ^ 2 + 0)) 0) by lra ..]; lra.
Qed.

Lemma dual_gap_nonnegative_witness :
  wf gap_im /\ axes_ge2 (shape gap_im) /\ sqnorm gap_im <> 0
  /\ wf unit_field /\ shape unit_field = ndim gap_im :: shape gap_im
  /\ exists dv neg v,
       div unit_field = Ok dv
       /\ binop Rminus (amap (Rmult 1) dv) gap_im = Ok neg
       /\ dual_gap gap_im (amap Ropp neg) (amap (Rmult 1) dv) 1
          = Ok (Finite v)
       /\ 0 <= v.
Proof.
  split; [reflexivity|]. split; [repeat constructor|].
  split; [exact gap_im_norm|]. split; [reflexivity|]. split; [reflexivity|].
  apply (@dual_gap_nonnegative gap_im unit_field 1).
  - reflexivity.
  - left; reflexivity.
  - repeat constructor.
  - exact gap_im_norm.
  - lra.
  - reflexivity.
  - reflexivity.
  - exact unit_field_norm.
Defined.

Lemma gradient_forward_difference_witness :
  wf img22
  /\ exists g,
       gradient 0 Rminus img22 = Ok g
       /\ shape g = [2; 2; 2]%nat
       /\ dtype_of g = float64
       /\ item 0 g [0; 0; 1]%nat
          = item 0 img22 [1; 1]%nat - item 0 img22 [0; 1]%nat
       /\ item 0 g [0; 1; 1]%nat = 0.
Proof.
  split; [reflexivity|].
  destruct (@gradient_forward_difference R 0 Rminus img22 eq_refl)
    as [g [E [Hs [Hd [_ H]]]]].
  exists g. split; [exact E|]. split; [exact Hs|]. split; [exact Hd|].
  split.
  - apply (H 0%nat [0; 1]%nat); [(cbv; lia)|repeat constructor|(cbv; lia)].
  - apply (H 0%nat [1; 1]%nat); [(cbv; lia)|repeat constructor|reflexivity].
Defined.


Lemma projector_on_dual_idempotent_witness :
  shape vec34 = [2; 1; 1]%nat /\ wf vec34
  /\ exists out,
       _projector_on_dual vec34 = Ok out /\ _projector_on_dual out = Ok out.
Proof.
  split; [reflexivity|]. split; [reflexivity|].
  apply (@projector_on_dual_idempotent vec34 2%nat [1; 1]%nat eq_refl eq_refl).
Defined.

Lemma no_iteration_unbound_gap_witness :
  (n_iter_max no_iter_params <= 0)%Z /\ ndim gap_im = 2%nat
  /\ tv_denoise_fista no_iter_params gap_im
     = Raise (UnboundLocalError "gap").
Proof.
  split; [discriminate|]. split; [reflexivity|].
  apply (@no_iteration_unbound_gap no_iter_params gap_im).
  - discriminate.
  - left; reflexivity.
Defined.

Lemma axes22 d : (d < 2)%nat -> (2 <= nth d [2; 2]%nat 0)%nat.
Proof. intros H. destruct d as [|[|d]]; cbn [nth]; lia. Qed.

Lemma cx_weight : weight cx_params <> 0.
Proof. cbn [weight cx_params]. lra. Qed.

Lemma gradient_div_adjoint_witness :
  wf img22 /\ wf field22 /\ axes_ge2 (shape img22)
  /\ exists gx dy a b,
       gradient 0 Rminus img22 = Ok gx /\ div field22 = Ok dy
       /\ sum_prod gx field22 = Ok a /\ sum_prod img22 dy = Ok b
       /\ a = - b.
Proof.
  split; [reflexivity|]. split; [reflexivity|].
  split; [repeat constructor|].
  apply (@gradient_div_adjoint img22 field22).
  - reflexivity.
  - reflexivity.
  - reflexivity.
  - repeat constructor.
Defined.

Lemma div_returns_iff_witness :
  shape field22 = [2; 2; 2]%nat /\ wf field22
  /\ ((forall d, (d < 2)%nat -> (2 <= nth d [2; 2]%nat 0)%nat)
      <-> exists dv, div field22 = Ok dv).
Proof.
  split; [reflexivity|]. split; [reflexivity|].
  destruct (@div_returns_iff field22 2%nat [2; 2]%nat eq_refl eq_refl
              (le_n 2)) as [H _].
  exact H.
Defined.

Lemma div_backward_difference_witness :
  shape field22 = [2; 2; 2]%nat /\ wf field22
  /\ exists dv,
       div field22 = Ok dv
       /\ item 0 dv [1; 0]%nat
          = Rsum (map (fun k => bwd_diff field22 k [1; 0]%nat)
                    (seq 0 2)).
Proof.
  split; [reflexivity|]. split; [reflexivity|].
  destruct (@div_backward_difference field22 2%nat [2; 2]%nat
              eq_refl eq_refl (le_n 2) axes22) as [dv [E [_ [_ H]]]].
  exists dv. split; [exact E|]. apply H. repeat constructor.
Defined.

Lemma div_sum_zero_witness :
  shape field22 = [2; 2; 2]%nat /\ wf field22
  /\ exists dv, div field22 = Ok dv /\ np_sum dv = 0.
Proof.
  split; [reflexivity|]. split; [reflexivity|].
  destruct (@div_sum_zero field22 2%nat [2; 2]%nat
              eq_refl eq_refl (le_n 2) axes22) as [dv [E [_ [_ H]]]].
  exists dv. split; [exact E|exact H].
Defined.

Lemma gradient_of_constant_witness :
  wf ones22 /\ Forall (eq 1) (data ones22)
  /\ exists g,
       gradient 0 Rminus ones22 = Ok g /\ Forall (eq 0) (data g).
Proof.
  split; [reflexivity|]. split; [repeat constructor|].
  apply (@gradient_of_constant ones22 1).
  - reflexivity.
  - repeat constructor.
Defined.

Lemma projector_on_dual_norm_witness :
  shape vec34 = [2; 1; 1]%nat /\ wf vec34
  /\ kind (dtype_of vec34) = "f"%char
  /\ exists out,
       _projector_on_dual vec34 = Ok out
       /\ point_norm out [0; 0]%nat
          = point_norm vec34 [0; 0]%nat
            / Rmax (point_norm vec34 [0; 0]%nat) 1.
Proof.
  assert (Hne : [1; 1]%nat <> []) by discriminate.
  split; [reflexivity|]. split; [reflexivity|]. split; [reflexivity|].
  destruct (@projector_on_dual_norm vec34 2%nat [1; 1]%nat eq_refl Hne
              eq_refl eq_refl)
    as [out [E H]].
  exists out. split; [exact E|].
  apply (H [0; 0]%nat). repeat constructor.
Defined.

Lemma dual_gap_low_rank_witness :
  wf scalar0 /\ ndim scalar0 = 0%nat
  /\ wf vec2 /\ ndim vec2 = 1%nat
  /\ dual_gap gap_im scalar0 gap_zero 1
     = Raise (ValueError
                "diff requires input that is at least one dimensional")
  /\ dual_gap gap_im vec2 gap_zero 1 = Raise IndexError.
Proof.
  split; [reflexivity|]. split; [reflexivity|].
  split; [reflexivity|]. split; [reflexivity|]. split.
  - apply (@dual_gap_low_rank gap_im scalar0 gap_zero 1);
      reflexivity.
  - apply (@dual_gap_low_rank gap_im vec2 gap_zero 1);
      [reflexivity|left; reflexivity].
Defined.

Lemma dual_gap_contrast_invariant_witness :
  wf gap_im /\ wf gap_cand /\ ndim gap_cand = ndim gap_im /\ 0 < 2
  /\ sqnorm gap_im <> 0
  /\ dual_gap (amap (Rmult 2) gap_im) (amap (Rmult 2) gap_cand)
       (amap (Rmult 2) gap_field) (2 * 1)
     = dual_gap gap_im gap_cand gap_field 1.
Proof.
  split; [reflexivity|]. split; [reflexivity|]. split; [reflexivity|].
  split; [lra|]. split; [exact gap_im_norm|].
  apply (@dual_gap_contrast_invariant gap_im gap_cand gap_field 1 2).
  - reflexivity.
  - reflexivity.
  - reflexivity.
  - left; reflexivity.
  - lra.
  - exact gap_im_norm.
Defined.

Lemma tv_denoise_fista_shape_witness :
  wf gap_im /\ ndim gap_im = 2%nat /\ axes_ge2 (shape gap_im)
  /\ exists out,
       tv_denoise_fista cx_params gap_im = Ok out
       /\ shape out = shape gap_im /\ wf out.
Proof.
  split; [reflexivity|]. split; [reflexivity|].
  split; [repeat constructor|].
  apply (@tv_denoise_fista_shape cx_params gap_im).
  - reflexivity.
  - left; reflexivity.
  - repeat constructor.
  - discriminate.
  - discriminate.
  - exact cx_weight.
Defined.

Lemma cx_run :
  exists out st, fista_run cx_params gap_im = Ok (out, st).
Proof.
  apply (@fista_run_returns cx_params gap_im).
  - reflexivity.
  - left; reflexivity.
  - repeat constructor.
  - discriminate.
  - discriminate.
  - exact cx_weight.
Qed.

Lemma loop_entries_witness :
  exists out st,
    fista_run cx_params gap_im = Ok (out, st)
    /\ (1 <= iters st)%nat
    /\ (Z.of_nat (iters st) <= n_iter_max cx_params)%Z.
Proof.
  destruct cx_run as [out [st E]]. exists out, st.
  split; [exact E|].
  exact (@loop_entries cx_params gap_im out st E).
Defined.


Lemma zero_check_frequency_witness :
  wf gap_im /\ axes_ge2 (shape gap_im)
  /\ check_gap_frequency zero_freq_params = 0%Z
  /\ tv_denoise_fista zero_freq_params gap_im = Raise ZeroDivisionError.
Proof.
  split; [reflexivity|]. split; [repeat constructor|].
  split; [reflexivity|].
  apply (@zero_check_frequency zero_freq_params gap_im).
  - reflexivity.
  - left; reflexivity.
  - repeat constructor.
  - discriminate.
  - reflexivity.
  - cbn [weight zero_freq_params]. lra.
Defined.

Lemma short_axis_index_error_witness :
  wf row_image /\ ndim row_image = 2%nat
  /\ (nth 0 (shape row_image) 0 < 2)%nat
  /\ tv_denoise_fista cx_params row_image = Raise IndexError.
Proof.
  split; [reflexivity|]. split; [reflexivity|]. split; [(cbv; lia)|].
  apply (@short_axis_index_error cx_params row_image 0%nat).
  - reflexivity.
  - left; reflexivity.
  - cbv. lia.
  - cbv. lia.
  - discriminate.
  - exact cx_weight.
Defined.

Lemma output_dual_form_witness :
  wf gap_im /\ bounded cx_params = false
  /\ exists out st dv,
       fista_run cx_params gap_im = Ok (out, st)
       /\ point_norm (grad_im st) [0; 0]%nat <= 1
       /\ div (grad_im st) = Ok dv
       /\ item 0 out [0; 0]%nat
          = item 0 gap_im [0; 0]%nat
            - weight cx_params * item 0 dv [0; 0]%nat.
Proof.
  split; [reflexivity|]. split; [reflexivity|].
  destruct (@output_dual_form cx_params gap_im) as [out [st [dv H]]].
  - reflexivity.
  - left; reflexivity.
  - repeat constructor.
  - discriminate.
  - discriminate.
  - exact cx_weight.
  - destruct H as [E [_ [_ [_ [Hn [Ed [_ H]]]]]]]. exists out, st, dv.
    split; [exact E|].
    split; [apply (Hn [0; 0]%nat); repeat constructor|].
    split; [exact Ed|].
    apply (H [0; 0]%nat). repeat constructor.
Defined.

Lemma output_is_float_witness :
  kind (dtype_of int_image) <> "f"%char
  /\ exists out,
       tv_denoise_fista cx_params int_image = Ok out
       /\ kind (dtype_of out) = "f"%char.
Proof.
  split; [discriminate|].
  destruct (@fista_returns cx_params int_image) as [out [E _]].
  - reflexivity.
  - left; reflexivity.
  - repeat constructor.
  - exact cx_weight.
  - discriminate.
  - discriminate.
  - exists out. split; [exact E|].
    exact (@output_is_float cx_params int_image out E).
Defined.

Lemma output_sum_preserved_witness :
  wf gap_im /\ bounded cx_params = false
  /\ exists out,
       tv_denoise_fista cx_params gap_im = Ok out
       /\ np_sum out = np_sum gap_im.
Proof.
  split; [reflexivity|]. split; [reflexivity|].
  apply (@output_sum_preserved cx_params gap_im).
  - reflexivity.
  - left; reflexivity.
  - repeat constructor.
  - discriminate.
  - discriminate.
  - exact cx_weight.
  - reflexivity.
Defined.

Lemma output_change_bounded_witness :
  wf gap_im /\ bounded cx_params = false /\ 0 < weight cx_params
  /\ exists out,
       tv_denoise_fista cx_params gap_im = Ok out
       /\ Rabs (item 0 out [0; 0]%nat - item 0 gap_im [0; 0]%nat)
          <= 2 * INR (ndim gap_im) * weight cx_params.
Proof.
  assert (Hw : 0 < weight cx_params) by (cbn [weight cx_params]; lra).
  split; [reflexivity|]. split; [reflexivity|]. split; [exact Hw|].
  destruct (@output_change_bounded cx_params gap_im) as [out [E H]].
  - reflexivity.
  - left; reflexivity.
  - repeat constructor.
  - discriminate.
  - discriminate.
  - exact Hw.
  - reflexivity.
  - exists out. split; [exact E|]. apply H. repeat constructor.
Defined.

Lemma constant_image_unchanged_witness :
  wf ones22 /\ bounded cx_params = false
  /\ Forall (eq 1) (data ones22)
  /\ exists out,
       tv_denoise_fista cx_params ones22 = Ok out
       /\ shape out = shape ones22 /\ data out = data ones22.
Proof.
  split; [reflexivity|]. split; [reflexivity|].
  split; [repeat constructor|].
  apply (@constant_image_unchanged cx_params ones22 1).
  - reflexivity.
  - left; reflexivity.
  - repeat constructor.
  - discriminate.
  - discriminate.
  - exact cx_weight.
  - reflexivity.
  - repeat constructor.
Defined.

Lemma test_grad_div_adjoint_outcome_witness :
  wf field22 /\ wf field3
  /\ shape field22 = [2; 2; 2]%nat
  /\ shape field3 = [3; 2; 2; 2]%nat
  /\ test_grad_div_adjoint field22 field3 = Passed.
Proof.
  split; [reflexivity|]. split; [reflexivity|]. split; [reflexivity|].
  split; [reflexivity|].
  exact (@test_grad_div_adjoint_outcome 2 field22 field3
           eq_refl eq_refl eq_refl eq_refl).
Defined.

Lemma solver_contrast_equivariant_witness :
  0 < 2 /\ wf gap_im /\ axes_ge2 (shape gap_im)
  /\ exists out,
       tv_denoise_fista cx_params gap_im = Ok out
       /\ tv_denoise_fista (scale_params 2 cx_params) (amap (Rmult 2) gap_im)
          = Ok (amap (Rmult 2) out).
Proof.
  assert (H2 : 0 < 2) by lra.
  split; [exact H2|]. split; [reflexivity|]. split; [repeat constructor|].
  destruct (@solver_contrast_equivariant 2 H2 cx_params gap_im)
    as [out [st [_ [_ [E E']]]]].
  - reflexivity.
  - left; reflexivity.
  - repeat constructor.
  - discriminate.
  - discriminate.
  - exact cx_weight.
  - exists out. split; [exact E|exact E'].
Defined.

End Instances.
